(** * DART constraint solver core: projected Gauss-Seidel boxed LCP solver
      and constraint-group assembly.

    Shallow embedding of
      - dart/constraint/PgsBoxedLcpSolver.cpp
      - dart/constraint/SequentialImpulseConstraintSolver.cpp

    Conventions of the embedding.
    - A C++ [double] is an exact rational ([Qc]): no rounding, no NaN, no
      infinities.  Every statement below is about this idealised arithmetic.
    - A raw buffer ([double*], [int*], [std::vector]) is a list; [p[i]] is
      the total lookup [p !!! i] and [p[i] = v] is [<[i:=v]> p].  Accesses
      past the end of a buffer are undefined in C++; here a read yields the
      default element and a write does nothing, and the theorems that depend
      on a write taking effect assume the buffer is long enough.
    - The distinct pointer arguments of [solve] denote disjoint buffers.
    - [int] and [std::size_t] dimensions and indices are [nat]; values of
      [findex] and [nub], which can be negative, are [Z].  Index arithmetic
      does not overflow.
    - A quotient by zero has the value [Qc] gives it (zero), where the
      code gets an infinity or a NaN.  The theorems that bound a computed
      value keep the divisors away from zero by hypothesis: a positive
      [mEpsilonForDivision] for the pointer-based solver, whose sweeps
      divide by the diagonal of the regular rows only, and a nonzero
      diagonal for the matrix form.
    - Assertions are not modelled: they hold, or are compiled out.
    - Routines of dart/external/odelcpsolver and of Eigen, and the methods
      of the constraint classes, are parameters of the models; stand-ins
      are defined only to run the models on concrete instances. *)

From Stdlib Require Import QArith Qcanon Qcabs.
From stdpp Require Import numbers list.

Local Open Scope Qc_scope.

(** [Qcabs] is written in full; the bracket notation would shadow list
    literals. *)
#[local] Disable Notation "[ q ]" : Qc_scope.

Abbreviation double := Qc (only parsing).

#[global] Instance double_inhabited : Inhabited Qc := populate 0.

(** Literals: [n # d] is the rational n/d. *)
Definition dbl (n : Z) (d : positive) : Qc := Q2Qc (n # d).

(** ** Dense padded storage *)

(** Modelled from the spec: the macro [dPAD] of
    dart/external/odelcpsolver is not part of the sources at hand; the
    specification describes it as rounding [n] up to a multiple of the SIMD
    lane count 4.  The solver model below takes the padding function as a
    section variable, so the theorems hold for every choice; this instance
    is used to run the concrete scenarios. *)
Definition dPAD4 (n : nat) : nat := 4 * ((n + 3) / 4).

(** ** Solver options (PgsBoxedLcpSolver::Option) *)

Record Option_ := mkOption {
  mMaxIteration : Z;
  mDeltaXThreshold : double;
  mRelativeDeltaXTolerance : double;
  mEpsilonForDivision : double;
  mRandomizeConstraintOrder : bool
}.

(** ** Memory touched by one call of the pointer-based [solve]

    The six buffers the caller passes by pointer, the two caches of the
    solver object the function uses, and the state of the engine-global
    random source read by [dRandInt]. *)

Record Mem {Rng : Type} := mkMem {
  bufA : list double;
  bufx : list double;
  bufb : list double;
  buflo : list double;
  bufhi : list double;
  buffindex : list Z;
  mCacheD : list double;
  mCacheOrder : list nat;
  rng : Rng
}.
Arguments Mem : clear implicits.
Arguments mkMem {Rng}.

Section Setters.
Context {Rng : Type}.
Implicit Type m : Mem Rng.

Definition set_A (v : list double) m : Mem Rng :=
  mkMem v (bufx m) (bufb m) (buflo m) (bufhi m) (buffindex m)
        (mCacheD m) (mCacheOrder m) (rng m).
Definition set_x (v : list double) m : Mem Rng :=
  mkMem (bufA m) v (bufb m) (buflo m) (bufhi m) (buffindex m)
        (mCacheD m) (mCacheOrder m) (rng m).
Definition set_b (v : list double) m : Mem Rng :=
  mkMem (bufA m) (bufx m) v (buflo m) (bufhi m) (buffindex m)
        (mCacheD m) (mCacheOrder m) (rng m).
Definition set_CacheD (v : list double) m : Mem Rng :=
  mkMem (bufA m) (bufx m) (bufb m) (buflo m) (bufhi m) (buffindex m)
        v (mCacheOrder m) (rng m).
Definition set_CacheOrder (v : list nat) m : Mem Rng :=
  mkMem (bufA m) (bufx m) (bufb m) (buflo m) (bufhi m) (buffindex m)
        (mCacheD m) v (rng m).
Definition set_rng (v : Rng) m : Mem Rng :=
  mkMem (bufA m) (bufx m) (bufb m) (buflo m) (bufhi m) (buffindex m)
        (mCacheD m) (mCacheOrder m) v.
End Setters.

(** [std::memcpy(dst, src, n * sizeof(double))]. *)
Definition memcpy (dst src : list double) (n : nat) : list double :=
  fold_left (fun d i => <[i := src !!! i]> d) (seq 0 n) dst.

(** Entry [i] of the product of the leading n-by-n block of the padded
    matrix [A] with [x]. *)
Definition row_times (n nskip : nat) (A x : list double) (i : nat) : double :=
  fold_left (fun acc j => acc + A !!! (nskip * i + j)%nat * x !!! j) (seq 0 n) 0.

(** ** The pointer-based solver: PgsBoxedLcpSolver::solve(int n, double* A, ...) *)

Module Pgs.
Section Solver.
(** External collaborators of dart/external/odelcpsolver. *)
Variable dPAD : nat → nat.
Variable dFactorLDLT :
  list double → list double → nat → nat → list double * list double.
Variable dSolveLDLT :
  list double → list double → list double → nat → nat → list double.
Variable Rng : Type.
Variable dRandInt : Rng → nat → nat * Rng.

Variable mOption : Option_.

Implicit Type m : Mem Rng.

(** Lines 109-115 and 187-194: [new_x = b[i]] minus the off-diagonal part
    of row [i] times [x], columns [0..i-1] first, then [i+1..n-1]. *)
Definition offdiag (n nskip i : nat) (A x : list double) (new_x : double)
  : double :=
  let A_ptr j := A !!! (nskip * i + j)%nat in
  let new_x := fold_left (fun acc j => acc - A_ptr j * x !!! j) (seq 0 i) new_x in
  fold_left (fun acc j => acc - A_ptr j * x !!! j)
            (seq (i + 1) (n - (i + 1))) new_x.

(** Lines 119-139 and 196-216: the friction-aware projection, writing
    [x[i]].  A source test [a > b] is written [b < a]. *)
Definition project (i : nat) (new_x : double) m : Mem Rng :=
  let x := bufx m in
  let findex_i := buffindex m !!! i in
  if decide (0 ≤ findex_i)%Z then
    let hi_tmp := bufhi m !!! i * x !!! Z.to_nat findex_i in
    let lo_tmp := - hi_tmp in
    if decide (hi_tmp < new_x) then set_x (<[i := hi_tmp]> x) m
    else if decide (new_x < lo_tmp) then set_x (<[i := lo_tmp]> x) m
    else set_x (<[i := new_x]> x) m
  else
    if decide (bufhi m !!! i < new_x) then set_x (<[i := bufhi m !!! i]> x) m
    else if decide (new_x < buflo m !!! i) then set_x (<[i := buflo m !!! i]> x) m
    else set_x (<[i := new_x]> x) m.

(** Lines 95-147: body of the first loop.  The loop state is the memory
    and the flag [possibleToTerminate]. *)
Definition first_body (n nskip : nat) (s : Mem Rng * bool) (i : nat)
  : Mem Rng * bool :=
  let '(m, possibleToTerminate) := s in
  if decide (bufA m !!! (nskip * i + i)%nat < mEpsilonForDivision mOption) then
    (set_x (<[i := 0]> (bufx m)) m, possibleToTerminate)
  else
    let m := set_CacheOrder (mCacheOrder m ++ [i]) m in
    let old_x := bufx m !!! i in
    let new_x := offdiag n nskip i (bufA m) (bufx m) (bufb m !!! i) in
    let new_x := new_x / bufA m !!! (nskip * i + i)%nat in
    let m := project i new_x m in
    if possibleToTerminate then
      let deltaX := Qcabs (bufx m !!! i - old_x) in
      if decide (mDeltaXThreshold mOption < deltaX) then (m, false)
      else (m, true)
    else (m, false).

(** Lines 90-148. *)
Definition first_sweep (n nskip : nat) m : Mem Rng * bool :=
  fold_left (first_body n nskip) (seq 0 n) (set_CacheOrder [] m, true).

(** Lines 157-163: row normalisation. *)
Definition normalize_row (n nskip : nat) m (index : nat) : Mem Rng :=
  let dummy := 1 / bufA m !!! (nskip * index + index)%nat in
  let m := set_b (<[index := bufb m !!! index * dummy]> (bufb m)) m in
  fold_left
    (fun m j =>
       set_A (<[(nskip * index + j)%nat :=
                  bufA m !!! (nskip * index + j)%nat * dummy]> (bufA m)) m)
    (seq 0 n) m.

Definition normalize (n nskip : nat) m : Mem Rng :=
  fold_left (normalize_row n nskip) (mCacheOrder m) m.

(** Lines 171-177: the in-place shuffle of the sweep order. *)
Definition shuffle_body m (i : nat) : Mem Rng :=
  let tmp := mCacheOrder m !!! i in
  let '(swapi, r) := dRandInt (rng m) (i + 1) in
  let m := set_rng r m in
  let m := set_CacheOrder (<[i := mCacheOrder m !!! swapi]> (mCacheOrder m)) m in
  set_CacheOrder (<[swapi := tmp]> (mCacheOrder m)) m.

Definition shuffle m : Mem Rng :=
  fold_left shuffle_body (seq 1 (length (mCacheOrder m) - 1)) m.

(** Lines 184-225: body of one sweep over the normalised rows. *)
Definition sweep_body (n nskip : nat) (s : Mem Rng * bool) (index : nat)
  : Mem Rng * bool :=
  let '(m, possibleToTerminate) := s in
  let new_x := offdiag n nskip index (bufA m) (bufx m) (bufb m !!! index) in
  let old_x := bufx m !!! index in
  let m := project index new_x m in
  if possibleToTerminate
     && bool_decide (mEpsilonForDivision mOption < Qcabs (bufx m !!! index))
  then
    let relativeDeltaX :=
      Qcabs ((bufx m !!! index - old_x) / bufx m !!! index) in
    if decide (mRelativeDeltaXTolerance mOption < relativeDeltaX)
    then (m, false) else (m, true)
  else (m, possibleToTerminate).

Definition sweep (n nskip : nat) m : Mem Rng * bool :=
  fold_left (sweep_body n nskip) (mCacheOrder m) (m, true).

(** Lines 165-229: [for (iter = 1; iter < mMaxIteration; ++iter)].
    [fuel] is the number of iterations still allowed,
    [mMaxIteration - iter]. *)
Fixpoint iterate (n nskip : nat) (fuel : nat) (iter : Z) m : Mem Rng :=
  match fuel with
  | O => m
  | S fuel =>
      let m :=
        if mRandomizeConstraintOrder mOption then
          if decide (Z.land iter 7 = 0)%Z then shuffle m else m
        else m in
      let '(m, possibleToTerminate) := sweep n nskip m in
      if possibleToTerminate then m
      else iterate n nskip fuel (iter + 1)%Z m
  end.

(** Lines 64-234. *)
Definition solve (n : nat) (nub : Z) m : Mem Rng :=
  let nskip := dPAD n in
  if decide (Z.of_nat n ≤ nub)%Z then
    let m := set_CacheD (replicate n 0) m in
    let '(A', d') := dFactorLDLT (bufA m) (mCacheD m) n nskip in
    let m := set_CacheD d' (set_A A' m) in
    let m := set_b (dSolveLDLT (bufA m) (mCacheD m) (bufb m) n nskip) m in
    set_x (memcpy (bufx m) (bufb m) n) m
  else
    let '(m, possibleToTerminate) := first_sweep n nskip m in
    if possibleToTerminate then m
    else
      let m := normalize n nskip m in
      iterate n nskip (Z.to_nat (mMaxIteration mOption - 1)) 1%Z m.

(** Lines 413-470: [singleIterationForNormalizedA].  The buffers [A], [x],
    [b], [lo], [hi], [findex] are those of the memory; [mOrderCache] is
    the order array passed beside them, [n_new] the number of its entries
    to visit, and the flag [sentinel] is passed by reference and
    returned. *)
Definition singleIterationForNormalizedA (nskip : nat)
  (mOrderCache : list nat) (n n_new : nat) m (sentinel : bool)
  : Mem Rng * bool :=
  fold_left
    (fun (s : Mem Rng * bool) i =>
       let '(m, sentinel) := s in
       let index := mOrderCache !!! i in
       let new_x := offdiag n nskip index (bufA m) (bufx m) (bufb m !!! index) in
       let old_x := bufx m !!! index in
       let m := project index new_x m in
       if sentinel
          && bool_decide (mEpsilonForDivision mOption < Qcabs (bufx m !!! index))
       then
         let ea := Qcabs ((bufx m !!! index - old_x) / bufx m !!! index) in
         if decide (mRelativeDeltaXTolerance mOption < ea)
         then (m, false) else (m, true)
       else (m, sentinel))
    (seq 0 n_new) (m, sentinel).

(** *** Vocabulary of the properties below *)

Definition same_bounds m m' : Prop :=
  buflo m' = buflo m ∧ bufhi m' = bufhi m ∧ buffindex m' = buffindex m.

(** The value [project] stores in [x[i]]. *)
Definition projected (i : nat) (new_x : double) m : double :=
  if decide (0 ≤ buffindex m !!! i)%Z then
    let hi_tmp := bufhi m !!! i * bufx m !!! Z.to_nat (buffindex m !!! i) in
    if decide (hi_tmp < new_x) then hi_tmp
    else if decide (new_x < - hi_tmp) then - hi_tmp else new_x
  else
    if decide (bufhi m !!! i < new_x) then bufhi m !!! i
    else if decide (new_x < buflo m !!! i) then buflo m !!! i else new_x.

(** Row [i] of [A] is degenerate: the test of line 97. *)
Definition degenerate (nskip : nat) (A : list double) (i : nat) : Prop :=
  A !!! (nskip * i + i)%nat < mEpsilonForDivision mOption.

#[global] Instance degenerate_dec nskip A i : Decision (degenerate nskip A i).
Proof. unfold degenerate. apply _. Defined.

(** The unprojected Gauss-Seidel value of the first loop, lines 109-117. *)
Definition first_new_x (n nskip i : nat) m : double :=
  offdiag n nskip i (bufA m) (bufx m) (bufb m !!! i)
  / bufA m !!! (nskip * i + i)%nat.

(** The first [k] rounds of the first loop. *)
Definition first_loop (n nskip k : nat) m : Mem Rng * bool :=
  fold_left (first_body n nskip) (seq 0 k) (set_CacheOrder [] m, true).

(** One row update of a sweep over the normalised rows, lines 186-216. *)
Definition row_update (n nskip : nat) m (index : nat) : Mem Rng :=
  set_x (<[index :=
             projected index
               (offdiag n nskip index (bufA m) (bufx m) (bufb m !!! index))
               m]> (bufx m)) m.

(** Every regular row below [k] that is not a friction row and whose
    bounds are ordered lies within its bounds.  The bounds and the
    diagonal are those of the memory [m] on entry. *)
Definition in_box (n nskip k : nat) m (x : list double) : Prop :=
  ∀ j, (j < k)%nat → ¬ degenerate nskip (bufA m) j →
       (buffindex m !!! j < 0)%Z → buflo m !!! j ≤ bufhi m !!! j →
       buflo m !!! j ≤ x !!! j ≤ bufhi m !!! j.

(** Row [i] is bounded by its friction coefficient times the magnitude of
    row [k]. *)
Definition in_cone (hi : list double) (i k : nat) (x : list double) : Prop :=
  Qcabs (x !!! i) ≤ hi !!! i * Qcabs (x !!! k).

(** The memory with the buffer lo replaced. *)
Definition with_lo (lo : list double) m : Mem Rng :=
  mkMem (bufA m) (bufx m) (bufb m) lo (bufhi m) (buffindex m)
        (mCacheD m) (mCacheOrder m) (rng m).

(** The replacement agrees with lo on every row that is not a friction
    row. *)
Definition lo_agrees (lo : list double) m : Prop :=
  ∀ i, (buffindex m !!! i < 0)%Z → lo !!! i = buflo m !!! i.

End Solver.
End Pgs.

(** ** Stand-ins for the ODE routines, used to run the solver *)

Module OdeModel.

(** Modelled from the spec: [dFactorLDLT] and [dSolveLDLT] of
    dart/external/odelcpsolver/matrix.h are not part of the sources at
    hand.  The specification describes an in-place LDL-transpose
    factorisation of the leading n-by-n block with a length-n auxiliary
    diagonal buffer, followed by the triangular solves.  The unit lower
    factor is stored in the strict lower triangle of [A]; [d] receives the
    reciprocals of the diagonal factor.  [factor_row] computes row [i] of
    the factor. *)
Definition factor_row (nskip : nat) (Ad : list double * list double)
  (i : nat) : list double * list double :=
  let '(A, d) := Ad in
  let A :=
    fold_left
      (fun A j =>
         let s :=
           fold_left
             (fun acc k =>
                acc - A !!! (nskip * i + k)%nat * A !!! (nskip * j + k)%nat
                      / d !!! k)
             (seq 0 j) (A !!! (nskip * i + j)%nat) in
         <[(nskip * i + j)%nat := s * d !!! j]> A)
      (seq 0 i) A in
  let Dii :=
    fold_left
      (fun acc k =>
         acc - A !!! (nskip * i + k)%nat * A !!! (nskip * i + k)%nat
               / d !!! k)
      (seq 0 i) (A !!! (nskip * i + i)%nat) in
  (A, <[i := 1 / Dii]> d).

(** Modelled from the spec: [dFactorLDLT(A, d, n, nskip)], row by row. *)
Definition dFactorLDLT (A d : list double) (n nskip : nat)
  : list double * list double :=
  fold_left (factor_row nskip) (seq 0 n) (A, d).

(** Modelled from the spec: [dSolveLDLT(L, d, b, n, nskip)], the forward
    solve with the unit lower factor, the scaling by [d], and the backward
    solve with its transpose, all in place in [b]. *)
Definition dSolveLDLT (L d b : list double) (n nskip : nat) : list double :=
  let b :=
    fold_left
      (fun b i =>
         <[i := fold_left
                  (fun acc k => acc - L !!! (nskip * i + k)%nat * b !!! k)
                  (seq 0 i) (b !!! i)]> b)
      (seq 0 n) b in
  let b := fold_left (fun b i => <[i := b !!! i * d !!! i]> b) (seq 0 n) b in
  fold_left
    (fun b i =>
       <[i := fold_left
                (fun acc k => acc - L !!! (nskip * k + i)%nat * b !!! k)
                (seq (i + 1) (n - (i + 1))) (b !!! i)]> b)
    (rev (seq 0 n)) b.

(** Modelled from the spec: [dRandInt] of
    dart/external/odelcpsolver/misc.h is not part of the sources at hand;
    the specification asks for a draw from [0, n-1].  A linear
    congruential generator on 32-bit seeds, scaled to the range. *)
Definition dRand (seed : Z) : Z :=
  ((1664525 * seed + 1013904223) mod 2 ^ 32)%Z.

(** Modelled from the spec: [dRandInt(n)], with the seed made explicit. *)
Definition dRandInt (seed : Z) (n : nat) : nat * Z :=
  let seed := dRand seed in
  (Z.to_nat (seed * Z.of_nat n / 2 ^ 32), seed).

End OdeModel.

(** The pointer-based solver linked against the stand-ins. *)
Definition pgs_solve (opt : Option_) (n : nat) (nub : Z) (m : Mem Z) : Mem Z :=
  Pgs.solve dPAD4 OdeModel.dFactorLDLT OdeModel.dSolveLDLT Z OdeModel.dRandInt
            opt n nub m.

(** Typical option values of the configuration surface. *)
Definition default_option : Option_ :=
  mkOption 30 (dbl 1 1000000) (dbl 1 1000) (dbl 1 1000000000) true.

Definition wide : double := dbl 1000000 1.

(** A memory for [pgs_solve]: the six buffers, empty caches, a seed. *)
Definition instance (A x b lo hi : list double) (findex : list Z) (seed : Z)
  : Mem Z :=
  mkMem A x b lo hi findex [] [] seed.

(** The scenarios S1 to S6 of the specification, with a row stride of 4. *)
Definition S1 : Mem Z :=
  instance [dbl 2 1; 0; 0; 0] [0] [dbl 4 1] [- wide] [wide] [-1]%Z 0.

Definition S2 : Mem Z :=
  instance [1; 0; 0; 0] [0] [dbl 5 1] [-1] [1] [-1]%Z 0.

Definition S3 : Mem Z :=
  instance [dbl 4 1; 1; 0; 0; 1; dbl 3 1; 0; 0] [0; 0] [1; 2]
           [- wide; - wide] [wide; wide] [-1; -1]%Z 0.

Definition S4 : Mem Z :=
  instance [2; 0; 0; 0; 0; 2; 0; 0] [0; 0] [dbl 3 1; dbl (-3) 1]
           [0; 0] [1; 1] [-1; -1]%Z 0.

Definition S5 : Mem Z :=
  instance [1; 0; 0; 0; 0; 1; 0; 0; 0; 0; 1; 0] [0; 0; 0]
           [dbl 10 1; dbl 8 1; dbl (-8) 1]
           [0; - wide; - wide] [wide; dbl 1 2; dbl 1 2] [-1; 0; 0]%Z 0.

Definition S6 (seed : Z) : Mem Z :=
  instance [0; 0; 0; 0; 0; 2; 0; 0] [0; 0] [dbl 7 1; dbl 4 1]
           [- wide; - wide] [wide; wide] [-1; -1]%Z seed.

(** Typical options with the randomised sweep order switched off. *)
Definition fixed_order_option : Option_ :=
  mkOption 30 (dbl 1 1000000) (dbl 1 1000) (dbl 1 1000000000) false.

(** A single degenerate row with bounds that exclude zero. *)
Definition degenerate_box : Mem Z :=
  instance [0; 0; 0; 0] [0] [0] [1] [dbl 2 1] [-1]%Z 0.

(** A friction row 0 whose friction index points to the later row 1. *)
Definition later_normal_row : Mem Z :=
  instance [1; dbl 1 10; 0; 0; dbl 1 10; 1; 0; 0] [0; 0] [dbl 10 1; dbl 2 1]
           [- wide; - wide] [1; wide] [1; -1]%Z 0.

(** A single degenerate row with a non-zero entry value of x. *)
Definition degenerate_nonzero : Mem Z :=
  instance [0; 0; 0; 0] [dbl 5 1] [0] [- wide] [wide] [-1]%Z 0.

(** A regular row whose bounds are crossed, lo > hi. *)
Definition crossed_bounds : Mem Z :=
  instance [1; 0; 0; 0] [0] [dbl 5 1] [dbl 2 1] [1] [(-1)%Z] 0.

(** A normal row 0 followed by its friction row 1, with strong coupling
    so that the sweeps are still running when the order is shuffled. *)
Definition shuffled_friction : Mem Z :=
  instance [1; dbl 9 10; 0; 0; dbl 9 10; 1; 0; 0] [0; 0]
           [dbl 10 1; dbl 100 1] [0; - wide] [wide; 1] [-1; 0]%Z 3.

(** A 1-by-1 instance entered at its solution. *)
Definition already_solved : Mem Z :=
  instance [1; 0; 0; 0] [1] [1] [- wide] [wide] [-1]%Z 0.

(** ** Diagnostics: PgsBoxedLcpSolver::canSolve *)

(** Line 42: [#define PGS_EPSILON 10e-9], that is ten times 1e-9. *)
Definition PGS_EPSILON : double := dbl 10 1000000000.

Section CanSolve.
Variable dPAD : nat → nat.

(** Lines 387-394: the checks made for row [i]; [false] stands for the
    early [return false]. *)
Definition canSolve_row (n nskip : nat) (A : list double) (i : nat) : bool :=
  if decide (A !!! (nskip * i + i)%nat < PGS_EPSILON) then false
  else
    forallb
      (fun j =>
         if decide (PGS_EPSILON <
                    Qcabs (A !!! (nskip * i + j)%nat - A !!! (nskip * j + i)%nat))
         then false else true)
      (seq 0 n).

(** Lines 380-398. *)
Definition canSolve (n : nat) (A : list double) : bool :=
  let nskip := dPAD n in
  forallb (canSolve_row n nskip A) (seq 0 n).

(** The two conditions [canSolve] rejects. *)
Definition diagonal_small (nskip : nat) (A : list double) (i : nat) : Prop :=
  A !!! (nskip * i + i)%nat < PGS_EPSILON.

Definition asymmetric (nskip : nat) (A : list double) (i j : nat) : Prop :=
  PGS_EPSILON < Qcabs (A !!! (nskip * i + j)%nat - A !!! (nskip * j + i)%nat).

End CanSolve.

(** ** Diagnostics: SequentialImpulseConstraintSolver::isSymmetric

    Both overloads live in SequentialImpulseConstraintSolver.cpp and are
    compiled in debug builds only.  The printing done before
    [return false] is left out. *)

Section IsSymmetric.
Variable dPAD : nat → nat.

(** Lines 223 and 256: the test of one pair. *)
Definition symmetric_pair (nSkip : nat) (A : list double) (i j : nat) : bool :=
  if decide (dbl 1 1000000
             < Qcabs (A !!! (nSkip * i + j)%nat - A !!! (nSkip * j + i)%nat))
  then false else true.

(** Lines 216-245. *)
Definition isSymmetric (n : nat) (A : list double) : bool :=
  let nSkip := dPAD n in
  forallb (fun i => forallb (symmetric_pair nSkip A i) (seq 0 n)) (seq 0 n).

(** Lines 248-278: the overload with a range; [i] and [j] run from
    [begin] to [end] inclusive. *)
Definition isSymmetric_range (n : nat) (A : list double) (begin_ end_ : nat)
  : bool :=
  let nSkip := dPAD n in
  forallb (fun i => forallb (symmetric_pair nSkip A i)
                            (seq begin_ (end_ + 1 - begin_)))
          (seq begin_ (end_ + 1 - begin_)).

End IsSymmetric.

(** ** The matrix-form solver: PgsBoxedLcpSolver::solve(const Eigen::MatrixXd&, ...)

    An [Eigen::MatrixXd] is the list of its rows, an [Eigen::VectorXd] a
    list.  The Eigen expressions are rendered by their meaning: a product
    with a triangular view is the sum over the entries of the view, and
    [triangularView<Lower>().solve(z)] is forward substitution. *)

Module PgsMatrix.

Definition Matrix := list (list double).

Definition coeff (A : Matrix) (i j : nat) : double := (A !!! i) !!! j.

Definition sum_over (l : list nat) (f : nat → double) : double :=
  fold_left (fun acc j => acc + f j) l 0.

(** [A.triangularView<Eigen::StrictlyUpper>() * x], entry [i]. *)
Definition strictlyUpper_times (A : Matrix) (x : list double) (n i : nat)
  : double :=
  sum_over (seq (i + 1) (n - (i + 1))) (fun j => coeff A i j * x !!! j).

(** [A.triangularView<Eigen::Lower>().solve(z)] when [unit] is [false],
    [A.triangularView<Eigen::UnitLower>().solve(z)] when it is [true]:
    forward substitution, rows in increasing order. *)
Definition lower_solve (unit : bool) (A : Matrix) (z : list double) (n : nat)
  : list double :=
  fold_left
    (fun xs i =>
       let r := z !!! i - sum_over (seq 0 i) (fun j => coeff A i j * xs !!! j) in
       xs ++ [if unit then r else r / coeff A i i])
    (seq 0 n) [].

(** Lines 473-479.  Returns the new [x]; [mCacheZ] is the local [z]. *)
Definition sweepForward (A : Matrix) (x b : list double) : list double :=
  let n := length b in
  let mCacheZ := map (fun i => - b !!! i) (seq 0 n) in
  let mCacheZ :=
    map (fun i => mCacheZ !!! i - strictlyUpper_times A x n i) (seq 0 n) in
  lower_solve false A mCacheZ n.

(** Lines 482-488. *)
Definition sweepForwardNormalized (A : Matrix) (x b : list double)
  : list double :=
  let n := length b in
  let mCacheZ := map (fun i => - b !!! i) (seq 0 n) in
  let mCacheZ :=
    map (fun i => mCacheZ !!! i - strictlyUpper_times A x n i) (seq 0 n) in
  lower_solve true A mCacheZ n.

(** [A.triangularView<Eigen::StrictlyLower>() * x], entry [i]. *)
Definition strictlyLower_times (A : Matrix) (x : list double) (i : nat)
  : double :=
  sum_over (seq 0 i) (fun j => coeff A i j * x !!! j).

(** [A.triangularView<Eigen::Upper>().solve(z)] when [unit] is [false],
    [A.triangularView<Eigen::UnitUpper>().solve(z)] when it is [true]:
    backward substitution, rows in decreasing order. *)
Definition upper_solve (unit : bool) (A : Matrix) (z : list double) (n : nat)
  : list double :=
  fold_left
    (fun xs i =>
       let r :=
         z !!! i
         - sum_over (seq (i + 1) (n - (i + 1))) (fun j => coeff A i j * xs !!! j) in
       <[i := if unit then r else r / coeff A i i]> xs)
    (rev (seq 0 n)) (replicate n 0).

(** Lines 491-497. *)
Definition sweepBackward (A : Matrix) (x b : list double) : list double :=
  let n := length b in
  let mCacheZ := map (fun i => - b !!! i) (seq 0 n) in
  let mCacheZ :=
    map (fun i => mCacheZ !!! i - strictlyLower_times A x i) (seq 0 n) in
  upper_solve false A mCacheZ n.

(** Lines 500-506. *)
Definition sweepBackwardNormalized (A : Matrix) (x b : list double)
  : list double :=
  let n := length b in
  let mCacheZ := map (fun i => - b !!! i) (seq 0 n) in
  let mCacheZ :=
    map (fun i => mCacheZ !!! i - strictlyLower_times A x i) (seq 0 n) in
  upper_solve true A mCacheZ n.

(** [x.cwiseMax(lo).cwiseMin(hi)]. *)
Definition cwiseMax (x lo : list double) : list double :=
  imap (fun i xi => if decide (xi < lo !!! i) then lo !!! i else xi) x.
Definition cwiseMin (x hi : list double) : list double :=
  imap (fun i xi => if decide (hi !!! i < xi) then hi !!! i else xi) x.

(** [((x - old).cwiseAbs().array() <= threshold).any()]. *)
Definition any_within (x old : list double) (threshold : double) : bool :=
  existsb (fun i => bool_decide (Qcabs (x !!! i - old !!! i) ≤ threshold))
          (seq 0 (length x)).

Section Solve.
(** [A.ldlt().solve(b)] of Eigen. *)
Variable ldlt_solve : Matrix → list double → list double.
Variable mOption : Option_.

(** Lines 270-285 and 289-304: the loop
    [for (i = 0; i < mMaxIteration; ++i)] with its early return;
    [fuel] counts the iterations left. *)
Fixpoint sweeps (step : list double → list double) (lo hi : list double)
  (fuel : nat) (x : list double) : list double :=
  match fuel with
  | O => x
  | S fuel =>
      let mCacheOldX := x in
      let x := step x in
      let x := cwiseMin (cwiseMax x lo) hi in
      if any_within x mCacheOldX (mDeltaXThreshold mOption) then x
      else sweeps step lo hi fuel x
  end.

(** Lines 237-306 (and, with the same body, 309-377). *)
Definition solve (A : Matrix) (x b : list double) (nub : Z)
  (lo hi : list double) : list double :=
  let n := length b in
  if decide (Z.of_nat n ≤ nub)%Z then ldlt_solve A b
  else if decide (Z.of_nat n < mMaxIteration mOption)%Z then
    let mCachedNormalizedA :=
      imap (fun i row => map (fun a => a / coeff A i i) row) A in
    let mCachedNormalizedB := imap (fun i bi => bi / coeff A i i) b in
    sweeps (fun x => sweepForwardNormalized mCachedNormalizedA x
                                             mCachedNormalizedB)
           lo hi (Z.to_nat (mMaxIteration mOption)) x
  else
    sweeps (fun x => sweepForward A x b)
           lo hi (Z.to_nat (mMaxIteration mOption)) x.
End Solve.

End PgsMatrix.

(** ** Constraint-group assembly:
       SequentialImpulseConstraintSolver::solveConstrainedGroup *)

Module Sics.

(** The buffers allocated by one call. *)
Record Lcp := mkLcp {
  lcpA : list double;
  lcpx : list double;
  lcpb : list double;
  lcpw : list double;
  lcplo : list double;
  lcphi : list double;
  lcpfindex : list Z
}.

(** [ConstraintInfo]: the slices of the buffers handed to one constraint
    (each pointer is the buffer advanced by the constraint's offset) and
    the inverse time step. *)
Record ConstraintInfo := mkInfo {
  ci_x : list double;
  ci_lo : list double;
  ci_hi : list double;
  ci_b : list double;
  ci_findex : list Z;
  ci_w : list double;
  invTimeStep : double
}.

(** Calls made on the collaborators, in program order.  A constraint is
    named by its index in the group. *)
Inductive Event :=
| EvGetInformation (c : nat)
| EvExcite (c : nat)
| EvUnexcite (c : nat)
| EvApplyUnitImpulse (c j : nat)
| EvGetVelocityChange (c : nat) (withBias : bool)
| EvSolve (x : list double)
| EvApplyImpulse (c : nat).

#[global] Instance Event_eq_dec : EqDecision Event.
Proof. solve_decision. Defined.

(** The interface [ConstraintBase], over the state [World] of the
    articulated bodies the constraints act on.  A callback that fills a
    buffer returns the values it writes; the caller stores the first
    [getDimension] of them at the constraint's position. *)
Record ConstraintBase {World : Type} := mkConstraint {
  getDimension : nat;
  getInformation : World → ConstraintInfo → ConstraintInfo;
  excite : World → World;
  unexcite : World → World;
  applyUnitImpulse : World → nat → World;
  getVelocityChange : World → bool → list double;
  applyImpulse : World → list double → World
}.
Arguments ConstraintBase : clear implicits.

#[global] Instance ConstraintBase_inhabited World :
  Inhabited (ConstraintBase World) :=
  populate (mkConstraint World 0 (fun _ i => i) id id (fun w _ => w)
                         (fun _ _ => []) (fun w _ => w)).

(** Running state of the call: buffers, bodies, and the calls made. *)
Record State {World : Type} := mkState {
  lcp : Lcp;
  world : World;
  trace : list Event
}.
Arguments State : clear implicits.
Arguments mkState {World}.

(** *** The boxed LCP solver held by the constraint solver

    A [std::shared_ptr<BoxedLcpSolver>] is [None] when null. *)

Section Holder.
Variable BoxedLcpSolver : Type.
(** [std::make_shared<DantzigBoxedLcpSolver>()]. *)
Variable DantzigBoxedLcpSolver : BoxedLcpSolver.

Record Solver := mkSolver {
  mTimeStep : double;
  mBoxedLcpSolver : option BoxedLcpSolver;
  (** Number of warnings sent to [dtwarn]. *)
  warnings : nat
}.

(** Lines 53-59: the constructor. *)
Definition construct (timeStep : double)
  (boxedLcpSolver : option BoxedLcpSolver) : Solver :=
  let self := mkSolver timeStep boxedLcpSolver 0 in
  match mBoxedLcpSolver self with
  | None => mkSolver timeStep (Some DantzigBoxedLcpSolver) 0
  | Some _ => self
  end.

(** Lines 62-73. *)
Definition setBoxedLcpSolver (lcpSolver : option BoxedLcpSolver)
  (self : Solver) : Solver :=
  match lcpSolver with
  | None => mkSolver (mTimeStep self) (mBoxedLcpSolver self) (S (warnings self))
  | Some _ => mkSolver (mTimeStep self) lcpSolver (warnings self)
  end.

(** Lines 76-80. *)
Definition getBoxedLcpSolver (self : Solver) : option BoxedLcpSolver :=
  mBoxedLcpSolver self.

End Holder.

Section Assembly.
Variable dPAD : nat → nat.
Variable World : Type.
(** [mBoxedLcpSolver->solve(n, A, x, b, nub, lo, hi, findex)]. *)
Variable boxedSolve : nat → Z → Lcp → Lcp.
Variable mTimeStep : double.
(** Whether assertions are compiled out. *)
Variable NDEBUG : bool.

(** Modelled from the spec: the class [ConstrainedGroup] is not part of
    the sources at hand.  A group is the sequence of its constraints;
    [getTotalDimension] is the sum of their dimensions. *)
Definition ConstrainedGroup := list (ConstraintBase World).

Implicit Type group : ConstrainedGroup.
Implicit Type s : State World.

Definition getNumConstraints group : nat := length group.
Definition getConstraint group (i : nat) : ConstraintBase World :=
  group !!! i.
Definition getTotalDimension group : nat :=
  sum_list (map getDimension group).

Definition log (e : Event) s : State World :=
  mkState (lcp s) (world s) (trace s ++ [e]).
Definition set_world (w : World) s : State World :=
  mkState (lcp s) w (trace s).
Definition set_lcp (l : Lcp) s : State World :=
  mkState l (world s) (trace s).
Definition set_lcpA (v : list double) (l : Lcp) : Lcp :=
  mkLcp v (lcpx l) (lcpb l) (lcpw l) (lcplo l) (lcphi l) (lcpfindex l).
Definition set_lcpfindex (v : list Z) (l : Lcp) : Lcp :=
  mkLcp (lcpA l) (lcpx l) (lcpb l) (lcpw l) (lcplo l) (lcphi l) v.

(** Lines 111-120: the offsets.  [new std::size_t[n]] is not
    initialised; the entries the loop does not write are never read. *)
Definition compute_offset group (n : nat) : list nat :=
  fold_left
    (fun offset i =>
       <[i := (offset !!! (i - 1) + getDimension (getConstraint group (i - 1)))%nat]>
         offset)
    (seq 1 (getNumConstraints group - 1))
    (<[0%nat := 0%nat]> (replicate n 0%nat)).

(** Lines 123-124 and 129-134: [constInfo] pointed at the slices that
    start at [off]. *)
Definition constInfo_at (off : nat) (l : Lcp) : ConstraintInfo :=
  mkInfo (drop off (lcpx l)) (drop off (lcplo l)) (drop off (lcphi l))
         (drop off (lcpb l)) (drop off (lcpfindex l)) (drop off (lcpw l))
         (1 / mTimeStep).

(** Line 137: let the constraint fill its slices. *)
Definition call_getInformation (c : ConstraintBase World) (i off : nat) s
  : State World :=
  let l := lcp s in
  let constInfo := constInfo_at off l in
  let r := getInformation c (world s) constInfo in
  let dim := getDimension c in
  let l :=
    mkLcp (lcpA l)
          (list_inserts off (take dim (ci_x r)) (lcpx l))
          (list_inserts off (take dim (ci_b r)) (lcpb l))
          (list_inserts off (take dim (ci_w r)) (lcpw l))
          (list_inserts off (take dim (ci_lo r)) (lcplo l))
          (list_inserts off (take dim (ci_hi r)) (lcphi l))
          (list_inserts off (take dim (ci_findex r)) (lcpfindex l)) in
  log (EvGetInformation i) (set_lcp l s).

(** Lines 152 and 156: [getConstraint(k)->getVelocityChange(A + index,
    withBias)]. *)
Definition call_getVelocityChange group (k index : nat) (withBias : bool) s
  : State World :=
  let c := getConstraint group k in
  let v := take (getDimension c) (getVelocityChange c (world s) withBias) in
  log (EvGetVelocityChange k withBias)
      (set_lcp (set_lcpA (list_inserts index v (lcpA (lcp s))) (lcp s)) s).

(** Lines 160-169: copy the blocks of the earlier constraints from the
    upper triangle. *)
Definition mirror group (nSkip : nat) (offset : list nat) (i j : nat) s
  : State World :=
  fold_left
    (fun s k =>
       fold_left
         (fun s l =>
            let index1 := (nSkip * (offset !!! i + j) + offset !!! k + l)%nat in
            let index2 := (nSkip * (offset !!! k + l) + offset !!! i + j)%nat in
            let A := lcpA (lcp s) in
            set_lcp (set_lcpA (<[index1 := A !!! index2]> A) (lcp s)) s)
         (seq 0 (getDimension (getConstraint group k))) s)
    (seq 0 i) s.

(** Lines 141-170: one unit-impulse probe. *)
Definition probe group (nSkip : nat) (offset : list nat) (i : nat) s (j : nat)
  : State World :=
  let c := getConstraint group i in
  let numConstraints := getNumConstraints group in
  let findex := lcpfindex (lcp s) in
  let s :=
    if decide (0 ≤ findex !!! (offset !!! i + j)%nat)%Z then
      set_lcp
        (set_lcpfindex
           (<[(offset !!! i + j)%nat :=
                (findex !!! (offset !!! i + j)%nat + Z.of_nat (offset !!! i))%Z]>
              findex)
           (lcp s)) s
    else s in
  let s :=
    log (EvApplyUnitImpulse i j) (set_world (applyUnitImpulse c (world s) j) s) in
  let index := (nSkip * (offset !!! i + j) + offset !!! i)%nat in
  let s := call_getVelocityChange group i index true s in
  let s :=
    fold_left
      (fun s k =>
         let index := (nSkip * (offset !!! i + j) + offset !!! k)%nat in
         call_getVelocityChange group k index false s)
      (seq (i + 1) (numConstraints - (i + 1))) s in
  mirror group nSkip offset i j s.

(** Lines 125-177: the body of the loop over the constraints. *)
Definition assemble_constraint group (nSkip : nat) (offset : list nat) s
  (i : nat) : State World :=
  let constraint := getConstraint group i in
  let s := call_getInformation constraint i (offset !!! i) s in
  let s := log (EvExcite i) (set_world (excite constraint (world s)) s) in
  let s :=
    fold_left (probe group nSkip offset i)
              (seq 0 (getDimension constraint)) s in
  log (EvUnexcite i) (set_world (unexcite constraint (world s)) s).

(** Lines 94-179: allocation, initialisation and assembly, up to the
    call of the boxed solver.  [heap] holds the contents of the freshly
    allocated buffers. *)
Definition assemble group (heap : Lcp) (w0 : World) : State World :=
  let numConstraints := getNumConstraints group in
  let n := getTotalDimension group in
  let nSkip := dPAD n in
  let A := if NDEBUG then lcpA heap else replicate (n * nSkip) 0 in
  let l :=
    mkLcp A (lcpx heap) (lcpb heap) (replicate n 0) (lcplo heap)
          (lcphi heap) (replicate n (-1)%Z) in
  let offset := compute_offset group n in
  fold_left (assemble_constraint group nSkip offset)
            (seq 0 numConstraints) (mkState l w0 []).

(** Lines 196-201. *)
Definition apply_constraint group (offset : list nat) s (i : nat)
  : State World :=
  let constraint := getConstraint group i in
  let s :=
    log (EvApplyImpulse i)
        (set_world
           (applyImpulse constraint (world s)
                         (drop (offset !!! i) (lcpx (lcp s)))) s) in
  log (EvExcite i) (set_world (excite constraint (world s)) s).

(** Lines 83-212.  The result is the state of the bodies and the calls
    made; the buffers are released on return. *)
Definition solveConstrainedGroup group (heap : Lcp) (w0 : World)
  : World * list Event :=
  let numConstraints := getNumConstraints group in
  let n := getTotalDimension group in
  if decide (0 = n)%nat then (w0, [])
  else
    let s := assemble group heap w0 in
    let s :=
      log (EvSolve (lcpx (lcp s)))
          (set_lcp (boxedSolve n 0%Z (lcp s)) s) in
    let offset := compute_offset group n in
    let s := fold_left (apply_constraint group offset)
                       (seq 0 numConstraints) s in
    (world s, trace s).

(** Lines 144-145: a friction index that is set is moved from the
    constraint's own numbering to that of the whole group. *)
Definition globalise (off : nat) (v : Z) : Z :=
  if decide (0 ≤ v)%Z then (v + Z.of_nat off)%Z else v.

(** [A'] has the length of [A] and the entries of [A] in the first [n]
    columns of every row selected by [keep]; [nSkip] is the stride. *)
Definition rows_kept (nSkip n : nat) (keep : nat → Prop)
  (A A' : list double) : Prop :=
  length A' = length A
  ∧ ∀ r c, keep r → (c < n)%nat →
           A' !!! (nSkip * r + c)%nat = A !!! (nSkip * r + c)%nat.

(** *** The calls made, as a function of the group alone *)

Definition probe_trace group (i j : nat) : list Event :=
  [EvApplyUnitImpulse i j; EvGetVelocityChange i true]
  ++ map (fun k => EvGetVelocityChange k false)
         (seq (i + 1) (getNumConstraints group - (i + 1))).

Definition constraint_trace group (i : nat) : list Event :=
  [EvGetInformation i; EvExcite i]
  ++ flat_map (probe_trace group i)
              (seq 0 (getDimension (getConstraint group i)))
  ++ [EvUnexcite i].

Definition apply_trace (i : nat) : list Event :=
  [EvApplyImpulse i; EvExcite i].

(** The calls that excite, unexcite or apply an impulse to constraint
    [c]. *)
Definition own (c : nat) (e : Event) : bool :=
  match e with
  | EvExcite c' | EvUnexcite c' | EvApplyImpulse c'
  | EvApplyUnitImpulse c' _ => bool_decide (c' = c)
  | _ => false
  end.

Definition excitation (c : nat) (e : Event) : bool :=
  match e with
  | EvExcite c' | EvUnexcite c' => bool_decide (c' = c)
  | _ => false
  end.

(** Modelled from the spec: the bodies of [excite] and [unexcite] belong
    to the constraint classes, which are not part of the sources at
    hand; the specification says they mark the constraint active and
    inactive.  [excited c tr b0] is the mark of constraint [c] after the
    calls [tr], starting from [b0]. *)
Definition excited (c : nat) (tr : list Event) (b0 : bool) : bool :=
  fold_left
    (fun b e =>
       match e with
       | EvExcite c' => if decide (c' = c) then true else b
       | EvUnexcite c' => if decide (c' = c) then false else b
       | _ => b
       end) tr b0.

(** *** The calls made, applied to the bodies

    [replay] applies to the bodies the calls of a list that act on them,
    each through the method of the constraint it names: excite,
    unexcite, applyUnitImpulse(j), and applyImpulse on the slice of the
    solved [x] at the constraint's offset.  getInformation,
    getVelocityChange and the boxed solver do not act on the bodies. *)

Definition replay_event group (offset : list nat) (x : list double)
  (w : World) (e : Event) : World :=
  match e with
  | EvExcite c => excite (getConstraint group c) w
  | EvUnexcite c => unexcite (getConstraint group c) w
  | EvApplyUnitImpulse c j => applyUnitImpulse (getConstraint group c) w j
  | EvApplyImpulse c =>
      applyImpulse (getConstraint group c) w (drop (offset !!! c) x)
  | EvGetInformation _ | EvGetVelocityChange _ _ | EvSolve _ => w
  end.

Definition replay group (offset : list nat) (x : list double)
  (tr : list Event) (w : World) : World :=
  fold_left (replay_event group offset x) tr w.

(** Modelled from the spec: the bodies of [excite] and [unexcite] belong
    to the constraint classes, which are not part of the sources at
    hand; the specification says they mark the constraint active and
    inactive.  [mark] reads the mark of constraint [c] off the bodies:
    excite on [c] sets it, unexcite on [c] clears it, and no other
    method of any constraint changes it. *)
Definition excitation_mark group (c : nat) (mark : World → bool) : Prop :=
  (∀ w, mark (excite (getConstraint group c) w) = true)
  ∧ (∀ w, mark (unexcite (getConstraint group c) w) = false)
  ∧ (∀ c' w, c' ≠ c →
             mark (excite (getConstraint group c') w) = mark w
             ∧ mark (unexcite (getConstraint group c') w) = mark w)
  ∧ (∀ c' w j, mark (applyUnitImpulse (getConstraint group c') w j) = mark w)
  ∧ (∀ c' w v, mark (applyImpulse (getConstraint group c') w v) = mark w).

End Assembly.
End Sics.

(** A one-dimensional constraint over a trivial world whose
    [getInformation] writes [x0] as its initial guess and unit bounds. *)
Definition guess_constraint (x0 : double) : Sics.ConstraintBase unit :=
  Sics.mkConstraint unit 1
    (fun _ info =>
       Sics.mkInfo [x0] [0] [1] [1] [(-1)%Z] [0] (Sics.invTimeStep info))
    id id (fun w _ => w) (fun _ _ => [1]) (fun w _ => w).

(** Bodies that carry one excitation mark per constraint, and a
    one-dimensional constraint, the [i]-th of its group, whose [excite]
    and [unexcite] set and clear its own mark. *)
Definition Marks : Type := nat → bool.

Definition marked_constraint (i : nat) : Sics.ConstraintBase Marks :=
  Sics.mkConstraint Marks 1
    (fun _ info =>
       Sics.mkInfo [0] [0] [1] [1] [(-1)%Z] [0] (Sics.invTimeStep info))
    (fun w k => if decide (k = i) then true else w k)
    (fun w k => if decide (k = i) then false else w k)
    (fun w _ => w) (fun _ _ => [1]) (fun w _ => w).

Definition marked_group : Sics.ConstrainedGroup Marks :=
  [marked_constraint 0; marked_constraint 1].

Definition unmarked : Marks := fun _ => false.

(** Freshly allocated buffers that happen to hold zeros. *)
Definition fresh_heap (n : nat) : Sics.Lcp :=
  Sics.mkLcp (replicate (n * dPAD4 n) 0) (replicate n 0) (replicate n 0)
             (replicate n 0) (replicate n 0) (replicate n 0)
             (replicate n 0%Z).

(** A boxed solver that leaves the buffers as they are. *)
Definition idle_solver (n : nat) (nub : Z) (l : Sics.Lcp) : Sics.Lcp := l.

(** The assembly and the whole call on a group over the trivial world,
    with a time step of 1/1000, assertions enabled. *)
Definition sics_assemble (group : Sics.ConstrainedGroup unit) : Sics.State unit :=
  Sics.assemble dPAD4 unit (dbl 1 1000) false group
                (fresh_heap (Sics.getTotalDimension unit group)) tt.

Definition sics_solve (group : Sics.ConstrainedGroup unit) : unit * list Sics.Event :=
  Sics.solveConstrainedGroup dPAD4 unit idle_solver (dbl 1 1000) false group
    (fresh_heap (Sics.getTotalDimension unit group)) tt.

(** The whole call on the group with marks, from bodies without a mark. *)
Definition marked_solve : Marks * list Sics.Event :=
  Sics.solveConstrainedGroup dPAD4 Marks idle_solver (dbl 1 1000) false
    marked_group (fresh_heap 2) unmarked.

(** A three-dimensional constraint over the trivial world laid out like
    a contact: a normal row followed by two friction rows whose friction
    index is the normal row, row 0 of the constraint. *)
Definition contact_constraint : Sics.ConstraintBase unit :=
  Sics.mkConstraint unit 3
    (fun _ info =>
       Sics.mkInfo [0; 0; 0] [0; -1; -1] [wide; 1; 1] [1; 0; 0]
                   [-1; 0; 0]%Z [0; 0; 0] (Sics.invTimeStep info))
    id id (fun w _ => w) (fun _ _ => [1; 1; 1]) (fun w _ => w).

(** A group of two constraints, of dimensions 1 and 3. *)
Definition mixed_group : Sics.ConstrainedGroup unit :=
  [guess_constraint 0; contact_constraint].

(** The matrix of scenario S3, by rows, and the memory of S3 with both
    rows in the sweep order. *)
Definition S3_matrix : PgsMatrix.Matrix := [[dbl 4 1; 1]; [1; dbl 3 1]].

Definition S3_ordered : Mem Z := set_CacheOrder [0; 1]%nat S3.

(** A stand-in for [A.ldlt().solve(b)], used to run the matrix form. *)
Definition ldlt_idle (A : PgsMatrix.Matrix) (b : list double) : list double := b.

(** * Properties *)

(** ** Loops as folds *)

Lemma fold_left_inv {S B : Type} (P : S → Prop) (f : S → B → S)
  (l : list B) (s : S) :
  P s → (∀ s b, b ∈ l → P s → P (f s b)) → P (fold_left f l s).
Proof.
  revert s. induction l as [|b l IH]; intros s Hs Hf; simpl; [done|].
  apply IH.
  - apply Hf; [left | done].
  - intros s' b' Hb'. apply Hf. by right.
Qed.

Lemma fold_left_seq_S {S : Type} (f : S → nat → S) (k : nat) (s : S) :
  fold_left f (seq 0 (Datatypes.S k)) s = f (fold_left f (seq 0 k) s) k.
Proof. by rewrite seq_S, fold_left_app. Qed.

Lemma filter_seq_S (P : nat → Prop) `{!∀ i, Decision (P i)} (k : nat) :
  filter P (seq 0 (S k))
  = filter P (seq 0 k) ++ (if decide (P k) then [k] else []).
Proof.
  rewrite seq_S, filter_app. f_equal.
Qed.

Lemma elem_of_insert_inv {A : Type} (l : list A) (i : nat) (x y : A) :
  y ∈ <[i := x]> l → y = x ∨ y ∈ l.
Proof.
  intros [j Hj]%list_elem_of_lookup.
  apply list_lookup_insert_Some in Hj as [(_ & -> & _)|[_ Hj]]; [by left|].
  right. by eapply list_elem_of_lookup_2.
Qed.

Lemma seq_split (i n : nat) :
  (i < n)%nat → seq 0 n = seq 0 i ++ i :: seq (S i) (n - S i).
Proof.
  intros Hi. replace n with (i + S (n - S i))%nat at 1 by lia.
  by rewrite seq_app.
Qed.

Lemma lookup_total_insert_zero (x : list double) (i : nat) :
  <[i := 0]> x !!! i = 0.
Proof.
  destruct (decide (i < length x)%nat).
  - by apply list_lookup_total_insert_eq.
  - rewrite list_lookup_total_alt, lookup_ge_None_2; [done|].
    rewrite length_insert. lia.
Qed.

Lemma memcpy_lookup (dst src : list double) (n i : nat) :
  (i < n)%nat → (n ≤ length dst)%nat → memcpy dst src n !!! i = src !!! i.
Proof.
  unfold memcpy. intros Hi Hlen.
  cut (∀ t, (t ≤ n)%nat →
         let d := fold_left (fun d i => <[i := src !!! i]> d) (seq 0 t) dst in
         length d = length dst ∧ ∀ j, (j < t)%nat → d !!! j = src !!! j).
  { intros H. by apply (H n). }
  induction t as [|t IH]; intros Ht; cbv zeta.
  - split; [done|]. intros j Hj. lia.
  - rewrite fold_left_seq_S. destruct (IH ltac:(lia)) as [Hl Hj].
    split; [by rewrite length_insert|].
    intros j Hjt. destruct (decide (j = t)) as [->|Hne].
    + rewrite list_lookup_total_insert_eq; [done | lia].
    + rewrite list_lookup_total_insert_ne by done. apply Hj. lia.
Qed.

Lemma row_times_ext n nskip A x y i :
  (∀ j, (j < n)%nat → x !!! j = y !!! j) →
  row_times n nskip A x i = row_times n nskip A y i.
Proof.
  unfold row_times. intros H. generalize 0.
  induction n as [|n IH]; intros acc; [done|].
  rewrite !fold_left_seq_S, IH by (intros; apply H; lia).
  by rewrite H by lia.
Qed.

(** ** The pointer-based solver *)

Section PgsFacts.
Variable dPAD : nat → nat.
Variable dFactorLDLT :
  list double → list double → nat → nat → list double * list double.
Variable dSolveLDLT :
  list double → list double → list double → nat → nat → list double.
Variable Rng : Type.
Variable dRandInt : Rng → nat → nat * Rng.
Variable mOption : Option_.

(** [dRandInt(k)] draws from [0, k-1]. *)
Hypothesis dRandInt_range : ∀ r k, (0 < k)%nat → ((dRandInt r k).1 < k)%nat.

Implicit Type m : Mem Rng.

Local Abbreviation solve := (Pgs.solve dPAD dFactorLDLT dSolveLDLT Rng dRandInt mOption).
Local Abbreviation first_sweep := (Pgs.first_sweep Rng mOption).
Local Abbreviation first_body := (Pgs.first_body Rng mOption).
Local Abbreviation sweep := (Pgs.sweep Rng mOption).
Local Abbreviation sweep_body := (Pgs.sweep_body Rng mOption).
Local Abbreviation iterate := (Pgs.iterate Rng dRandInt mOption).
Local Abbreviation shuffle := (Pgs.shuffle Rng dRandInt).
Local Abbreviation shuffle_body := (Pgs.shuffle_body Rng dRandInt).
Local Abbreviation normalize := (Pgs.normalize Rng).
Local Abbreviation normalize_row := (Pgs.normalize_row Rng).
Local Abbreviation project := (Pgs.project Rng).
Local Abbreviation same_bounds := (Pgs.same_bounds Rng).
Local Abbreviation projected := (Pgs.projected Rng).
Local Abbreviation degenerate := (Pgs.degenerate mOption).
Local Abbreviation first_new_x := (Pgs.first_new_x Rng).
Local Abbreviation first_loop := (Pgs.first_loop Rng mOption).
Local Abbreviation row_update := (Pgs.row_update Rng).
Local Abbreviation in_box := (Pgs.in_box Rng mOption).
Local Abbreviation in_cone := Pgs.in_cone.

(** *** Frame: the bounds and the friction indices are only read *)

Lemma same_bounds_refl m : same_bounds m m.
Proof. done. Qed.

Lemma same_bounds_trans m1 m2 m3 :
  same_bounds m1 m2 → same_bounds m2 m3 → same_bounds m1 m3.
Proof. unfold Pgs.same_bounds. intros (-> & -> & ->) (-> & -> & ->). done. Qed.

Lemma project_same_bounds i new_x m : same_bounds m (project i new_x m).
Proof. unfold Pgs.project. repeat case_decide; done. Qed.

Lemma first_body_same_bounds n nskip m0 s i :
  same_bounds m0 s.1 → same_bounds m0 (first_body n nskip s i).1.
Proof.
  destruct s as [m p]. unfold Pgs.first_body. simpl. intros H.
  case_decide; [done|].
  eapply same_bounds_trans;
    [|destruct p; [case_decide|]; apply project_same_bounds].
  done.
Qed.

Lemma first_sweep_same_bounds n nskip m :
  same_bounds m (first_sweep n nskip m).1.
Proof.
  unfold Pgs.first_sweep.
  apply (fold_left_inv (fun s => same_bounds m s.1)); [done|].
  intros s i _. apply first_body_same_bounds.
Qed.

Lemma normalize_row_same_bounds n nskip m index :
  same_bounds m (normalize_row n nskip m index).
Proof.
  unfold Pgs.normalize_row.
  apply (fold_left_inv (fun m' => same_bounds m m')); [done|].
  intros m' j _ H. done.
Qed.

Lemma normalize_same_bounds n nskip m : same_bounds m (normalize n nskip m).
Proof.
  unfold Pgs.normalize. generalize (mCacheOrder m). intros l.
  apply (fold_left_inv (fun m' => same_bounds m m')); [done|].
  intros m' j _ H. eapply same_bounds_trans; [done|].
  apply normalize_row_same_bounds.
Qed.

Lemma shuffle_same_bounds m : same_bounds m (shuffle m).
Proof.
  unfold Pgs.shuffle. generalize (seq 1 (length (mCacheOrder m) - 1)).
  intros l. apply (fold_left_inv (fun m' => same_bounds m m')); [done|].
  intros m' j _ H. unfold Pgs.shuffle_body.
  by destruct (dRandInt (rng m') (j + 1)).
Qed.

Lemma sweep_body_same_bounds n nskip m0 s index :
  same_bounds m0 s.1 → same_bounds m0 (sweep_body n nskip s index).1.
Proof.
  destruct s as [m p]. unfold Pgs.sweep_body. simpl. intros H.
  eapply same_bounds_trans; [done|].
  match goal with |- context [if ?c then _ else _] => destruct c end;
    [case_decide|]; apply project_same_bounds.
Qed.

Lemma sweep_same_bounds n nskip m : same_bounds m (sweep n nskip m).1.
Proof.
  unfold Pgs.sweep. generalize (mCacheOrder m). intros l.
  apply (fold_left_inv (fun s => same_bounds m s.1)); [done|].
  intros s i _. apply sweep_body_same_bounds.
Qed.

Lemma iterate_same_bounds n nskip fuel iter m :
  same_bounds m (iterate n nskip fuel iter m).
Proof.
  revert iter m. induction fuel as [|fuel IH]; intros iter m; simpl; [done|].
  set (m1 := if mRandomizeConstraintOrder mOption then _ else _).
  assert (same_bounds m m1) as H1.
  { subst m1. destruct (mRandomizeConstraintOrder mOption); [|done].
    case_decide; [apply shuffle_same_bounds | done]. }
  pose proof (sweep_same_bounds n nskip m1) as H2.
  destruct (sweep n nskip m1) as [m2 p]. simpl in H2.
  destruct p.
  - by eapply same_bounds_trans.
  - eapply same_bounds_trans; [|apply IH].
    by eapply same_bounds_trans.
Qed.

Lemma solve_same_bounds n nub m : same_bounds m (solve n nub m).
Proof.
  unfold Pgs.solve. case_decide.
  - simpl. by destruct (dFactorLDLT _ _ _ _).
  - pose proof (first_sweep_same_bounds n (dPAD n) m) as H1.
    destruct (first_sweep n (dPAD n) m) as [m1 p]. simpl in H1.
    destruct p; [done|].
    eapply same_bounds_trans; [done|].
    eapply same_bounds_trans; [apply normalize_same_bounds|].
    apply iterate_same_bounds.
Qed.

(** C10.  Frame: for every call of the pointer-based PGS solve, the
    buffers lo, hi and findex hold on return exactly what they held on
    entry; the solver writes only A, b, x, its caches and the random
    source. *)
Theorem C10_solve_preserves_lo_hi_findex n nub m :
  buflo (solve n nub m) = buflo m
  ∧ bufhi (solve n nub m) = bufhi m
  ∧ buffindex (solve n nub m) = buffindex m.
Proof. apply solve_same_bounds. Qed.

(** *** One row update *)

Lemma project_eq i new_x m :
  project i new_x m = set_x (<[i := projected i new_x m]> (bufx m)) m.
Proof. unfold Pgs.project, Pgs.projected. repeat case_decide; done. Qed.

Lemma projected_box i new_x m :
  (buffindex m !!! i < 0)%Z → buflo m !!! i ≤ bufhi m !!! i →
  buflo m !!! i ≤ projected i new_x m ≤ bufhi m !!! i.
Proof.
  intros Hf Hle. unfold Pgs.projected.
  case_decide; [lia|]. repeat case_decide.
  - split; [done | reflexivity].
  - split; [reflexivity | done].
  - split; by apply Qcnot_lt_le.
Qed.

Lemma projected_cone i new_x m :
  (0 ≤ buffindex m !!! i)%Z →
  Qcabs (projected i new_x m)
  ≤ Qcabs (bufhi m !!! i * bufx m !!! Z.to_nat (buffindex m !!! i)).
Proof.
  intros Hf. unfold Pgs.projected. case_decide; [|lia].
  simpl. repeat case_decide.
  - reflexivity.
  - rewrite Qcabs_opp. reflexivity.
  - etrans; [|apply Qcle_Qcabs].
    apply Qcabs_Qcle_condition. split; by apply Qcnot_lt_le.
Qed.


Lemma first_body_degenerate n nskip m p i :
  degenerate nskip (bufA m) i →
  first_body n nskip (m, p) i = (set_x (<[i := 0]> (bufx m)) m, p).
Proof. intros H. unfold Pgs.first_body. by rewrite decide_True. Qed.

Lemma first_body_regular n nskip m p i :
  ¬ degenerate nskip (bufA m) i →
  let v := projected i (first_new_x n nskip i m) m in
  first_body n nskip (m, p) i
  = (set_x (<[i := v]> (bufx m)) (set_CacheOrder (mCacheOrder m ++ [i]) m),
     p && bool_decide (Qcabs (<[i := v]> (bufx m) !!! i - bufx m !!! i)
                       ≤ mDeltaXThreshold mOption)).
Proof.
  intros H v. unfold Pgs.first_body. rewrite decide_False by done.
  rewrite project_eq. simpl.
  change (projected i _ _) with v.
  destruct p; simpl; [|done].
  case_decide as Hd.
  - rewrite bool_decide_eq_false_2; [done|]. by apply Qclt_not_le.
  - rewrite bool_decide_eq_true_2; [done|]. by apply Qcnot_lt_le.
Qed.

Lemma first_loop_S n nskip k m :
  first_loop n nskip (S k) m = first_body n nskip (first_loop n nskip k m) k.
Proof. apply fold_left_seq_S. Qed.

Lemma first_sweep_loop n nskip m : first_sweep n nskip m = first_loop n nskip n m.
Proof. done. Qed.

(** What the first loop leaves untouched, the order it builds, and the
    rows it has not reached or has found degenerate. *)
Lemma first_loop_shape n nskip k m :
  let mk := (first_loop n nskip k m).1 in
  bufA mk = bufA m ∧ bufb mk = bufb m
  ∧ mCacheD mk = mCacheD m ∧ rng mk = rng m
  ∧ length (bufx mk) = length (bufx m)
  ∧ mCacheOrder mk
    = filter (fun i => ¬ degenerate nskip (bufA m) i) (seq 0 k)
  ∧ (∀ j, (k ≤ j)%nat → bufx mk !!! j = bufx m !!! j)
  ∧ (∀ j, (j < k)%nat → degenerate nskip (bufA m) j → bufx mk !!! j = 0).
Proof.
  induction k as [|k IH]; cbv zeta.
  - simpl. repeat split; try done. intros j Hj. lia.
  - rewrite first_loop_S, filter_seq_S. cbv zeta in IH.
    destruct (first_loop n nskip k m) as [mk pk]. simpl in IH.
    destruct IH as (HA & Hb & HD & Hr & Hlen & Hord & Hrest & Hdeg).
    destruct (decide (degenerate nskip (bufA mk) k)) as [Hk|Hk].
    + rewrite first_body_degenerate by done. simpl.
      rewrite length_insert, decide_False, app_nil_r by (rewrite <-HA; tauto).
      repeat split; try done.
      * intros j Hj. rewrite list_lookup_total_insert_ne by lia.
        apply Hrest. lia.
      * intros j Hj Hdj. destruct (decide (j = k)) as [->|Hne].
        -- apply lookup_total_insert_zero.
        -- rewrite list_lookup_total_insert_ne by done. apply Hdeg; [lia|done].
    + rewrite first_body_regular by done. simpl.
      rewrite length_insert, decide_True by (rewrite <-HA; done).
      repeat split; try done.
      * by rewrite Hord.
      * intros j Hj. rewrite list_lookup_total_insert_ne by lia.
        apply Hrest. lia.
      * intros j Hj Hdj. destruct (decide (j = k)) as [->|Hne].
        -- rewrite <-HA in Hdj. done.
        -- rewrite list_lookup_total_insert_ne by done. apply Hdeg; [lia|done].
Qed.

Lemma first_loop_same_bounds n nskip k m :
  same_bounds m (first_loop n nskip k m).1.
Proof.
  unfold Pgs.first_loop.
  apply (fold_left_inv (fun s => same_bounds m s.1)); [done|].
  intros s i _. apply first_body_same_bounds.
Qed.

(** *** The later phases, seen from [x] *)

Lemma sweep_body_fst n nskip s index :
  (sweep_body n nskip s index).1 = row_update n nskip s.1 index.
Proof.
  destruct s as [m p]. unfold Pgs.sweep_body. rewrite project_eq.
  fold (row_update n nskip m index). simpl.
  match goal with |- context [if ?c then _ else _] => destruct c end;
    [case_decide|]; done.
Qed.

Lemma sweep_fold_fst n nskip l s :
  (fold_left (sweep_body n nskip) l s).1
  = fold_left (row_update n nskip) l s.1.
Proof.
  revert s. induction l as [|i l IH]; intros s; simpl; [done|].
  by rewrite IH, sweep_body_fst.
Qed.

Lemma sweep_fst n nskip m :
  (sweep n nskip m).1 = fold_left (row_update n nskip) (mCacheOrder m) m.
Proof. unfold Pgs.sweep. by rewrite sweep_fold_fst. Qed.

Lemma normalize_row_keeps n nskip m index :
  bufx (normalize_row n nskip m index) = bufx m
  ∧ mCacheOrder (normalize_row n nskip m index) = mCacheOrder m.
Proof.
  unfold Pgs.normalize_row.
  apply (fold_left_inv
           (fun m' => bufx m' = bufx m ∧ mCacheOrder m' = mCacheOrder m));
    [done|].
  intros m' j _ H. done.
Qed.

Lemma normalize_keeps n nskip m :
  bufx (normalize n nskip m) = bufx m
  ∧ mCacheOrder (normalize n nskip m) = mCacheOrder m.
Proof.
  unfold Pgs.normalize.
  apply (fold_left_inv
           (fun m' => bufx m' = bufx m ∧ mCacheOrder m' = mCacheOrder m));
    [done|].
  intros m' j _ [Hx Ho].
  destruct (normalize_row_keeps n nskip m' j) as [-> ->]. done.
Qed.

Lemma shuffle_keeps_x m : bufx (shuffle m) = bufx m.
Proof.
  unfold Pgs.shuffle. generalize (seq 1 (length (mCacheOrder m) - 1)).
  intros l. apply (fold_left_inv (fun m' => bufx m' = bufx m)); [done|].
  intros m' j _ H. unfold Pgs.shuffle_body.
  by destruct (dRandInt (rng m') (j + 1)).
Qed.

(** An invariant of the memory that holds after the first loop and is
    kept by normalisation, by the shuffle when it is enabled, and by a
    sweep, holds when [solve] returns from the iterative path. *)
Lemma iterate_inv (Inv : Mem Rng → Prop) n nskip :
  (mRandomizeConstraintOrder mOption = true → ∀ m, Inv m → Inv (shuffle m)) →
  (∀ m, Inv m → Inv (fold_left (row_update n nskip) (mCacheOrder m) m)) →
  ∀ fuel iter m, Inv m → Inv (iterate n nskip fuel iter m).
Proof.
  intros Hsh Hsw fuel.
  induction fuel as [|fuel IH]; intros iter m Hm; simpl; [done|].
  set (m1 := if mRandomizeConstraintOrder mOption then _ else _).
  assert (Inv m1) as H1.
  { subst m1. destruct (mRandomizeConstraintOrder mOption); [|done].
    case_decide; [by apply Hsh | done]. }
  pose proof (Hsw m1 H1) as H2. rewrite <-sweep_fst in H2.
  destruct (sweep n nskip m1) as [m2 p]. simpl in H2.
  destruct p; [done|]. by apply IH.
Qed.

Lemma solve_inv (Inv : Mem Rng → Prop) n nub m :
  (nub < Z.of_nat n)%Z →
  Inv (first_sweep n (dPAD n) m).1 →
  (∀ m, Inv m → Inv (normalize n (dPAD n) m)) →
  (mRandomizeConstraintOrder mOption = true → ∀ m, Inv m → Inv (shuffle m)) →
  (∀ m, Inv m → Inv (fold_left (row_update n (dPAD n)) (mCacheOrder m) m)) →
  Inv (solve n nub m).
Proof.
  intros Hnub H1 Hn Hsh Hsw. unfold Pgs.solve.
  rewrite decide_False by lia.
  destruct (first_sweep n (dPAD n) m) as [m1 p]. simpl in H1.
  destruct p; [done|].
  apply iterate_inv; auto.
Qed.

(** *** Box containment *)

Lemma first_loop_box n nskip k m :
  (k ≤ length (bufx m))%nat →
  in_box n nskip k m (bufx (first_loop n nskip k m).1).
Proof.
  induction k as [|k IH]; intros Hlen j Hj; [lia|].
  rewrite first_loop_S.
  pose proof (first_loop_shape n nskip k m) as Hs. cbv zeta in Hs.
  pose proof (first_loop_same_bounds n nskip k m) as Hb.
  specialize (IH ltac:(lia)).
  destruct (first_loop n nskip k m) as [mk pk]. simpl in Hs, Hb, IH.
  destruct Hs as (HA & _ & _ & _ & Hl & _ & _ & _).
  destruct Hb as (Hlo & Hhi & Hfi).
  intros Hreg Hf Hle.
  destruct (decide (degenerate nskip (bufA mk) k)) as [Hk|Hk].
  - rewrite first_body_degenerate by done. simpl.
    assert (j ≠ k) by (intros ->; rewrite HA in Hk; done).
    rewrite list_lookup_total_insert_ne by done. apply IH; [lia|done..].
  - rewrite first_body_regular by done. simpl.
    destruct (decide (j = k)) as [->|Hne].
    + rewrite list_lookup_total_insert_eq by lia.
      rewrite <-Hlo, <-Hhi. apply projected_box; congruence.
    + rewrite list_lookup_total_insert_ne by done. apply IH; [lia|done..].
Qed.

Lemma row_update_box n nskip m m' index :
  same_bounds m m' →
  in_box n nskip n m (bufx m') →
  in_box n nskip n m (bufx (row_update n nskip m' index)).
Proof.
  intros (Hlo & Hhi & Hfi) Hbox j Hj Hreg Hf Hle. simpl.
  destruct (decide (index < length (bufx m'))%nat) as [Hin|Hout].
  - destruct (decide (j = index)) as [->|Hne].
    + rewrite list_lookup_total_insert_eq by done.
      rewrite <-Hlo, <-Hhi. apply projected_box; congruence.
    + rewrite list_lookup_total_insert_ne by done. by apply Hbox.
  - rewrite list_insert_ge by lia. by apply Hbox.
Qed.

(** C6 (amended).  With a positive epsilonForDivision, after the
    pointer-based PGS solve returns from the iterative path (nub < n),
    every row i that entered the sweep order (its diagonal is at least
    epsilonForDivision), is not a friction row (findex[i] < 0) and has
    ordered bounds (lo[i] <= hi[i]) satisfies lo[i] <= x[i] <= hi[i].
    The positive threshold keeps every divisor of the sweeps away from
    zero. *)
Theorem C6_box_containment_regular_rows n nub m i :
  0 < mEpsilonForDivision mOption →
  (nub < Z.of_nat n)%Z →
  (n ≤ length (bufx m))%nat →
  (i < n)%nat →
  mEpsilonForDivision mOption ≤ bufA m !!! (dPAD n * i + i)%nat →
  (buffindex m !!! i < 0)%Z →
  buflo m !!! i ≤ bufhi m !!! i →
  buflo m !!! i ≤ bufx (solve n nub m) !!! i ≤ bufhi m !!! i.
Proof.
  intros _ Hnub Hlen Hi Hreg Hf Hle.
  assert (same_bounds m (solve n nub m)
          ∧ in_box n (dPAD n) n m (bufx (solve n nub m))) as [_ Hbox].
  { apply (solve_inv
             (fun m' => same_bounds m m' ∧ in_box n (dPAD n) n m (bufx m')));
      [done|..].
    - split; [apply first_sweep_same_bounds|].
      rewrite first_sweep_loop. by apply first_loop_box.
    - intros m' [Hb Hbox]. split.
      + eapply same_bounds_trans; [done | apply normalize_same_bounds].
      + by destruct (normalize_keeps n (dPAD n) m') as [-> _].
    - intros _ m' [Hb Hbox]. split.
      + eapply same_bounds_trans; [done | apply shuffle_same_bounds].
      + by rewrite shuffle_keeps_x.
    - intros m'. generalize (mCacheOrder m'). intros l Hm'.
      apply (fold_left_inv
               (fun m' => same_bounds m m' ∧ in_box n (dPAD n) n m (bufx m')));
        [done|].
      intros m2 index _ [Hb Hbox]. split.
      + eapply same_bounds_trans; [done|]. done.
      + by apply row_update_box. }
  apply Hbox; try done. unfold Pgs.degenerate. by apply Qcle_not_lt.
Qed.

(** *** Degenerate rows *)

Lemma shuffle_subset m j :
  j ∈ mCacheOrder (shuffle m) → j ∈ mCacheOrder m.
Proof.
  revert j. unfold Pgs.shuffle.
  cut (length (mCacheOrder
                 (fold_left shuffle_body
                            (seq 1 (length (mCacheOrder m) - 1)) m))
       = length (mCacheOrder m)
       ∧ ∀ j, j ∈ mCacheOrder
                    (fold_left shuffle_body
                               (seq 1 (length (mCacheOrder m) - 1)) m)
              → j ∈ mCacheOrder m); [by intros [_ ?]|].
  apply (fold_left_inv
           (fun m' => length (mCacheOrder m') = length (mCacheOrder m)
                      ∧ ∀ j, j ∈ mCacheOrder m' → j ∈ mCacheOrder m));
    [done|].
  intros m2 i Hi%elem_of_seq [Hlen Hsub]. unfold Pgs.shuffle_body.
  pose proof (dRandInt_range (rng m2) (i + 1) ltac:(lia)) as Hr.
  destruct (dRandInt (rng m2) (i + 1)) as [swapi r]. simpl in Hr |- *.
  split; [by rewrite !length_insert|].
  intros j [->|[->|Hj]%elem_of_insert_inv]%elem_of_insert_inv.
  - apply Hsub, list_elem_of_lookup_total_2. lia.
  - apply Hsub, list_elem_of_lookup_total_2. lia.
  - by apply Hsub.
Qed.

(** On return from the iterative path the sweep order holds regular rows
    only, and every degenerate row has [x] equal to zero. *)
Lemma solve_degenerate n nub m :
  (nub < Z.of_nat n)%Z →
  let m' := solve n nub m in
  (∀ j, j ∈ mCacheOrder m' → (j < n)%nat ∧ ¬ degenerate (dPAD n) (bufA m) j)
  ∧ (∀ j, (j < n)%nat → degenerate (dPAD n) (bufA m) j → bufx m' !!! j = 0).
Proof.
  intros Hnub m'. subst m'.
  set (Inv := fun m' : Mem Rng =>
    (∀ j, j ∈ mCacheOrder m' → (j < n)%nat ∧ ¬ degenerate (dPAD n) (bufA m) j)
    ∧ (∀ j, (j < n)%nat → degenerate (dPAD n) (bufA m) j → bufx m' !!! j = 0)).
  apply (solve_inv Inv); [done|..].
  - rewrite first_sweep_loop.
    pose proof (first_loop_shape n (dPAD n) n m) as Hs. cbv zeta in Hs.
    destruct Hs as (_ & _ & _ & _ & _ & Hord & _ & Hz).
    split; [|done].
    intros j. rewrite Hord, list_elem_of_filter, elem_of_seq. intros [? ?].
    split; [lia|done].
  - intros m1 HI. unfold Inv.
    by destruct (normalize_keeps n (dPAD n) m1) as [-> ->].
  - intros _ m1 [Ho Hz]. split.
    + intros j Hj%shuffle_subset. by apply Ho.
    + by rewrite shuffle_keeps_x.
  - intros m1 [Ho Hz].
    cut (Inv (fold_left (row_update n (dPAD n)) (mCacheOrder m1) m1)
         ∧ mCacheOrder (fold_left (row_update n (dPAD n)) (mCacheOrder m1) m1)
           = mCacheOrder m1); [by intros [? _]|].
    apply (fold_left_inv
             (fun m2 => Inv m2 ∧ mCacheOrder m2 = mCacheOrder m1)); [done|].
    intros m2 index Hin [[Ho2 Hz2] Heq]. split; [split|]; simpl; try done.
    intros j Hj Hd.
    assert (index ≠ j) by (intros ->; apply Ho in Hin as [_ ?]; done).
    rewrite list_lookup_total_insert_ne by done. by apply Hz2.
Qed.

(** *** The convergence test of the first loop *)

(** If the flag is down after [k] rounds, some regular row below [k]
    moved by more than the threshold.  Each row is written once, so the
    move is the difference between the current and the initial [x]. *)
Lemma first_loop_flag n nskip k m :
  (first_loop n nskip k m).2 = false →
  ∃ j, (j < k)%nat ∧ ¬ degenerate nskip (bufA m) j
       ∧ mDeltaXThreshold mOption
         < Qcabs (bufx (first_loop n nskip k m).1 !!! j - bufx m !!! j).
Proof.
  induction k as [|k IH]; [done|].
  rewrite first_loop_S.
  pose proof (first_loop_shape n nskip k m) as Hs. cbv zeta in Hs.
  destruct (first_loop n nskip k m) as [mk pk]. simpl in Hs, IH.
  destruct Hs as (HA & _ & _ & _ & _ & _ & Hrest & _).
  assert (∀ v, pk = false →
            ∃ j, (j < S k)%nat ∧ ¬ degenerate nskip (bufA m) j
                 ∧ mDeltaXThreshold mOption
                   < Qcabs (<[k := v]> (bufx mk) !!! j - bufx m !!! j))
    as Hold.
  { intros v Hp. destruct (IH Hp) as (j & Hj & Hreg & Hd).
    exists j. split; [lia|]. split; [done|].
    by rewrite list_lookup_total_insert_ne by lia. }
  destruct (decide (degenerate nskip (bufA mk) k)) as [Hk|Hk].
  - rewrite first_body_degenerate by done. simpl. apply Hold.
  - rewrite first_body_regular by done. simpl.
    intros [Hp|Hp]%andb_false_iff; [by apply Hold|].
    apply bool_decide_eq_false_1, Qcnot_le_lt in Hp.
    exists k. split; [lia|]. split; [by rewrite <-HA|].
    by rewrite <-(Hrest k) by lia.
Qed.

(** *** Friction rows *)

Lemma in_cone_zero hi i k x :
  0 ≤ hi !!! i → x !!! i = 0 → in_cone hi i k x.
Proof.
  intros Hhi Hx. unfold Pgs.in_cone. rewrite Hx.
  apply Qcmult_nonneg_nonneg; [done | apply Qcabs_nonneg].
Qed.

Lemma in_cone_other hi i k x j v :
  j ≠ i → j ≠ k → in_cone hi i k x → in_cone hi i k (<[j := v]> x).
Proof.
  intros Hi Hk. unfold Pgs.in_cone.
  by rewrite !list_lookup_total_insert_ne by done.
Qed.

Lemma in_cone_projected i k new_x m :
  buffindex m !!! i = Z.of_nat k → k ≠ i → 0 ≤ bufhi m !!! i →
  (i < length (bufx m))%nat →
  in_cone (bufhi m) i k (<[i := projected i new_x m]> (bufx m)).
Proof.
  intros Hf Hne Hhi Hlen. unfold Pgs.in_cone.
  rewrite list_lookup_total_insert_eq by done.
  rewrite list_lookup_total_insert_ne by done.
  etrans; [apply projected_cone; lia|].
  rewrite Hf, Nat2Z.id, Qcabs_Qcmult, (Qcabs_pos (bufhi m !!! i)) by done.
  reflexivity.
Qed.

Lemma first_loop_cone n nskip t m i k :
  (i < t)%nat → (t ≤ length (bufx m))%nat → (k < i)%nat →
  buffindex m !!! i = Z.of_nat k → 0 ≤ bufhi m !!! i →
  in_cone (bufhi m) i k (bufx (first_loop n nskip t m).1).
Proof.
  intros Hit Hlen Hki Hf Hhi.
  induction t as [|t IH]; [lia|].
  rewrite first_loop_S.
  pose proof (first_loop_shape n nskip t m) as Hs. cbv zeta in Hs.
  pose proof (first_loop_same_bounds n nskip t m) as Hb.
  destruct (first_loop n nskip t m) as [mt pt]. simpl in Hs, Hb, IH.
  destruct Hs as (HA & _ & _ & _ & Hl & _ & _ & _).
  destruct Hb as (Hlo & Hhi' & Hfi).
  destruct (decide (i = t)) as [->|Hne].
  - destruct (decide (degenerate nskip (bufA mt) t)) as [Ht|Ht].
    + rewrite first_body_degenerate by done. simpl.
      apply in_cone_zero; [done | apply lookup_total_insert_zero].
    + rewrite first_body_regular by done. simpl.
      rewrite <-Hhi'. apply in_cone_projected; [congruence | lia | congruence | lia].
  - specialize (IH ltac:(lia) ltac:(lia)).
    destruct (decide (degenerate nskip (bufA mt) t)) as [Ht|Ht].
    + rewrite first_body_degenerate by done. simpl.
      apply in_cone_other; [lia..|done].
    + rewrite first_body_regular by done. simpl.
      apply in_cone_other; [lia..|done].
Qed.

Lemma row_updates_keep n nskip l m :
  let m' := fold_left (row_update n nskip) l m in
  same_bounds m m' ∧ length (bufx m') = length (bufx m)
  ∧ mCacheOrder m' = mCacheOrder m.
Proof.
  apply (fold_left_inv
           (fun m' => same_bounds m m' ∧ length (bufx m') = length (bufx m)
                      ∧ mCacheOrder m' = mCacheOrder m)); [done|].
  intros m' j _ (Hb & Hl & Ho). simpl. by rewrite length_insert.
Qed.

(** A sweep in increasing row order leaves a regular friction row [i]
    inside the cone of an earlier row [k]: the update of [i] puts it
    there, and the rows after [i] touch neither. *)
Lemma sweep_cone n nskip m m1 i k :
  same_bounds m m1 →
  mCacheOrder m1 = filter (fun j => ¬ degenerate nskip (bufA m) j) (seq 0 n) →
  (i < n)%nat → (i < length (bufx m1))%nat → (k < i)%nat →
  buffindex m !!! i = Z.of_nat k → 0 ≤ bufhi m !!! i →
  ¬ degenerate nskip (bufA m) i →
  in_cone (bufhi m) i k
          (bufx (fold_left (row_update n nskip) (mCacheOrder m1) m1)).
Proof.
  intros (Hlo & Hhi' & Hfi) Hord Hin Hlen Hki Hf Hhi Hreg.
  rewrite Hord, (seq_split i n), filter_app by done.
  rewrite filter_cons_True, fold_left_app by done. simpl fold_left.
  set (m2 := fold_left (row_update n nskip) _ m1).
  destruct (row_updates_keep n nskip
              (filter (λ j, ¬ degenerate nskip (bufA m) j) (seq 0 i)) m1)
    as ((Hlo2 & Hhi2 & Hfi2) & Hl2 & _).
  fold m2 in Hlo2, Hhi2, Hfi2, Hl2.
  apply (fold_left_inv (fun m' => in_cone (bufhi m) i k (bufx m'))).
  - simpl. rewrite <-Hhi', <-Hhi2.
    apply in_cone_projected; [congruence | lia | congruence | lia].
  - intros m' j [_ Hj%elem_of_seq]%list_elem_of_filter Hc. simpl.
    apply in_cone_other; [lia..|done].
Qed.

(** C3 (amended).  With a positive epsilonForDivision, after the
    pointer-based PGS solve returns from the iterative path (nub < n)
    with the randomised sweep order switched off, every friction row i
    whose friction index k = findex[i] points to an earlier row
    (0 <= k < i) and whose coefficient hi[i] is non-negative satisfies
    |x[i]| <= hi[i] * |x[k]| for the final x[k]; lo[i] plays no role.
    The positive threshold keeps every divisor of the sweeps away from
    zero. *)
Theorem C3_friction_cone_earlier_normal_row n nub m i k :
  0 < mEpsilonForDivision mOption →
  (nub < Z.of_nat n)%Z →
  mRandomizeConstraintOrder mOption = false →
  (n ≤ length (bufx m))%nat →
  (i < n)%nat →
  buffindex m !!! i = Z.of_nat k →
  (k < i)%nat →
  0 ≤ bufhi m !!! i →
  Qcabs (bufx (solve n nub m) !!! i)
  ≤ bufhi m !!! i * Qcabs (bufx (solve n nub m) !!! k).
Proof.
  intros _ Hnub Hrand Hlen Hi Hf Hki Hhi.
  set (order0 := filter (fun j => ¬ degenerate (dPAD n) (bufA m) j) (seq 0 n)).
  set (Inv := fun m' : Mem Rng =>
    same_bounds m m' ∧ length (bufx m') = length (bufx m)
    ∧ mCacheOrder m' = order0
    ∧ (degenerate (dPAD n) (bufA m) i → bufx m' !!! i = 0)
    ∧ (¬ degenerate (dPAD n) (bufA m) i → in_cone (bufhi m) i k (bufx m'))).
  assert (Inv (solve n nub m)) as (_ & _ & _ & Hz & Hc).
  { apply (solve_inv Inv); [done|..].
    - rewrite first_sweep_loop.
      pose proof (first_loop_shape n (dPAD n) n m) as Hs. cbv zeta in Hs.
      destruct Hs as (_ & _ & _ & _ & Hl & Hord & _ & Hz).
      split; [apply first_loop_same_bounds|].
      repeat split; try done.
      + intros Hd. by apply Hz.
      + intros _. by apply first_loop_cone.
    - intros m1 (Hb & Hl & Ho & Hz & Hc). unfold Inv.
      destruct (normalize_keeps n (dPAD n) m1) as [-> ->].
      repeat split; try done.
      all: eapply same_bounds_trans; [done | apply normalize_same_bounds].
    - intros Ht. congruence.
    - intros m1 (Hb & Hl & Ho & Hz & Hc).
      destruct (row_updates_keep n (dPAD n) (mCacheOrder m1) m1)
        as (Hb' & Hl' & Ho'). cbv zeta in Hb', Hl', Ho'.
      split; [by eapply same_bounds_trans|].
      split; [congruence|]. split; [congruence|]. split.
      + intros Hd.
        apply (fold_left_inv (fun m' => bufx m' !!! i = 0)); [by apply Hz|].
        intros m' j Hj Hx. simpl.
        rewrite Ho in Hj. apply list_elem_of_filter in Hj as [Hj _].
        assert (j ≠ i) by congruence.
        by rewrite list_lookup_total_insert_ne.
      + intros Hreg. apply sweep_cone; try done. lia. }
  destruct (decide (degenerate (dPAD n) (bufA m) i)) as [Hd|Hd].
  - by apply in_cone_zero, Hz.
  - by apply Hc.
Qed.

(** C8 (amended).  If on the iterative path (nub < n) every row that the
    first sweep updates (diagonal at least epsilonForDivision) ends that
    sweep within deltaXThreshold of its input value, the solver returns
    right after that sweep: the result is the memory the first sweep
    leaves, A and b are not normalised, every updated row of the
    returned x is within deltaXThreshold of the input, and every
    degenerate row of the returned x is 0 whatever its input value. *)
Theorem C8_converged_first_sweep_returns n nub m :
  (nub < Z.of_nat n)%Z →
  (∀ i, (i < n)%nat →
        mEpsilonForDivision mOption ≤ bufA m !!! (dPAD n * i + i)%nat →
        Qcabs (bufx (first_sweep n (dPAD n) m).1 !!! i - bufx m !!! i)
        ≤ mDeltaXThreshold mOption) →
  solve n nub m = (first_sweep n (dPAD n) m).1
  ∧ bufA (solve n nub m) = bufA m
  ∧ bufb (solve n nub m) = bufb m
  ∧ (∀ i, (i < n)%nat →
          mEpsilonForDivision mOption ≤ bufA m !!! (dPAD n * i + i)%nat →
          Qcabs (bufx (solve n nub m) !!! i - bufx m !!! i)
          ≤ mDeltaXThreshold mOption)
  ∧ (∀ i, (i < n)%nat →
          bufA m !!! (dPAD n * i + i)%nat < mEpsilonForDivision mOption →
          bufx (solve n nub m) !!! i = 0).
Proof.
  intros Hnub Hconv.
  assert (solve n nub m = (first_sweep n (dPAD n) m).1) as Heq.
  { unfold Pgs.solve. rewrite decide_False by lia.
    pose proof (first_loop_flag n (dPAD n) n m) as Hflag.
    rewrite <-first_sweep_loop in Hflag.
    destruct (first_sweep n (dPAD n) m) as [m1 p] eqn:Hfs. simpl in Hflag.
    destruct p; [done|].
    destruct (Hflag eq_refl) as (j & Hj & Hreg & Hd).
    exfalso. eapply Qclt_not_le; [exact Hd|].
    apply Hconv; [done|].
    by apply Qcnot_lt_le. }
  rewrite Heq. split; [done|].
  pose proof (first_loop_shape n (dPAD n) n m) as Hs. cbv zeta in Hs.
  rewrite <-first_sweep_loop in Hs.
  destruct Hs as (HA & Hb & _ & _ & _ & _ & _ & Hz).
  repeat split; try done.
Qed.

(** *** The direct path *)

(** C5.  For every call of the pointer-based PGS solve with nub >= n the
    solver takes the direct path only: it clears the diagonal cache,
    hands A to dFactorLDLT and the factored A with b to dSolveLDLT, and
    copies the first n entries of the solved b into x.  The returned
    memory is given in closed form from the entry A, b and x alone: the
    sweep order, the random source, lo, hi and findex come back as they
    were and none of them enters the result, so no sweep and no
    projection took place.  Whenever the ODE routines deliver a solution
    of A y = b for the entry A and b, the returned x solves it too. *)
Theorem C5_unbounded_direct_path n nub m :
  (Z.of_nat n ≤ nub)%Z →
  (n ≤ length (bufx m))%nat →
  let Ad := dFactorLDLT (bufA m) (replicate n 0) n (dPAD n) in
  let b' := dSolveLDLT Ad.1 Ad.2 (bufb m) n (dPAD n) in
  solve n nub m
  = mkMem Ad.1 (memcpy (bufx m) b' n) b' (buflo m) (bufhi m) (buffindex m)
          Ad.2 (mCacheOrder m) (rng m)
  ∧ (∀ i, (i < n)%nat → bufx (solve n nub m) !!! i = bufb (solve n nub m) !!! i)
  ∧ ((∀ i, (i < n)%nat → row_times n (dPAD n) (bufA m) b' i = bufb m !!! i) →
     ∀ i, (i < n)%nat →
          row_times n (dPAD n) (bufA m) (bufx (solve n nub m)) i = bufb m !!! i).
Proof.
  intros Hnub Hlen Ad b'.
  assert (solve n nub m
          = mkMem Ad.1 (memcpy (bufx m) b' n) b' (buflo m) (bufhi m)
                  (buffindex m) Ad.2 (mCacheOrder m) (rng m)) as Heq.
  { unfold Pgs.solve. rewrite decide_True by done. simpl.
    subst b' Ad. by destruct (dFactorLDLT _ _ _ _). }
  rewrite Heq. simpl. split; [done|].
  assert (∀ i, (i < n)%nat → memcpy (bufx m) b' n !!! i = b' !!! i) as Hx.
  { intros i Hi. by apply memcpy_lookup. }
  split; [done|].
  intros Hsol i Hi. rewrite <-(Hsol i Hi). by apply row_times_ext.
Qed.

(** *** Degenerate rows, general statement *)

Lemma degenerate_row_inactive n nub m i :
  (nub < Z.of_nat n)%Z → (i < n)%nat →
  bufA m !!! (dPAD n * i + i)%nat < mEpsilonForDivision mOption →
  bufx (solve n nub m) !!! i = 0 ∧ i ∉ mCacheOrder (solve n nub m).
Proof.
  intros Hnub Hi Hd.
  destruct (solve_degenerate n nub m Hnub) as [Ho Hz].
  split; [by apply Hz|]. intros Hin. by apply Ho in Hin as [_ ?].
Qed.

(** *** Writes stay inside the first n entries of x *)

Lemma memcpy_beyond (dst src : list double) (n j : nat) :
  length (memcpy dst src n) = length dst
  ∧ ((n ≤ j)%nat → memcpy dst src n !!! j = dst !!! j).
Proof.
  unfold memcpy.
  apply (fold_left_inv
           (fun d => length d = length dst
                     ∧ ((n ≤ j)%nat → d !!! j = dst !!! j))); [done|].
  intros d i Hi%elem_of_seq [Hl Hj]. split; [by rewrite length_insert|].
  intros Hn. rewrite list_lookup_total_insert_ne by lia. by apply Hj.
Qed.

(** X1.  The pointer-based solve never resizes x and never writes an entry
    of x at or beyond index n, on the direct path as on the iterative
    path. *)
Theorem X1_solve_writes_x_below_n n nub m j :
  length (bufx (solve n nub m)) = length (bufx m)
  ∧ ((n ≤ j)%nat → bufx (solve n nub m) !!! j = bufx m !!! j).
Proof.
  destruct (decide (Z.of_nat n ≤ nub)%Z) as [Hnub|Hnub].
  - unfold Pgs.solve. rewrite decide_True by done. simpl.
    destruct (dFactorLDLT _ _ _ _). simpl. apply memcpy_beyond.
  - set (Inv := fun m' : Mem Rng =>
      (∀ i, i ∈ mCacheOrder m' → (i < n)%nat)
      ∧ length (bufx m') = length (bufx m)
      ∧ ((n ≤ j)%nat → bufx m' !!! j = bufx m !!! j)).
    assert (Inv (solve n nub m)) as (_ & Hl & Hj); [|done].
    apply (solve_inv Inv); [lia|..].
    + rewrite first_sweep_loop.
      pose proof (first_loop_shape n (dPAD n) n m) as Hs. cbv zeta in Hs.
      destruct Hs as (_ & _ & _ & _ & Hl & Hord & Hrest & _).
      repeat split; [|done|by apply Hrest].
      intros i. rewrite Hord, list_elem_of_filter, elem_of_seq. lia.
    + intros m1 HI. unfold Inv.
      by destruct (normalize_keeps n (dPAD n) m1) as [-> ->].
    + intros _ m1 (Ho & Hl & Hj). repeat split.
      * intros i Hi%shuffle_subset. by apply Ho.
      * by rewrite shuffle_keeps_x.
      * by rewrite shuffle_keeps_x.
    + intros m1 (Ho & Hl & Hj).
      cut (Inv (fold_left (row_update n (dPAD n)) (mCacheOrder m1) m1)
           ∧ mCacheOrder (fold_left (row_update n (dPAD n)) (mCacheOrder m1) m1)
             = mCacheOrder m1); [by intros [? _]|].
      apply (fold_left_inv
               (fun m2 => Inv m2 ∧ mCacheOrder m2 = mCacheOrder m1)); [done|].
      intros m2 index Hin [(Ho2 & Hl2 & Hj2) Heq].
      split; [|done]. repeat split; simpl.
      * done.
      * by rewrite length_insert.
      * intros Hn. apply Ho in Hin.
        rewrite list_lookup_total_insert_ne by lia. by apply Hj2.
Qed.

(** *** The sweep order is a rearrangement of the regular rows *)

Lemma insert_perm {A : Type} `{!Inhabited A} (l : list A) (j : nat) (a : A) :
  (j < length l)%nat → l !!! j :: <[j := a]> l ≡ₚ a :: l.
Proof.
  revert j. induction l as [|b l IH]; intros [|j] Hj; simpl in *; try lia.
  - apply perm_swap.
  - change ((b :: l) !!! S j) with (l !!! j).
    rewrite (perm_swap b (l !!! j)), (perm_swap b a).
    apply perm_skip, IH. lia.
Qed.

Lemma swap_perm {A : Type} `{!Inhabited A} (l : list A) (i j : nat) :
  (i < length l)%nat → (j < length l)%nat →
  <[j := l !!! i]> (<[i := l !!! j]> l) ≡ₚ l.
Proof.
  revert i j. induction l as [|a l IH]; intros [|i] [|j] Hi Hj;
    simpl in *; try lia.
  - done.
  - change ((a :: l) !!! S j) with (l !!! j).
    change ((a :: l) !!! 0%nat) with a.
    apply insert_perm. lia.
  - change ((a :: l) !!! S i) with (l !!! i).
    change ((a :: l) !!! 0%nat) with a.
    apply insert_perm. lia.
  - change ((a :: l) !!! S i) with (l !!! i).
    change ((a :: l) !!! S j) with (l !!! j).
    apply perm_skip, IH; lia.
Qed.

Lemma shuffle_perm m : mCacheOrder (shuffle m) ≡ₚ mCacheOrder m.
Proof.
  unfold Pgs.shuffle.
  cut (length (mCacheOrder
                 (fold_left shuffle_body
                            (seq 1 (length (mCacheOrder m) - 1)) m))
       = length (mCacheOrder m)
       ∧ mCacheOrder
           (fold_left shuffle_body (seq 1 (length (mCacheOrder m) - 1)) m)
         ≡ₚ mCacheOrder m); [by intros [_ ?]|].
  apply (fold_left_inv
           (fun m' => length (mCacheOrder m') = length (mCacheOrder m)
                      ∧ mCacheOrder m' ≡ₚ mCacheOrder m)); [done|].
  intros m2 i Hi%elem_of_seq [Hlen Hperm]. unfold Pgs.shuffle_body.
  pose proof (dRandInt_range (rng m2) (i + 1) ltac:(lia)) as Hr.
  destruct (dRandInt (rng m2) (i + 1)) as [swapi r]. simpl in Hr |- *.
  split; [by rewrite !length_insert|].
  rewrite swap_perm by lia. done.
Qed.

(** X2.  On return from the iterative path (nub < n) the sweep order holds
    every row whose diagonal is at least epsilonForDivision exactly once
    and nothing else: it is a rearrangement of those rows in increasing
    order, and it is that increasing list itself when the randomised order
    is switched off. *)
Theorem X2_sweep_order_rearranges_regular_rows n nub m :
  (nub < Z.of_nat n)%Z →
  let regular :=
    filter (fun i => ¬ bufA m !!! (dPAD n * i + i)%nat < mEpsilonForDivision mOption)
           (seq 0 n) in
  mCacheOrder (solve n nub m) ≡ₚ regular
  ∧ NoDup (mCacheOrder (solve n nub m))
  ∧ (mRandomizeConstraintOrder mOption = false →
     mCacheOrder (solve n nub m) = regular).
Proof.
  intros Hnub regular.
  set (Inv := fun m' : Mem Rng =>
    mCacheOrder m' ≡ₚ regular
    ∧ (mRandomizeConstraintOrder mOption = false → mCacheOrder m' = regular)).
  assert (Inv (solve n nub m)) as [Hp He].
  { apply (solve_inv Inv); [done|..].
    - rewrite first_sweep_loop.
      pose proof (first_loop_shape n (dPAD n) n m) as Hs. cbv zeta in Hs.
      destruct Hs as (_ & _ & _ & _ & _ & Hord & _ & _).
      split; [by rewrite Hord | by intros _].
    - intros m1 HI. unfold Inv.
      by destruct (normalize_keeps n (dPAD n) m1) as [_ ->].
    - intros Ht m1 [Hp _]. split; [by rewrite shuffle_perm | congruence].
    - intros m1 HI. unfold Inv.
      by destruct (row_updates_keep n (dPAD n) (mCacheOrder m1) m1)
        as (_ & _ & ->). }
  split; [done|]. split; [|done].
  rewrite Hp. subst regular. apply NoDup_filter, NoDup_seq.
Qed.

(** *** Friction rows do not read lo *)

Lemma fold_left_commute {S B : Type} (g : S → S) (C : S → Prop)
  (f : S → B → S) (l : list B) (s : S) :
  C s → (∀ s b, C s → f (g s) b = g (f s b) ∧ C (f s b)) →
  fold_left f l (g s) = g (fold_left f l s) ∧ C (fold_left f l s).
Proof.
  revert s. induction l as [|b l IH]; intros s Hs Hf; simpl; [done|].
  destruct (Hf s b Hs) as [-> Hc]. by apply IH.
Qed.

Section WithLo.
Variable lo' : list double.

Local Abbreviation with_lo := (Pgs.with_lo Rng lo').
Local Abbreviation lo_agrees := (Pgs.lo_agrees Rng lo').

Lemma lo_agrees_same_bounds m m' :
  same_bounds m m' → lo_agrees m → lo_agrees m'.
Proof. intros (Hlo & _ & Hfi) H i. rewrite Hlo, Hfi. apply H. Qed.

Lemma projected_with_lo i v m :
  lo_agrees m → projected i v (with_lo m) = projected i v m.
Proof.
  intros H. unfold Pgs.projected. simpl.
  case_decide as Hf; [done|]. by rewrite H by lia.
Qed.

Lemma first_body_with_lo n nskip m p i :
  lo_agrees m →
  first_body n nskip (with_lo m, p) i
  = (with_lo (first_body n nskip (m, p) i).1, (first_body n nskip (m, p) i).2)
  ∧ lo_agrees (first_body n nskip (m, p) i).1.
Proof.
  intros H. split.
  - destruct (decide (degenerate nskip (bufA m) i)) as [Hd|Hd].
    + by rewrite !first_body_degenerate.
    + rewrite !first_body_regular by done. cbv zeta.
      change (first_new_x n nskip i (with_lo m)) with (first_new_x n nskip i m).
      by rewrite projected_with_lo.
  - eapply lo_agrees_same_bounds; [|done].
    by apply (first_body_same_bounds n nskip m (m, p) i).
Qed.

Lemma sweep_body_with_lo n nskip m p i :
  lo_agrees m →
  sweep_body n nskip (with_lo m, p) i
  = (with_lo (sweep_body n nskip (m, p) i).1, (sweep_body n nskip (m, p) i).2)
  ∧ lo_agrees (sweep_body n nskip (m, p) i).1.
Proof.
  intros H. split.
  - unfold Pgs.sweep_body. rewrite !project_eq. simpl.
    rewrite projected_with_lo by done.
    match goal with |- context [if ?c then _ else _] => destruct c end;
      [case_decide|]; done.
  - eapply lo_agrees_same_bounds; [|done].
    by apply (sweep_body_same_bounds n nskip m (m, p) i).
Qed.

Lemma pair_fold_with_lo (f : Mem Rng * bool → nat → Mem Rng * bool) l m p :
  (∀ m p i, lo_agrees m →
            f (with_lo m, p) i = (with_lo (f (m, p) i).1, (f (m, p) i).2)
            ∧ lo_agrees (f (m, p) i).1) →
  lo_agrees m →
  fold_left f l (with_lo m, p)
  = (with_lo (fold_left f l (m, p)).1, (fold_left f l (m, p)).2)
  ∧ lo_agrees (fold_left f l (m, p)).1.
Proof.
  intros Hf H.
  apply (fold_left_commute (fun s => (with_lo s.1, s.2))
           (fun s => lo_agrees s.1) f l (m, p)); [done|].
  intros [m1 p1] i H1. simpl. by apply Hf.
Qed.

Lemma fold_left_commute_all {S B : Type} (g : S → S) (f : S → B → S)
  (l : list B) (s : S) :
  (∀ s b, f (g s) b = g (f s b)) →
  fold_left f l (g s) = g (fold_left f l s).
Proof.
  intros Hf.
  apply (fold_left_commute g (fun _ => True) f l s I). by intros s' b _.
Qed.

Lemma normalize_row_with_lo n nskip m index :
  normalize_row n nskip (with_lo m) index = with_lo (normalize_row n nskip m index).
Proof.
  unfold Pgs.normalize_row. cbv zeta.
  change (set_b ?v (with_lo m)) with (with_lo (set_b v m)).
  change (bufA (with_lo m)) with (bufA m).
  by apply fold_left_commute_all.
Qed.

Lemma normalize_with_lo n nskip m :
  normalize n nskip (with_lo m) = with_lo (normalize n nskip m).
Proof.
  unfold Pgs.normalize. change (mCacheOrder (with_lo m)) with (mCacheOrder m).
  apply fold_left_commute_all. intros. apply normalize_row_with_lo.
Qed.

Lemma shuffle_body_with_lo m i :
  shuffle_body (with_lo m) i = with_lo (shuffle_body m i).
Proof.
  unfold Pgs.shuffle_body. simpl. by destruct (dRandInt (rng m) (i + 1)).
Qed.

Lemma shuffle_with_lo m : shuffle (with_lo m) = with_lo (shuffle m).
Proof.
  unfold Pgs.shuffle. change (mCacheOrder (with_lo m)) with (mCacheOrder m).
  apply fold_left_commute_all. intros. apply shuffle_body_with_lo.
Qed.

Lemma iterate_with_lo n nskip fuel iter m :
  lo_agrees m →
  iterate n nskip fuel iter (with_lo m) = with_lo (iterate n nskip fuel iter m).
Proof.
  revert iter m. induction fuel as [|fuel IH]; intros iter m H; simpl; [done|].
  set (m1 := if mRandomizeConstraintOrder mOption then
               if decide (Z.land iter 7 = 0)%Z then shuffle m else m
             else m).
  assert ((if mRandomizeConstraintOrder mOption then
             if decide (Z.land iter 7 = 0)%Z then shuffle (with_lo m)
             else with_lo m
           else with_lo m) = with_lo m1) as ->.
  { subst m1. destruct (mRandomizeConstraintOrder mOption); [|done].
    case_decide; [apply shuffle_with_lo | done]. }
  assert (lo_agrees m1) as H1.
  { subst m1. destruct (mRandomizeConstraintOrder mOption); [|done].
    case_decide; [|done].
    eapply lo_agrees_same_bounds; [apply shuffle_same_bounds | done]. }
  unfold Pgs.sweep. simpl mCacheOrder.
  destruct (pair_fold_with_lo (sweep_body n nskip) (mCacheOrder m1) m1 true
              (sweep_body_with_lo n nskip) H1) as [-> H2].
  destruct (fold_left (sweep_body n nskip) (mCacheOrder m1) (m1, true))
    as [m2 p]. simpl in *.
  destruct p; [done|]. by apply IH.
Qed.

(** X3.  Rows with a friction index never read their lower bound: if lo is
    replaced by a buffer that agrees with it on every row with
    findex[i] < 0, the pointer-based solve returns the same A, x, b, caches
    and sweep order, with the replaced lo passed through. *)
Theorem X3_friction_rows_ignore_lo n nub m :
  lo_agrees m → solve n nub (with_lo m) = with_lo (solve n nub m).
Proof.
  intros H. unfold Pgs.solve. case_decide.
  - simpl. by destruct (dFactorLDLT _ _ _ _).
  - unfold Pgs.first_sweep.
    change (set_CacheOrder [] (with_lo m)) with (with_lo (set_CacheOrder [] m)).
    destruct (pair_fold_with_lo (first_body n (dPAD n)) (seq 0 n)
                (set_CacheOrder [] m) true (first_body_with_lo n (dPAD n)) H)
      as [-> H1].
    destruct (fold_left (first_body n (dPAD n)) (seq 0 n)
                (set_CacheOrder [] m, true)) as [m1 p]. simpl in *.
    destruct p; [done|].
    rewrite normalize_with_lo. apply iterate_with_lo.
    eapply lo_agrees_same_bounds; [apply normalize_same_bounds | done].
Qed.

End WithLo.

(** *** Row normalisation *)

Lemma offdiag_fold_scaled (A A' x : list double) (d : double) (base : nat)
  (l : list nat) (acc : double) :
  (∀ j, j ∈ l → A' !!! (base + j)%nat = A !!! (base + j)%nat * d) →
  fold_left (fun acc j => acc - A' !!! (base + j)%nat * x !!! j) l (acc * d)
  = fold_left (fun acc j => acc - A !!! (base + j)%nat * x !!! j) l acc * d.
Proof.
  revert acc. induction l as [|j l IH]; intros acc H; simpl; [done|].
  rewrite (H j) by (apply elem_of_cons; by left).
  rewrite <-IH by (intros j' Hj'; apply H, elem_of_cons; by right). f_equal.
  generalize (A !!! (base + j)%nat) (x !!! j). clear. intros a xj. ring.
Qed.

Lemma offdiag_scaled n nskip i (A A' x : list double) (b d : double) :
  (i < n)%nat →
  (∀ j, (j < n)%nat →
        A' !!! (nskip * i + j)%nat = A !!! (nskip * i + j)%nat * d) →
  Pgs.offdiag n nskip i A' x (b * d) = Pgs.offdiag n nskip i A x b * d.
Proof.
  intros Hi H. unfold Pgs.offdiag. cbv zeta.
  rewrite !(offdiag_fold_scaled A A'); [done|..].
  - intros j Hj%elem_of_seq. apply H. lia.
  - intros j Hj%elem_of_seq. apply H. lia.
Qed.

(** One row: the entries of the row are multiplied by the reciprocal of
    its diagonal, everything else in A is left alone. *)
Lemma normalize_row_effect n nskip m index :
  (nskip * index + n ≤ length (bufA m))%nat → (index < length (bufb m))%nat →
  let d := 1 / bufA m !!! (nskip * index + index)%nat in
  let m' := normalize_row n nskip m index in
  length (bufA m') = length (bufA m)
  ∧ length (bufb m') = length (bufb m)
  ∧ (∀ j, (j < n)%nat →
          bufA m' !!! (nskip * index + j)%nat
          = bufA m !!! (nskip * index + j)%nat * d)
  ∧ (∀ k, ¬ (nskip * index ≤ k < nskip * index + n)%nat →
          bufA m' !!! k = bufA m !!! k)
  ∧ bufb m' !!! index = bufb m !!! index * d
  ∧ (∀ k, k ≠ index → bufb m' !!! k = bufb m !!! k).
Proof.
  intros HlA Hlb d m'. subst m'. unfold Pgs.normalize_row. cbv zeta. fold d.
  set (m0 := set_b (<[index := bufb m !!! index * d]> (bufb m)) m).
  set (step := fun (m : Mem Rng) (j : nat) =>
    set_A (<[(nskip * index + j)%nat :=
               bufA m !!! (nskip * index + j)%nat * d]> (bufA m)) m).
  assert (∀ t, (t ≤ n)%nat →
    let mt := fold_left step (seq 0 t) m0 in
    length (bufA mt) = length (bufA m) ∧ bufb mt = bufb m0
    ∧ (∀ j, (j < t)%nat →
            bufA mt !!! (nskip * index + j)%nat
            = bufA m !!! (nskip * index + j)%nat * d)
    ∧ (∀ k, ¬ (nskip * index ≤ k < nskip * index + t)%nat →
            bufA mt !!! k = bufA m !!! k)) as Hloop.
  { induction t as [|t IH]; intros Ht; cbv zeta.
    - simpl. repeat split; try done. intros j Hj. lia.
    - rewrite fold_left_seq_S.
      destruct (IH ltac:(lia)) as (Hl & Hb & Hin & Hout).
      set (mt := fold_left step (seq 0 t) m0) in *.
      unfold step at 1. simpl. rewrite length_insert.
      repeat split; try done.
      + intros j Hj. destruct (decide (j = t)) as [->|Hne].
        * rewrite list_lookup_total_insert_eq by lia.
          by rewrite Hout by lia.
        * rewrite list_lookup_total_insert_ne by lia. apply Hin. lia.
      + intros k Hk. rewrite list_lookup_total_insert_ne by lia.
        apply Hout. lia. }
  destruct (Hloop n ltac:(done)) as (Hl & Hb & Hin & Hout).
  cbv zeta in Hl, Hb, Hin, Hout.
  repeat split; try done.
  - rewrite Hb. subst m0. simpl. by rewrite length_insert.
  - rewrite Hb. subst m0. simpl. by rewrite list_lookup_total_insert_eq.
  - intros k Hk. rewrite Hb. subst m0. simpl.
    by rewrite list_lookup_total_insert_ne.
Qed.

(** Rows are normalised one after the other; with a stride of at least n
    the rows do not overlap, so every row listed once is scaled by the
    reciprocal of its own original diagonal. *)
Lemma normalize_rows_effect n nskip (l : list nat) m :
  (n ≤ nskip)%nat → NoDup l → (∀ i, i ∈ l → (i < n)%nat) →
  (nskip * n ≤ length (bufA m))%nat → (n ≤ length (bufb m))%nat →
  let m' := fold_left (normalize_row n nskip) l m in
  length (bufA m') = length (bufA m)
  ∧ length (bufb m') = length (bufb m)
  ∧ (∀ r j, (r < n)%nat → (j < n)%nat →
            bufA m' !!! (nskip * r + j)%nat
            = if decide (r ∈ l)
              then bufA m !!! (nskip * r + j)%nat
                   * (1 / bufA m !!! (nskip * r + r)%nat)
              else bufA m !!! (nskip * r + j)%nat)
  ∧ (∀ r, (r < n)%nat →
          bufb m' !!! r
          = if decide (r ∈ l)
            then bufb m !!! r * (1 / bufA m !!! (nskip * r + r)%nat)
            else bufb m !!! r).
Proof.
  intros Hskip Hnd Hlt HlA Hlb.
  induction l as [|a l IH] using rev_ind; cbv zeta.
  - simpl. repeat split; try done.
  - apply NoDup_app in Hnd as (Hnd & Hdisj & _).
    assert (a ∉ l) as Ha by (intros Hin; eapply Hdisj; [done | left]).
    assert (a < n)%nat as Han by (apply Hlt, elem_of_app; right; left).
    destruct (IH Hnd ltac:(intros i Hi; apply Hlt, elem_of_app; by left))
      as (Hl1 & Hl2 & HA & Hb).
    rewrite fold_left_app. simpl fold_left.
    set (m1 := fold_left (normalize_row n nskip) l m) in *.
    destruct (normalize_row_effect n nskip m1 a) as (Hl3 & Hl4 & Hin & Hout & Hba & Hbo).
    { rewrite Hl1. nia. }
    { rewrite Hl2. lia. }
    cbv zeta in Hl3, Hl4, Hin, Hout, Hba, Hbo.
    assert (bufA m1 !!! (nskip * a + a)%nat = bufA m !!! (nskip * a + a)%nat)
      as Hdiag by (rewrite HA by done; by rewrite decide_False).
    rewrite Hdiag in Hin, Hba.
    repeat split; [congruence | congruence | |].
    + intros r j Hr Hj. destruct (decide (r = a)) as [->|Hne].
      * rewrite Hin, HA by done.
        rewrite decide_False by done.
        rewrite decide_True by (apply elem_of_app; right; left). done.
      * rewrite Hout by nia. rewrite HA by done.
        destruct (decide (r ∈ l)) as [Hrl|Hrl].
        -- by rewrite decide_True by (apply elem_of_app; by left).
        -- rewrite decide_False; [done|].
           intros [?|Hra%list_elem_of_singleton]%elem_of_app; done.
    + intros r Hr. destruct (decide (r = a)) as [->|Hne].
      * rewrite Hba, Hb by done.
        rewrite decide_False by done.
        rewrite decide_True by (apply elem_of_app; right; left). done.
      * rewrite Hbo by done. rewrite Hb by done.
        destruct (decide (r ∈ l)) as [Hrl|Hrl].
        -- by rewrite decide_True by (apply elem_of_app; by left).
        -- rewrite decide_False; [done|].
           intros [?|Hra%list_elem_of_singleton]%elem_of_app; done.
Qed.

(** X4.  Row normalisation does not change what a sweep computes: when the
    row stride is at least n, the buffers hold the n rows, and the sweep
    order lists rows below n with a nonzero diagonal entry, without
    repetition, then for every row in the order and every iterate x the
    residual computed from the normalised A and b equals the residual
    computed from the original A and b divided by the original diagonal
    entry, and the normalised diagonal entry is 1; rows outside the order
    keep their entries of A and b. *)
Theorem X4_normalised_rows_give_the_same_update n nskip m (x : list double) :
  (n ≤ nskip)%nat →
  NoDup (mCacheOrder m) →
  (∀ i, i ∈ mCacheOrder m →
        (i < n)%nat ∧ bufA m !!! (nskip * i + i)%nat ≠ 0) →
  (nskip * n ≤ length (bufA m))%nat →
  (n ≤ length (bufb m))%nat →
  let m' := normalize n nskip m in
  (∀ index, index ∈ mCacheOrder m →
     Pgs.offdiag n nskip index (bufA m') x (bufb m' !!! index)
     = Pgs.offdiag n nskip index (bufA m) x (bufb m !!! index)
       / bufA m !!! (nskip * index + index)%nat
     ∧ bufA m' !!! (nskip * index + index)%nat = 1)
  ∧ (∀ r j, (r < n)%nat → (j < n)%nat → r ∉ mCacheOrder m →
            bufA m' !!! (nskip * r + j)%nat = bufA m !!! (nskip * r + j)%nat
            ∧ bufb m' !!! r = bufb m !!! r).
Proof.
  intros Hskip Hnd Hreg HlA Hlb m'. subst m'. unfold Pgs.normalize.
  assert (∀ i, i ∈ mCacheOrder m → (i < n)%nat) as Hlt
    by (intros i Hi; by apply Hreg).
  destruct (normalize_rows_effect n nskip (mCacheOrder m) m
              Hskip Hnd Hlt HlA Hlb) as (_ & _ & HA & Hb).
  cbv zeta in HA, Hb.
  set (m' := fold_left (normalize_row n nskip) (mCacheOrder m) m) in *.
  split.
  - intros index Hin. pose proof (Hlt index Hin) as Hi. split.
    + rewrite Hb, decide_True by done.
      rewrite (offdiag_scaled n nskip index (bufA m) (bufA m') x).
      * unfold Qcdiv. by rewrite Qcmult_1_l.
      * done.
      * intros j Hj. by rewrite HA, decide_True.
    + rewrite HA, decide_True by done.
      unfold Qcdiv. rewrite Qcmult_1_l. apply Qcmult_inv_r. by apply Hreg.
  - intros r j Hr Hj Hnot. by rewrite HA, Hb, !decide_False.
Qed.

(** *** The helper singleIterationForNormalizedA *)

Lemma fold_left_by_index {S A : Type} `{!Inhabited A} (f : S → A → S)
  (l : list A) (k : nat) (s : S) :
  (k ≤ length l)%nat →
  fold_left (fun s i => f s (l !!! i)) (seq 0 k) s = fold_left f (take k l) s.
Proof.
  induction k as [|k IH]; intros Hk; [done|].
  rewrite fold_left_seq_S, IH by lia.
  rewrite (take_S_r l k (l !!! k)) by (apply list_lookup_lookup_total_lt; lia).
  by rewrite fold_left_app.
Qed.

(** X5.  The helper singleIterationForNormalizedA visits the first n_new
    entries of the order array it is given and updates each row exactly as
    the sweep loop of solve does; called with the solver's sweep order, its
    full length and the flag set, it performs one sweep of solve and returns
    that sweep's termination flag. *)
Theorem X5_singleIteration_is_one_sweep nskip (order : list nat) n n_new m
  (sentinel : bool) :
  (n_new ≤ length order)%nat →
  Pgs.singleIterationForNormalizedA Rng mOption nskip order n n_new m sentinel
  = fold_left (sweep_body n nskip) (take n_new order) (m, sentinel)
  ∧ (n_new = length order → order = mCacheOrder m → sentinel = true →
     Pgs.singleIterationForNormalizedA Rng mOption nskip order n n_new m sentinel
     = sweep n nskip m).
Proof.
  intros Hn.
  assert (Pgs.singleIterationForNormalizedA Rng mOption nskip order n n_new m
            sentinel
          = fold_left (sweep_body n nskip) (take n_new order) (m, sentinel))
    as Heq.
  { unfold Pgs.singleIterationForNormalizedA.
    rewrite <-(fold_left_by_index (sweep_body n nskip) order n_new) by done.
    done. }
  split; [done|]. intros -> -> ->. rewrite Heq.
  rewrite take_ge by done. done.
Qed.

(** *** What solve leaves in A and b *)

Lemma shuffle_keeps_A_b m :
  bufA (shuffle m) = bufA m ∧ bufb (shuffle m) = bufb m.
Proof.
  unfold Pgs.shuffle. generalize (seq 1 (length (mCacheOrder m) - 1)).
  intros l.
  apply (fold_left_inv (fun m' => bufA m' = bufA m ∧ bufb m' = bufb m));
    [done|].
  intros m' j _ H. unfold Pgs.shuffle_body.
  by destruct (dRandInt (rng m') (j + 1)).
Qed.

Lemma row_updates_keep_A_b n nskip l m :
  bufA (fold_left (row_update n nskip) l m) = bufA m
  ∧ bufb (fold_left (row_update n nskip) l m) = bufb m.
Proof.
  apply (fold_left_inv (fun m' => bufA m' = bufA m ∧ bufb m' = bufb m));
    [done|].
  by intros m' j _ H.
Qed.

(** X20.  The pointer-based solve works on A and b in place.  On the
    iterative path (nub < n), with the n rows inside the buffers, a
    stride of at least n and a positive mEpsilonForDivision: if the
    first sweep already reports convergence, A and b are returned as
    given; otherwise every regular row of A and its entry of b are
    returned divided by the row's diagonal entry, and every degenerate
    row and its entry of b are returned as given. *)
Theorem X20_solve_scales_regular_rows_in_place n nub m :
  let nskip := dPAD n in
  (nub < Z.of_nat n)%Z → (n ≤ nskip)%nat →
  (nskip * n ≤ length (bufA m))%nat → (n ≤ length (bufb m))%nat →
  0 < mEpsilonForDivision mOption →
  let m' := solve n nub m in
  ((first_sweep n nskip m).2 = true → bufA m' = bufA m ∧ bufb m' = bufb m)
  ∧ ((first_sweep n nskip m).2 = false →
     ∀ r, (r < n)%nat →
          (degenerate nskip (bufA m) r →
           bufb m' !!! r = bufb m !!! r
           ∧ ∀ j, (j < n)%nat →
                  bufA m' !!! (nskip * r + j)%nat
                  = bufA m !!! (nskip * r + j)%nat)
          ∧ (¬ degenerate nskip (bufA m) r →
             bufb m' !!! r = bufb m !!! r / bufA m !!! (nskip * r + r)%nat
             ∧ ∀ j, (j < n)%nat →
                    bufA m' !!! (nskip * r + j)%nat
                    = bufA m !!! (nskip * r + j)%nat
                      / bufA m !!! (nskip * r + r)%nat)).
Proof.
  intros nskip Hnub Hskip HlA Hlb _ m'. subst m'.
  unfold Pgs.solve. rewrite decide_False by lia. fold nskip.
  pose proof (first_loop_shape n nskip n m) as Hs. cbv zeta in Hs.
  rewrite <-first_sweep_loop in Hs.
  destruct Hs as (HA & Hb & _ & _ & _ & Hord & _ & _).
  destruct (first_sweep n nskip m) as [m1 p]. simpl in HA, Hb, Hord. simpl.
  split; intros ->; [done|].
  set (mn := normalize n nskip m1).
  assert (bufA (iterate n nskip (Z.to_nat (mMaxIteration mOption - 1)) 1 mn)
          = bufA mn
          ∧ bufb (iterate n nskip (Z.to_nat (mMaxIteration mOption - 1)) 1 mn)
            = bufb mn) as [-> ->].
  { apply (iterate_inv (fun m' => bufA m' = bufA mn ∧ bufb m' = bufb mn));
      [| |done].
    - intros _ m2 [<- <-]. apply shuffle_keeps_A_b.
    - intros m2 [<- <-]. apply row_updates_keep_A_b. }
  subst mn. unfold Pgs.normalize.
  destruct (normalize_rows_effect n nskip (mCacheOrder m1) m1)
    as (_ & _ & HAe & Hbe); [done | | |congruence|congruence|].
  { rewrite Hord. apply NoDup_filter, NoDup_seq. }
  { intros i. rewrite Hord. intros [_ Hi%elem_of_seq]%list_elem_of_filter. lia. }
  cbv zeta in HAe, Hbe.
  assert (∀ r, (r < n)%nat →
            r ∈ mCacheOrder m1 ↔ ¬ degenerate nskip (bufA m) r) as Hin.
  { intros r Hr. rewrite Hord, list_elem_of_filter, elem_of_seq.
    split; [by intros [? _] | intros ?; split; [done | lia]]. }
  intros r Hr. split; intros Hdeg.
  - rewrite Hbe by done. rewrite decide_False by (rewrite Hin by done; tauto).
    split; [by rewrite Hb|]. intros j Hj.
    rewrite HAe by done. rewrite decide_False by (rewrite Hin by done; tauto).
    by rewrite HA.
  - rewrite Hbe by done. rewrite decide_True by (by apply Hin).
    rewrite HA, Hb. split.
    + unfold Qcdiv. by rewrite Qcmult_1_l.
    + intros j Hj. rewrite HAe by done.
      rewrite decide_True by (by apply Hin).
      rewrite HA. unfold Qcdiv. by rewrite Qcmult_1_l.
Qed.

End PgsFacts.

(** ** The pointer-based solver on concrete instances *)

Lemma OdeModel_dRandInt_range (r : Z) (k : nat) :
  (0 < k)%nat → ((OdeModel.dRandInt r k).1 < k)%nat.
Proof.
  intros Hk. unfold OdeModel.dRandInt, OdeModel.dRand. simpl fst.
  pose proof (Z.mod_pos_bound (1664525 * r + 1013904223) (2 ^ 32) ltac:(lia))
    as [Hlo Hhi].
  set (s := ((1664525 * r + 1013904223) mod 2 ^ 32)%Z) in *.
  assert (0 ≤ s * Z.of_nat k / 2 ^ 32 < Z.of_nat k)%Z as [H0 H1].
  { split.
    - apply Z.div_pos; lia.
    - apply Z.div_lt_upper_bound; [lia|]. nia. }
  lia.
Qed.

Example scenario_S1 : bufx (pgs_solve default_option 1 0 S1) = [dbl 2 1].
Proof. compute_done. Qed.

Example scenario_S2 : bufx (pgs_solve default_option 1 0 S2) = [1].
Proof. compute_done. Qed.

Example scenario_S3 :
  bufx (pgs_solve default_option 2 2 S3) = [dbl 1 11; dbl 7 11].
Proof. compute_done. Qed.

Example scenario_S4 : bufx (pgs_solve default_option 2 0 S4) = [1; 0].
Proof. compute_done. Qed.

Example scenario_S5 :
  bufx (pgs_solve default_option 3 0 S5) = [dbl 10 1; dbl 5 1; dbl (-5) 1].
Proof. compute_done. Qed.

(** C4.  On the iterative path (nub < n), every row whose diagonal is below
    epsilonForDivision has x equal to 0 on return and is absent from the
    sweep order on return, so no later sweep has updated it; and on the
    instance S6 (A = [[0,0],[0,2]], b = [7,4], wide bounds, findex =
    [-1,-1]) the solver returns x = [0,2] with the sweep order [1]. *)
Theorem C4_degenerate_rows_inactive :
  (∀ (dPAD : nat → nat) dFactorLDLT dSolveLDLT (Rng : Type)
     (dRandInt : Rng → nat → nat * Rng) (mOption : Option_),
     (∀ r k, (0 < k)%nat → ((dRandInt r k).1 < k)%nat) →
     ∀ (n : nat) (nub : Z) (m : Mem Rng) (i : nat),
       (nub < Z.of_nat n)%Z → (i < n)%nat →
       bufA m !!! (dPAD n * i + i)%nat < mEpsilonForDivision mOption →
       let m' := Pgs.solve dPAD dFactorLDLT dSolveLDLT Rng dRandInt mOption
                           n nub m in
       bufx m' !!! i = 0 ∧ i ∉ mCacheOrder m')
  ∧ (∀ seed,
       let m' := pgs_solve default_option 2 0 (S6 seed) in
       bufx m' = [0; dbl 2 1] ∧ mCacheOrder m' = [1%nat]).
Proof.
  split.
  - intros dPAD dF dS Rng dRandInt mOption Hrange n nub m i Hnub Hi Hd m'.
    by apply degenerate_row_inactive.
  - intros seed. split; compute_done.
Qed.

Lemma C4_degenerate_rows_inactive_witness :
  bufx (pgs_solve default_option 2 0 (S6 0)) !!! 0%nat = 0
  ∧ 0%nat ∉ mCacheOrder (pgs_solve default_option 2 0 (S6 0)).
Proof.
  unfold pgs_solve.
  apply (proj1 C4_degenerate_rows_inactive dPAD4 OdeModel.dFactorLDLT
               OdeModel.dSolveLDLT Z OdeModel.dRandInt default_option
               OdeModel_dRandInt_range 2%nat 0%Z (S6 0) 0%nat).
  - lia.
  - lia.
  - compute_done.
Defined.

Lemma C5_unbounded_direct_path_witness :
  bufx (pgs_solve default_option 2 2 S3) !!! 1%nat
  = bufb (pgs_solve default_option 2 2 S3) !!! 1%nat.
Proof.
  unfold pgs_solve.
  refine (proj1 (proj2 (C5_unbounded_direct_path dPAD4 OdeModel.dFactorLDLT
           OdeModel.dSolveLDLT Z OdeModel.dRandInt default_option
           2%nat 2%Z S3 _ _)) 1%nat _).
  - lia.
  - simpl. lia.
  - lia.
Defined.

(** Box containment does not extend to a degenerate row: with
    A = [[0]], lo = [1], hi = [2], findex = [-1] the solver returns
    x = [0], below lo.  Nor does it hold on a regular row whose bounds are
    crossed: with A = [[1]], b = [5], lo = [2], hi = [1] the solver returns
    x = [1], below lo. *)
Lemma C6_degenerate_row_leaves_box :
  let m := degenerate_box in
  let m' := pgs_solve default_option 1 0 m in
  let c := crossed_bounds in
  let c' := pgs_solve default_option 1 0 c in
  (0 < Z.of_nat 1)%Z
  ∧ ((buffindex m !!! 0%nat < 0)%Z
     ∧ bufx m' !!! 0%nat = 0
     ∧ ¬ (buflo m !!! 0%nat ≤ bufx m' !!! 0%nat ≤ bufhi m !!! 0%nat))
  ∧ ((buffindex c !!! 0%nat < 0)%Z
     ∧ bufx c' !!! 0%nat = 1
     ∧ ¬ (buflo c !!! 0%nat ≤ bufx c' !!! 0%nat ≤ bufhi c !!! 0%nat)).
Proof. repeat split; compute_done. Qed.

Lemma C6_box_containment_regular_rows_witness :
  buflo S2 !!! 0%nat ≤ bufx (pgs_solve default_option 1 0 S2) !!! 0%nat
  ≤ bufhi S2 !!! 0%nat.
Proof.
  unfold pgs_solve.
  apply (C6_box_containment_regular_rows dPAD4 OdeModel.dFactorLDLT
           OdeModel.dSolveLDLT Z OdeModel.dRandInt default_option
           1%nat 0%Z S2 0%nat).
  - by compute.
  - lia.
  - simpl. lia.
  - lia.
  - compute_done.
  - simpl. lia.
  - compute_done.
Defined.

(** The friction bound against the final x[k] fails when the friction
    index points to a later row: row 0 is clamped against the value of row 1
    from the previous sweep, and row 1 then moves (default options, x zero
    on entry).  It also fails for a friction row after its normal row once
    the randomised order has put the friction row first (default options,
    x zero on entry, the stand-in random source seeded with 3). *)
Lemma C3_later_normal_row_breaks_cone :
  let m := later_normal_row in
  let m' := pgs_solve default_option 2 0 m in
  let s := shuffled_friction in
  let s' := pgs_solve default_option 2 0 s in
  (0 < Z.of_nat 2)%Z
  ∧ (0 ≤ bufhi m !!! 0%nat ∧ 0 ≤ bufhi m !!! 1%nat
     ∧ buffindex m !!! 0%nat = 1%Z
     ∧ bufx m' = [dbl 9091 5000; dbl 90909 50000]
     ∧ ¬ (Qcabs (bufx m' !!! 0%nat)
          ≤ bufhi m !!! 0%nat * Qcabs (bufx m' !!! 1%nat)))
  ∧ (0 ≤ bufhi s !!! 0%nat ∧ 0 ≤ bufhi s !!! 1%nat
     ∧ buffindex s !!! 1%nat = 0%Z
     ∧ mCacheOrder s' = [1%nat; 0%nat]
     ∧ ¬ (Qcabs (bufx s' !!! 1%nat)
          ≤ bufhi s !!! 1%nat * Qcabs (bufx s' !!! 0%nat))).
Proof. repeat split; compute_done. Qed.

Lemma C3_friction_cone_earlier_normal_row_witness :
  Qcabs (bufx (pgs_solve fixed_order_option 3 0 S5) !!! 1%nat)
  ≤ bufhi S5 !!! 1%nat
    * Qcabs (bufx (pgs_solve fixed_order_option 3 0 S5) !!! 0%nat).
Proof.
  unfold pgs_solve.
  apply (C3_friction_cone_earlier_normal_row dPAD4 OdeModel.dFactorLDLT
           OdeModel.dSolveLDLT Z OdeModel.dRandInt fixed_order_option
           3%nat 0%Z S5 1%nat 0%nat).
  - by compute.
  - lia.
  - reflexivity.
  - simpl. lia.
  - lia.
  - reflexivity.
  - lia.
  - compute_done.
Defined.

(** Idempotence does not extend to a degenerate row: with A = [[0]]
    and x = [5] on entry no row is updated, the solver returns after the
    first sweep, and x = [0] is 5 away from the input. *)
Lemma C8_degenerate_row_moves :
  let m := degenerate_nonzero in
  let m' := pgs_solve default_option 1 0 m in
  (∀ i, (i < 1)%nat →
        mEpsilonForDivision default_option ≤ bufA m !!! (dPAD4 1 * i + i)%nat →
        Qcabs (bufx (Pgs.first_sweep Z default_option 1 (dPAD4 1) m).1 !!! i
               - bufx m !!! i)
        ≤ mDeltaXThreshold default_option)
  ∧ m' = (Pgs.first_sweep Z default_option 1 (dPAD4 1) m).1
  ∧ ¬ (Qcabs (bufx m' !!! 0%nat - bufx m !!! 0%nat)
       ≤ mDeltaXThreshold default_option).
Proof.
  split; [|split].
  - intros i Hi Hreg. exfalso. assert (i = 0%nat) as -> by lia.
    revert Hreg. compute_done.
  - compute_done.
  - compute_done.
Qed.

Lemma C8_converged_first_sweep_returns_witness :
  pgs_solve default_option 1 0 already_solved
  = (Pgs.first_sweep Z default_option 1 (dPAD4 1) already_solved).1.
Proof.
  unfold pgs_solve.
  apply (C8_converged_first_sweep_returns dPAD4 OdeModel.dFactorLDLT
           OdeModel.dSolveLDLT Z OdeModel.dRandInt default_option
           1%nat 0%Z already_solved).
  - lia.
  - intros i Hi _. assert (i = 0%nat) as -> by lia. compute_done.
Defined.

(** ** canSolve *)

Lemma forallb_false {A : Type} (f : A → bool) (l : list A) :
  forallb f l = false ↔ ∃ a, a ∈ l ∧ f a = false.
Proof.
  induction l as [|a l IH]; simpl.
  - split; [done|]. intros (a & Ha & _). by apply elem_of_nil in Ha.
  - rewrite andb_false_iff, IH. split.
    + intros [Ha|(a' & Hin & Ha')].
      * exists a. split; [left | done].
      * exists a'. split; [by right | done].
    + intros (a' & Hin & Ha'). apply elem_of_cons in Hin as [->|Hin].
      * by left.
      * right. by exists a'.
Qed.

Section CanSolveFacts.
Variable dPAD : nat → nat.

Lemma canSolve_row_false n nskip A i :
  canSolve_row n nskip A i = false
  ↔ diagonal_small nskip A i ∨ ∃ j, (j < n)%nat ∧ asymmetric nskip A i j.
Proof.
  unfold canSolve_row, diagonal_small, asymmetric. case_decide as Hd.
  - split; [by left | done].
  - rewrite forallb_false. split.
    + intros (j & Hj%elem_of_seq & Hc). right. exists j. split; [lia|].
      by case_decide.
    + intros [?|(j & Hj & Ha)]; [done|]. exists j.
      split; [apply elem_of_seq; lia|]. by rewrite decide_True.
Qed.

(** C7 (amended).  canSolve(n, A) returns false if and only if some
    diagonal entry satisfies A[i,i] < PGS_EPSILON or some pair satisfies
    |A[i,j] - A[j,i]| > PGS_EPSILON, for 0 <= i, j < n over the
    padded-stride matrix, and returns true otherwise; PGS_EPSILON is
    10e-9, that is 1e-8. *)
Theorem C7_canSolve_characterisation (n : nat) (A : list double) :
  (canSolve dPAD n A = false
   ↔ (∃ i, (i < n)%nat ∧ A !!! (dPAD n * i + i)%nat < PGS_EPSILON)
     ∨ (∃ i j, (i < n)%nat ∧ (j < n)%nat
               ∧ PGS_EPSILON
                 < Qcabs (A !!! (dPAD n * i + j)%nat
                          - A !!! (dPAD n * j + i)%nat)))
  ∧ (canSolve dPAD n A = true
     ↔ (∀ i, (i < n)%nat → PGS_EPSILON ≤ A !!! (dPAD n * i + i)%nat)
       ∧ (∀ i j, (i < n)%nat → (j < n)%nat →
                 Qcabs (A !!! (dPAD n * i + j)%nat
                        - A !!! (dPAD n * j + i)%nat) ≤ PGS_EPSILON))
  ∧ PGS_EPSILON = dbl 1 100000000.
Proof.
  assert (canSolve dPAD n A = false
   ↔ (∃ i, (i < n)%nat ∧ diagonal_small (dPAD n) A i)
     ∨ (∃ i j, (i < n)%nat ∧ (j < n)%nat ∧ asymmetric (dPAD n) A i j))
    as Hfalse.
  { unfold canSolve. rewrite forallb_false. split.
    - intros (i & Hi%elem_of_seq & Hrow).
      apply canSolve_row_false in Hrow as [Hd|(j & Hj & Ha)].
      + left. exists i. split; [lia|done].
      + right. exists i, j. split; [lia|done].
    - intros [(i & Hi & Hd)|(i & j & Hi & Hj & Ha)].
      + exists i. split; [apply elem_of_seq; lia|].
        apply canSolve_row_false. by left.
      + exists i. split; [apply elem_of_seq; lia|].
        apply canSolve_row_false. right. by exists j. }
  split; [exact Hfalse|]. split; [|compute_done].
  split.
  - intros Htrue. split.
    + intros i Hi. apply Qcnot_lt_le. intros Hd.
      assert (canSolve dPAD n A = false) as Hf; [|congruence].
      apply Hfalse. left. by exists i.
    + intros i j Hi Hj. apply Qcnot_lt_le. intros Ha.
      assert (canSolve dPAD n A = false) as Hf; [|congruence].
      apply Hfalse. right. by exists i, j.
  - intros [Hd Ha]. apply not_false_iff_true. intros Hc.
    apply Hfalse in Hc as [(i & Hi & Hc)|(i & j & Hi & Hj & Hc)].
    + exfalso. eapply Qclt_not_le; [exact Hc | by apply Hd].
    + exfalso. eapply Qclt_not_le; [exact Hc | by apply Ha].
Qed.

End CanSolveFacts.

Section IsSymmetricFacts.
Variable dPAD : nat → nat.

Lemma symmetric_pair_true nSkip A i j :
  symmetric_pair nSkip A i j = true
  ↔ Qcabs (A !!! (nSkip * i + j)%nat - A !!! (nSkip * j + i)%nat)
    ≤ dbl 1 1000000.
Proof.
  unfold symmetric_pair. case_decide as H.
  - split; [done|]. intros H'. by apply Qcle_not_lt in H'.
  - split; [|done]. intros _. by apply Qcnot_lt_le.
Qed.

Lemma forallb_pairs (f : nat → nat → bool) (l : list nat) :
  forallb (fun i => forallb (f i) l) l = true
  ↔ ∀ i j, i ∈ l → j ∈ l → f i j = true.
Proof.
  rewrite forallb_forall. split.
  - intros H i j Hi Hj. apply list_elem_of_In in Hi, Hj.
    specialize (H i Hi). rewrite forallb_forall in H. by apply H.
  - intros H i Hi. apply forallb_forall. intros j Hj.
    apply H; by apply list_elem_of_In.
Qed.

(** X12.  isSymmetric(n, A) returns true exactly when
    |A[i,j] - A[j,i]| <= 1e-6 for all 0 <= i, j < n of the padded-stride
    matrix; isSymmetric(n, A, begin, end) returns true exactly when the
    same holds for all begin <= i, j <= end, both ends included. *)
Theorem X12_isSymmetric_characterisation (n : nat) (A : list double) :
  (isSymmetric dPAD n A = true
   ↔ ∀ i j, (i < n)%nat → (j < n)%nat →
            Qcabs (A !!! (dPAD n * i + j)%nat - A !!! (dPAD n * j + i)%nat)
            ≤ dbl 1 1000000)
  ∧ ∀ begin_ end_,
      isSymmetric_range dPAD n A begin_ end_ = true
      ↔ ∀ i j, (begin_ ≤ i ≤ end_)%nat → (begin_ ≤ j ≤ end_)%nat →
               Qcabs (A !!! (dPAD n * i + j)%nat - A !!! (dPAD n * j + i)%nat)
               ≤ dbl 1 1000000.
Proof.
  split; [|intros begin_ end_];
    unfold isSymmetric, isSymmetric_range; cbv zeta;
    rewrite forallb_pairs; split.
  - intros H i j Hi Hj. apply symmetric_pair_true.
    apply H; apply elem_of_seq; lia.
  - intros H i j Hi%elem_of_seq Hj%elem_of_seq. apply symmetric_pair_true.
    apply H; lia.
  - intros H i j Hi Hj. apply symmetric_pair_true.
    apply H; apply elem_of_seq; lia.
  - intros H i j Hi%elem_of_seq Hj%elem_of_seq. apply symmetric_pair_true.
    apply H; lia.
Qed.

(** X13.  A matrix accepted by PgsBoxedLcpSolver::canSolve passes both
    symmetry checks of the constraint solver, isSymmetric(n, A) and
    isSymmetric(n, A, begin, end) for every range with end < n: canSolve
    compares with PGS_EPSILON = 1e-8, the two checks with the wider
    1e-6. *)
Theorem X13_canSolve_implies_isSymmetric (n : nat) (A : list double) :
  canSolve dPAD n A = true →
  isSymmetric dPAD n A = true
  ∧ ∀ begin_ end_, (end_ < n)%nat →
                   isSymmetric_range dPAD n A begin_ end_ = true.
Proof.
  intros Hcan.
  assert (∀ i j, (i < n)%nat → (j < n)%nat →
            symmetric_pair (dPAD n) A i j = true) as Hpair.
  { intros i j Hi Hj. apply symmetric_pair_true.
    unfold canSolve in Hcan. cbv zeta in Hcan.
    rewrite forallb_forall in Hcan.
    specialize (Hcan i ltac:(apply in_seq; lia)).
    unfold canSolve_row in Hcan. case_decide; [done|].
    rewrite forallb_forall in Hcan.
    specialize (Hcan j ltac:(apply in_seq; lia)). cbv beta in Hcan.
    case_decide as Hsym; [done|].
    apply Qcnot_lt_le in Hsym.
    eapply Qcle_trans; [exact Hsym|]. by compute. }
  split.
  - unfold isSymmetric. cbv zeta. apply forallb_pairs.
    intros i j Hi%elem_of_seq Hj%elem_of_seq. apply Hpair; lia.
  - intros begin_ end_ Hend. unfold isSymmetric_range. cbv zeta.
    apply forallb_pairs.
    intros i j Hi%elem_of_seq Hj%elem_of_seq. apply Hpair; lia.
Qed.

End IsSymmetricFacts.

(** With the tolerance 1e-9 the characterisation fails: the 1-by-1 matrix
    [[5e-9]] has its diagonal above 1e-9 and is symmetric, and canSolve
    rejects it. *)
Lemma C7_tolerance_is_not_1e_9 :
  let eps_sym := dbl 1 1000000000 in
  let A := [dbl 5 1000000000; 0; 0; 0] in
  canSolve dPAD4 1 A = false
  ∧ ¬ ((∃ i, (i < 1)%nat ∧ A !!! (dPAD4 1 * i + i)%nat < eps_sym)
       ∨ (∃ i j, (i < 1)%nat ∧ (j < 1)%nat
                 ∧ eps_sym < Qcabs (A !!! (dPAD4 1 * i + j)%nat
                                    - A !!! (dPAD4 1 * j + i)%nat))).
Proof.
  split; [compute_done|].
  intros [(i & Hi & H)|(i & j & Hi & Hj & H)].
  - assert (i = 0%nat) as -> by lia. revert H. compute_done.
  - assert (i = 0%nat) as -> by lia. assert (j = 0%nat) as -> by lia.
    revert H. compute_done.
Qed.

(** ** The matrix-form sweep *)

Section SweepFacts.
Import PgsMatrix.

Lemma sum_over_snoc l a f : sum_over (l ++ [a]) f = sum_over l f + f a.
Proof. unfold sum_over. by rewrite fold_left_app. Qed.

Lemma sum_over_ext l f g :
  (∀ j, j ∈ l → f j = g j) → sum_over l f = sum_over l g.
Proof.
  unfold sum_over. generalize 0.
  induction l as [|a l IH]; intros acc H; simpl; [done|].
  rewrite (H a) by left. apply IH. intros j Hj. apply H. by right.
Qed.

Lemma lookup_total_map_seq (f : nat → double) (n i : nat) :
  (i < n)%nat → map f (seq 0 n) !!! i = f i.
Proof.
  intros Hi. apply list_lookup_total_correct.
  by rewrite list_lookup_fmap, lookup_seq_lt.
Qed.

(** Forward substitution: after [t] rows the prefix has length [t] and
    each of its rows satisfies its equation. *)
Lemma lower_solve_rows (A : Matrix) (z : list double) (t : nat) :
  (∀ i, (i < t)%nat → coeff A i i ≠ 0) →
  let xs := lower_solve false A z t in
  length xs = t
  ∧ ∀ i, (i < t)%nat →
         sum_over (seq 0 (S i)) (fun j => coeff A i j * xs !!! j) = z !!! i.
Proof.
  induction t as [|t IH]; intros Hd; cbv zeta.
  - split; [done|]. intros i Hi. lia.
  - unfold lower_solve. rewrite fold_left_seq_S.
    fold (lower_solve false A z t).
    destruct (IH ltac:(intros; apply Hd; lia)) as [Hlen Hrow].
    set (xs := lower_solve false A z t) in *.
    split; [rewrite length_app; simpl; lia|].
    intros i Hi. destruct (decide (i = t)) as [->|Hne].
    + rewrite seq_S, sum_over_snoc. simpl.
      rewrite (sum_over_ext _ _ (fun j => coeff A t j * xs !!! j)).
      * rewrite list_lookup_total_middle by done.
        rewrite Qcmult_div_r by (apply Hd; lia).
        generalize (sum_over (seq 0 t) (fun j => coeff A t j * xs !!! j)).
        generalize (z !!! t). clear. intros u v. ring.
      * intros j Hj%elem_of_seq.
        by rewrite lookup_total_app_l by lia.
    + rewrite <-(Hrow i) by lia. apply sum_over_ext.
      intros j Hj%elem_of_seq. by rewrite lookup_total_app_l by lia.
Qed.

(** What one forward sweep computes: the solution of
    (L + D) x_new = -(U x_old) - b. *)
Lemma sweepForward_equation (A : Matrix) (x b : list double) :
  let n := length b in
  (∀ i, (i < n)%nat → coeff A i i ≠ 0) →
  let x_new := sweepForward A x b in
  length x_new = n
  ∧ ∀ i, (i < n)%nat →
         sum_over (seq 0 (S i)) (fun j => coeff A i j * x_new !!! j)
         = - strictlyUpper_times A x n i - b !!! i.
Proof.
  intros n Hd x_new. subst x_new. unfold sweepForward. fold n.
  destruct (lower_solve_rows A
              (map (fun i => map (fun i => - b !!! i) (seq 0 n) !!! i
                             - strictlyUpper_times A x n i) (seq 0 n))
              n Hd) as [Hlen Hrow].
  split; [done|]. intros i Hi. rewrite Hrow by done.
  rewrite !lookup_total_map_seq by done.
  generalize (strictlyUpper_times A x n i) (b !!! i). clear.
  intros u v. ring.
Qed.

(** *** What the four sweeps solve *)

Lemma lower_solve_unit_rows (A : Matrix) (z : list double) (t : nat) :
  let xs := lower_solve true A z t in
  length xs = t
  ∧ ∀ i, (i < t)%nat →
         xs !!! i + sum_over (seq 0 i) (fun j => coeff A i j * xs !!! j)
         = z !!! i.
Proof.
  induction t as [|t IH]; cbv zeta.
  - split; [done|]. intros i Hi. lia.
  - unfold lower_solve. rewrite fold_left_seq_S.
    fold (lower_solve true A z t).
    destruct IH as [Hlen Hrow].
    set (xs := lower_solve true A z t) in *.
    split; [rewrite length_app; simpl; lia|].
    intros i Hi. destruct (decide (i = t)) as [->|Hne].
    + rewrite list_lookup_total_middle by done.
      rewrite (sum_over_ext _ (fun j => coeff A t j * (xs ++ _) !!! j)
                 (fun j => coeff A t j * xs !!! j)).
      * generalize (sum_over (seq 0 t) (fun j => coeff A t j * xs !!! j)).
        generalize (z !!! t). clear. intros u v. ring.
      * intros j Hj%elem_of_seq. by rewrite lookup_total_app_l by lia.
    + rewrite <-(Hrow i) by lia. rewrite lookup_total_app_l by lia. f_equal.
      apply sum_over_ext.
      intros j Hj%elem_of_seq. by rewrite lookup_total_app_l by lia.
Qed.

(** Backward substitution: once the rows from [n - p] up have been
    processed, each of them satisfies its equation. *)
Lemma upper_solve_rows (unit : bool) (A : Matrix) (z : list double) (n : nat) :
  (unit = false → ∀ i, (i < n)%nat → coeff A i i ≠ 0) →
  let xs := upper_solve unit A z n in
  length xs = n
  ∧ ∀ i, (i < n)%nat →
         (if unit then xs !!! i else coeff A i i * xs !!! i)
         + sum_over (seq (i + 1) (n - (i + 1))) (fun j => coeff A i j * xs !!! j)
         = z !!! i.
Proof.
  intros Hd. cbv zeta. unfold upper_solve.
  set (step := fun (xs : list double) (i : nat) =>
    <[i := if unit
           then z !!! i - sum_over (seq (i + 1) (n - (i + 1)))
                            (fun j => coeff A i j * xs !!! j)
           else (z !!! i - sum_over (seq (i + 1) (n - (i + 1)))
                             (fun j => coeff A i j * xs !!! j))
                / coeff A i i]> xs).
  assert (∀ p, (p ≤ n)%nat →
    let xs := fold_left step (rev (seq (n - p) p)) (replicate n 0) in
    length xs = n
    ∧ ∀ i, (n - p ≤ i < n)%nat →
           (if unit then xs !!! i else coeff A i i * xs !!! i)
           + sum_over (seq (i + 1) (n - (i + 1)))
               (fun j => coeff A i j * xs !!! j)
           = z !!! i) as Hloop.
  { induction p as [|p IH]; intros Hp; cbv zeta.
    - simpl. rewrite length_replicate. split; [done|]. intros i Hi. lia.
    - destruct (IH ltac:(lia)) as [Hlen Hrow]. cbv zeta in Hlen, Hrow.
      replace (seq (n - S p) (S p)) with ((n - S p)%nat :: seq (n - p) p)
        by (simpl; f_equal; f_equal; lia).
      simpl rev. rewrite fold_left_app. simpl fold_left.
      set (xs := fold_left step (rev (seq (n - p) p)) (replicate n 0)) in *.
      set (a := (n - S p)%nat).
      split; [unfold step; by rewrite length_insert|].
      intros i Hi. unfold step.
      assert (∀ v, sum_over (seq (i + 1) (n - (i + 1)))
                     (fun j => coeff A i j * <[a := v]> xs !!! j)
                   = sum_over (seq (i + 1) (n - (i + 1)))
                       (fun j => coeff A i j * xs !!! j)) as Hsum.
      { intros v. apply sum_over_ext. intros j Hj%elem_of_seq.
        rewrite list_lookup_total_insert_ne; [done|]. subst a. lia. }
      rewrite Hsum.
      destruct (decide (i = a)) as [->|Hne].
      + rewrite list_lookup_total_insert_eq by (subst a; lia).
        generalize (sum_over (seq (a + 1) (n - (a + 1)))
                      (fun j => coeff A a j * xs !!! j)).
        generalize (z !!! a). intros u v.
        destruct unit.
        * clear. ring.
        * rewrite Qcmult_div_r by (apply Hd; [done | subst a; lia]).
          clear. ring.
      + rewrite list_lookup_total_insert_ne by done.
        apply Hrow. subst a. lia. }
  destruct (Hloop n ltac:(done)) as [Hlen Hrow]. cbv zeta in Hlen, Hrow.
  rewrite Nat.sub_diag in Hlen, Hrow.
  split; [done|]. intros i Hi. apply Hrow. lia.
Qed.

(** X6.  For a matrix with a nonzero diagonal, one forward sweep returns a
    vector of the length of b that solves
    (L + D) x_new = -(U x_old) - b, row by row, with L, D, U the strictly
    lower, diagonal and strictly upper parts of A. *)
Theorem X6_sweepForward_solves (A : Matrix) (x b : list double) :
  let n := length b in
  (∀ i, (i < n)%nat → coeff A i i ≠ 0) →
  let x_new := sweepForward A x b in
  length x_new = n
  ∧ ∀ i, (i < n)%nat →
         sum_over (seq 0 i) (fun j => coeff A i j * x_new !!! j)
         + coeff A i i * x_new !!! i
         = - strictlyUpper_times A x n i - b !!! i.
Proof.
  intros n Hd x_new.
  destruct (sweepForward_equation A x b Hd) as [Hlen Hrow].
  cbv zeta in Hlen, Hrow. subst n x_new.
  split; [done|]. intros i Hi. rewrite <-(Hrow i Hi).
  by rewrite seq_S, sum_over_snoc.
Qed.

(** X7.  One normalised forward sweep returns a vector of the length of b
    that solves (L + I) x_new = -(U x_old) - b: the diagonal of A is not
    read. *)
Theorem X7_sweepForwardNormalized_solves (A : Matrix) (x b : list double) :
  let n := length b in
  let x_new := sweepForwardNormalized A x b in
  length x_new = n
  ∧ ∀ i, (i < n)%nat →
         sum_over (seq 0 i) (fun j => coeff A i j * x_new !!! j) + x_new !!! i
         = - strictlyUpper_times A x n i - b !!! i.
Proof.
  intros n x_new. subst x_new. unfold sweepForwardNormalized. fold n.
  destruct (lower_solve_unit_rows A
              (map (fun i => map (fun i => - b !!! i) (seq 0 n) !!! i
                             - strictlyUpper_times A x n i) (seq 0 n)) n)
    as [Hlen Hrow].
  split; [done|]. intros i Hi.
  rewrite Qcplus_comm, Hrow by done.
  rewrite !lookup_total_map_seq by done.
  generalize (strictlyUpper_times A x n i) (b !!! i). clear.
  intros u v. ring.
Qed.

(** X8.  For a matrix with a nonzero diagonal, one backward sweep returns
    a vector of the length of b that solves
    (D + U) x_new = -(L x_old) - b; the normalised backward sweep solves
    (I + U) x_new = -(L x_old) - b for every matrix. *)
Theorem X8_sweepBackward_solves (A : Matrix) (x b : list double) :
  let n := length b in
  (∀ i, (i < n)%nat → coeff A i i ≠ 0) →
  let x_new := sweepBackward A x b in
  let x_unit := sweepBackwardNormalized A x b in
  (length x_new = n
   ∧ ∀ i, (i < n)%nat →
          coeff A i i * x_new !!! i
          + sum_over (seq (i + 1) (n - (i + 1)))
              (fun j => coeff A i j * x_new !!! j)
          = - strictlyLower_times A x i - b !!! i)
  ∧ (length x_unit = n
     ∧ ∀ i, (i < n)%nat →
            x_unit !!! i
            + sum_over (seq (i + 1) (n - (i + 1)))
                (fun j => coeff A i j * x_unit !!! j)
            = - strictlyLower_times A x i - b !!! i).
Proof.
  intros n Hd x_new x_unit. subst x_new x_unit.
  unfold sweepBackward, sweepBackwardNormalized. fold n.
  set (z := map (fun i => map (fun i => - b !!! i) (seq 0 n) !!! i
                          - strictlyLower_times A x i) (seq 0 n)).
  assert (∀ i, (i < n)%nat → z !!! i = - strictlyLower_times A x i - b !!! i)
    as Hz.
  { intros i Hi. subst z. rewrite !lookup_total_map_seq by done.
    generalize (strictlyLower_times A x i) (b !!! i). clear. intros u v. ring. }
  split.
  - destruct (upper_solve_rows false A z n ltac:(done)) as [Hlen Hrow].
    split; [done|]. intros i Hi. rewrite <-Hz by done. by apply Hrow.
  - destruct (upper_solve_rows true A z n ltac:(done)) as [Hlen Hrow].
    split; [done|]. intros i Hi. rewrite <-Hz by done. by apply Hrow.
Qed.

End SweepFacts.

(** *** The matrix-form [solve] *)

Section MatrixSolveFacts.
Import PgsMatrix.
Variable ldlt_solve : Matrix → list double → list double.
Variable mOption : Option_.

Lemma sum_over_scaled (l : list nat) (f g : nat → double) (d : double) :
  (∀ j, j ∈ l → f j = g j / d) → sum_over l f = sum_over l g / d.
Proof.
  unfold sum_over. intros Hfg.
  assert (∀ acc acc', acc = acc' / d →
            fold_left (fun acc j => acc + f j) l acc
            = fold_left (fun acc j => acc + g j) l acc' / d) as Hgen.
  { induction l as [|j l IH]; intros acc acc' Hacc; simpl; [done|].
    apply IH.
    - intros k Hk. apply Hfg. by right.
    - rewrite Hacc, (Hfg j) by by left.
      generalize (g j). clear. intros u. unfold Qcdiv. ring. }
  apply Hgen. unfold Qcdiv. ring.
Qed.

Lemma imap_lookup_total {X Y} `{Inhabited X, Inhabited Y}
  (f : nat → X → Y) (l : list X) (i : nat) :
  (i < length l)%nat → imap f l !!! i = f i (l !!! i).
Proof.
  intros Hi. apply list_lookup_total_correct.
  rewrite list_lookup_imap.
  destruct (lookup_lt_is_Some_2 l i Hi) as [v Hv].
  by rewrite Hv, (list_lookup_total_correct _ _ _ Hv).
Qed.

Lemma lookup_total_beyond {X} `{Inhabited X} (l : list X) (i : nat) :
  (length l ≤ i)%nat → l !!! i = inhabitant.
Proof.
  intros Hi. rewrite list_lookup_total_alt.
  by rewrite (lookup_ge_None_2 l i Hi).
Qed.

Lemma lookup_total_map {X Y} `{Inhabited X, Inhabited Y}
  (f : X → Y) (l : list X) (i : nat) :
  (i < length l)%nat → map f l !!! i = f (l !!! i).
Proof.
  revert i. induction l as [|a l IH]; intros i Hi; simpl in Hi; [lia|].
  destruct i as [|i]; [done|]. simpl. apply IH. lia.
Qed.

(** [A.array().colwise() / A.diagonal().array()], entry by entry. *)
Lemma coeff_normalized (A : Matrix) (i j : nat) :
  coeff (imap (fun i row => map (fun a => a / coeff A i i) row) A) i j
  = coeff A i j / coeff A i i.
Proof.
  unfold coeff, Matrix in *.
  destruct (decide (i < length A)%nat) as [Hi|Hi].
  - rewrite imap_lookup_total by done.
    destruct (decide (j < length (A !!! i))%nat) as [Hj|Hj].
    + by rewrite lookup_total_map by done.
    + rewrite !lookup_total_beyond by (rewrite ?length_map; lia).
      change (@inhabitant Qc _) with (0 : Qc). unfold Qcdiv. ring.
  - rewrite !(lookup_total_beyond _ i) by (rewrite ?length_imap; lia).
    change (@inhabitant (list Qc) _) with (@nil Qc).
    rewrite !lookup_total_beyond by (simpl; lia).
    change (@inhabitant Qc _) with (0 : Qc). unfold Qcdiv. ring.
Qed.

Lemma lower_solve_length (unit : bool) (A : Matrix) (z : list double) (t : nat) :
  length (lower_solve unit A z t) = t.
Proof.
  induction t as [|t IH]; [done|].
  unfold lower_solve. rewrite fold_left_seq_S.
  fold (lower_solve unit A z t). rewrite length_app, IH. simpl. lia.
Qed.

Lemma lower_solve_normalized (A A' : Matrix) (z z' : list double) (t : nat) :
  (∀ i j, coeff A' i j = coeff A i j / coeff A i i) →
  (∀ i, (i < t)%nat → z' !!! i = z !!! i / coeff A i i) →
  lower_solve true A' z' t = lower_solve false A z t.
Proof.
  intros HA Hz. induction t as [|t IH]; [done|].
  unfold lower_solve. rewrite !fold_left_seq_S.
  fold (lower_solve true A' z' t). fold (lower_solve false A z t).
  rewrite IH by (intros i Hi; apply Hz; lia).
  f_equal. f_equal.
  set (xs := lower_solve false A z t).
  rewrite (sum_over_scaled _ _ (fun j => coeff A t j * xs !!! j) (coeff A t t)).
  - rewrite Hz by lia.
    generalize (sum_over (seq 0 t) (fun j => coeff A t j * xs !!! j)).
    generalize (z !!! t) (coeff A t t). clear. intros u d v.
    unfold Qcdiv. ring.
  - intros j _. rewrite HA.
    generalize (coeff A t j) (coeff A t t) (xs !!! j). clear. intros a d v.
    unfold Qcdiv. ring.
Qed.

(** The normalised sweep on the normalised system is the plain sweep on
    the system itself. *)
Lemma sweepForwardNormalized_normalized (A : Matrix) (x b : list double) :
  sweepForwardNormalized
    (imap (fun i row => map (fun a => a / coeff A i i) row) A) x
    (imap (fun i bi => bi / coeff A i i) b)
  = sweepForward A x b.
Proof.
  unfold sweepForwardNormalized, sweepForward. rewrite length_imap.
  set (n := length b).
  apply lower_solve_normalized; [apply coeff_normalized|].
  intros i Hi. rewrite !lookup_total_map_seq by done.
  rewrite imap_lookup_total by done.
  unfold strictlyUpper_times.
  rewrite (sum_over_scaled _ _ (fun j => coeff A i j * x !!! j) (coeff A i i)).
  - generalize (sum_over (seq (i + 1) (n - (i + 1)))
                  (fun j => coeff A i j * x !!! j)).
    generalize (b !!! i) (coeff A i i). clear. intros u d v.
    unfold Qcdiv. ring.
  - intros j _. rewrite coeff_normalized.
    generalize (coeff A i j) (coeff A i i) (x !!! j). clear. intros a d v.
    unfold Qcdiv. ring.
Qed.

Lemma sweeps_ext (step step' : list double → list double)
  (lo hi : list double) (fuel : nat) (x : list double) :
  (∀ x, step x = step' x) →
  sweeps mOption step lo hi fuel x = sweeps mOption step' lo hi fuel x.
Proof.
  intros Hs. revert x. induction fuel as [|fuel IH]; intros x; [done|].
  simpl. rewrite Hs. by rewrite IH.
Qed.

Lemma solve_iterates (A : Matrix) (x b : list double) (nub : Z)
  (lo hi : list double) :
  (nub < Z.of_nat (length b))%Z →
  solve ldlt_solve mOption A x b nub lo hi
  = sweeps mOption (fun x => sweepForward A x b) lo hi
           (Z.to_nat (mMaxIteration mOption)) x.
Proof.
  intros Hnub. unfold solve. cbv zeta.
  rewrite decide_False by lia. case_decide; [|done].
  apply sweeps_ext. intros y. apply sweepForwardNormalized_normalized.
Qed.

(** X9.  With a nonzero diagonal and nub < n, dividing the rows of A and
    the entries of b by the diagonal first (the branch taken when
    n < mMaxIteration) returns what the branch without normalisation
    returns: in both cases the result is that of at most mMaxIteration
    rounds of sweepForward on A and b, each followed by the projection.
    The diagonal is assumed nonzero because a quotient by zero is outside
    the model of [double]. *)
Theorem X9_normalisation_keeps_the_result (A : Matrix) (x b : list double)
  (nub : Z) (lo hi : list double) :
  let n := length b in
  (nub < Z.of_nat n)%Z →
  (∀ i, (i < n)%nat → coeff A i i ≠ 0) →
  solve ldlt_solve mOption A x b nub lo hi
  = sweeps mOption (fun x => sweepForward A x b) lo hi
           (Z.to_nat (mMaxIteration mOption)) x.
Proof.
  intros n Hnub _. by apply solve_iterates.
Qed.

Lemma project_entry (y lo hi : list double) (i : nat) :
  (i < length y)%nat →
  let p := cwiseMin (cwiseMax y lo) hi in
  length p = length y
  ∧ p !!! i
    = (let v := if decide (y !!! i < lo !!! i) then lo !!! i else y !!! i in
       if decide (hi !!! i < v) then hi !!! i else v).
Proof.
  intros Hi. cbv zeta. unfold cwiseMin, cwiseMax.
  rewrite !length_imap. split; [done|].
  rewrite imap_lookup_total by (by rewrite length_imap).
  by rewrite imap_lookup_total by done.
Qed.

Lemma sweeps_projected (step : list double → list double)
  (lo hi : list double) (n fuel : nat) (x : list double) :
  (∀ x, length (step x) = n) → fuel ≠ O →
  ∃ y, length y = n
       ∧ sweeps mOption step lo hi fuel x = cwiseMin (cwiseMax y lo) hi.
Proof.
  intros Hlen. revert x. induction fuel as [|fuel IH]; intros x Hf; [done|].
  simpl. destruct (any_within _ _ _).
  - by exists (step x).
  - destruct fuel as [|fuel].
    + by exists (step x).
    + by apply IH.
Qed.

(** X10.  With nub < n and a nonzero diagonal the matrix-form solve
    returns a vector of length n whose every entry is at most hi[i], and
    at least lo[i] when lo[i] <= hi[i], as soon as mMaxIteration is
    positive; with mMaxIteration <= 0 it returns x as it was given.  The
    diagonal is assumed nonzero because the sweeps divide by it. *)
Theorem X10_matrix_solve_stays_in_the_box (A : Matrix) (x b : list double)
  (nub : Z) (lo hi : list double) :
  let n := length b in
  (nub < Z.of_nat n)%Z →
  (∀ i, (i < n)%nat → coeff A i i ≠ 0) →
  let x' := solve ldlt_solve mOption A x b nub lo hi in
  ((0 < mMaxIteration mOption)%Z →
   length x' = n
   ∧ ∀ i, (i < n)%nat →
          x' !!! i ≤ hi !!! i ∧ (lo !!! i ≤ hi !!! i → lo !!! i ≤ x' !!! i))
  ∧ ((mMaxIteration mOption ≤ 0)%Z → x' = x).
Proof.
  intros n Hnub _ x'. subst x'. rewrite solve_iterates by done. split.
  - intros Hmax.
    destruct (sweeps_projected (fun x => sweepForward A x b) lo hi n
                (Z.to_nat (mMaxIteration mOption)) x) as (y & Hy & ->).
    { intros y. apply lower_solve_length. }
    { lia. }
    split.
    + destruct n as [|k].
      * unfold cwiseMin, cwiseMax. by rewrite !length_imap.
      * by destruct (project_entry y lo hi 0 ltac:(lia)) as [-> _].
    + intros i Hi.
      destruct (project_entry y lo hi i ltac:(lia)) as [_ ->]. cbv zeta.
      repeat case_decide; split; intros; try done;
        try (by apply Qcnot_lt_le); by apply Qclt_le_weak.
  - intros Hmax. by replace (Z.to_nat (mMaxIteration mOption)) with O by lia.
Qed.

(** X11.  The early return of the matrix form asks for one entry, not for
    all of them: with a nonzero diagonal and mDeltaXThreshold >= 0, if
    some variable i has lo[i] = hi[i] = x[i] on entry, solve returns
    after its first round, with the projection of one sweepForward,
    whatever the other entries did. *)
Theorem X11_one_pinned_entry_stops_the_iteration (A : Matrix)
  (x b : list double) (nub : Z) (lo hi : list double) (i : nat) :
  let n := length b in
  (nub < Z.of_nat n)%Z →
  (∀ i, (i < n)%nat → coeff A i i ≠ 0) →
  (0 < mMaxIteration mOption)%Z →
  0 ≤ mDeltaXThreshold mOption →
  (i < n)%nat → lo !!! i = x !!! i → hi !!! i = x !!! i →
  solve ldlt_solve mOption A x b nub lo hi
  = cwiseMin (cwiseMax (sweepForward A x b) lo) hi.
Proof.
  intros n Hnub _ Hmax Hthr Hi Hlo Hhi. rewrite solve_iterates by done.
  destruct (Z.to_nat (mMaxIteration mOption)) as [|fuel] eqn:Hfuel; [lia|].
  simpl.
  assert (length (sweepForward A x b) = n) as Hlen
    by apply lower_solve_length.
  destruct (project_entry (sweepForward A x b) lo hi i ltac:(lia))
    as [Hplen Hp]. cbv zeta in Hp.
  set (p := cwiseMin (cwiseMax (sweepForward A x b) lo) hi) in *.
  assert (any_within p x (mDeltaXThreshold mOption) = true) as ->; [|done].
  unfold any_within. apply existsb_exists. exists i. split.
  - apply in_seq. lia.
  - apply bool_decide_eq_true.
    assert (p !!! i = x !!! i) as ->.
    { rewrite Hp, Hlo, Hhi.
      repeat case_decide; try done;
        apply Qcle_antisym; by apply Qcnot_lt_le. }
    replace (x !!! i - x !!! i) with (0 : Qc) by ring. done.
Qed.

End MatrixSolveFacts.

(** C1.  On the 1-by-1 instance of scenario S1 (A = [[2]], x_old = [0],
    b = [4]) one forward sweep of the matrix form yields x_new = [-2]: it
    satisfies (L + D) x_new = -(U x_old) - b and violates the stated
    equation (L + D) x_new = -(U x_old) + b.  The whole matrix-form solve
    returns [-2] on it, where the pointer-based solve returns [2]. *)
Theorem C1_sweepForward_negates_b_on_S1 :
  let A := [[dbl 2 1]] in
  let x_old := [0] in
  let b := [dbl 4 1] in
  let x_new := PgsMatrix.sweepForward A x_old b in
  let lhs := PgsMatrix.sum_over (seq 0 1)
               (fun j => PgsMatrix.coeff A 0 j * x_new !!! j) in
  let Ux := PgsMatrix.strictlyUpper_times A x_old 1 0 in
  x_new = [dbl (-2) 1]
  ∧ lhs = - Ux - b !!! 0%nat
  ∧ lhs ≠ - Ux + b !!! 0%nat
  ∧ (∀ ldlt_solve,
       PgsMatrix.solve ldlt_solve default_option A x_old b 0 [- wide] [wide]
       = [dbl (-2) 1])
  ∧ bufx (pgs_solve default_option 1 0 S1) = [dbl 2 1].
Proof.
  repeat split; compute_done.
Qed.

(** ** Constraint-group assembly *)

(** *** The boxed LCP solver held by the constraint solver *)

Section HolderFacts.
Import Sics.
Context {BoxedLcpSolver : Type}.
Variable DantzigBoxedLcpSolver : BoxedLcpSolver.

Local Abbreviation set_all :=
  (fold_left (fun self p => setBoxedLcpSolver BoxedLcpSolver p self)).

Lemma set_all_holds (ps : list (option BoxedLcpSolver))
  (self : Solver BoxedLcpSolver) (held : BoxedLcpSolver) :
  getBoxedLcpSolver _ self = Some held →
  getBoxedLcpSolver _ (set_all ps self)
  = Some (default held (last (omap id ps)))
  ∧ mTimeStep _ (set_all ps self) = mTimeStep _ self
  ∧ warnings _ (set_all ps self)
    = (warnings _ self + length (filter (fun p => p = None) ps))%nat.
Proof.
  revert self held. induction ps as [|p ps IH]; intros self held Hheld.
  - simpl. split; [done|]. split; [done|]. lia.
  - simpl fold_left. destruct p as [new|].
    + destruct (IH (setBoxedLcpSolver _ (Some new) self) new eq_refl)
        as (Hget & Htime & Hwarn).
      rewrite Hget, Htime, Hwarn.
      rewrite filter_cons_False by done.
      split; [|by split]. f_equal.
      change (omap id (Some new :: ps)) with (new :: omap id ps).
      rewrite last_cons. by destruct (last (omap id ps)).
    + destruct (IH (setBoxedLcpSolver _ None self) held Hheld)
        as (Hget & Htime & Hwarn).
      rewrite Hget, Htime, Hwarn.
      rewrite filter_cons_True by done.
      split; [done|]. split; [done|]. simpl. lia.
Qed.

(** X14.  The constraint solver always holds a boxed LCP solver: after
    the constructor and any sequence of setBoxedLcpSolver calls,
    getBoxedLcpSolver returns a non-null pointer, namely the last
    non-null argument given, the Dantzig solver when every argument
    (the constructor's included) was null; each null pointer given to
    setBoxedLcpSolver costs one warning and changes nothing else. *)
Theorem X14_solver_always_holds_a_boxed_solver (timeStep : double)
  (p0 : option BoxedLcpSolver) (ps : list (option BoxedLcpSolver)) :
  let self :=
    set_all ps (construct _ DantzigBoxedLcpSolver timeStep p0) in
  getBoxedLcpSolver _ self
  = Some (default DantzigBoxedLcpSolver (last (omap id (p0 :: ps))))
  ∧ mTimeStep _ self = timeStep
  ∧ warnings _ self = length (filter (fun p => p = None) ps).
Proof.
  cbv zeta.
  destruct p0 as [s0|]; unfold construct; simpl mBoxedLcpSolver; cbv iota.
  - destruct (set_all_holds ps (mkSolver _ timeStep (Some s0) 0) s0 eq_refl)
      as (-> & -> & ->).
    split; [|done]. f_equal.
    change (omap id (Some s0 :: ps)) with (s0 :: omap id ps).
    rewrite last_cons. by destruct (last (omap id ps)).
  - destruct (set_all_holds ps
                (mkSolver _ timeStep (Some DantzigBoxedLcpSolver) 0)
                DantzigBoxedLcpSolver eq_refl) as (-> & -> & ->).
    done.
Qed.

End HolderFacts.

Section SicsFacts.
Import Sics.

Variable dPAD : nat → nat.
Variable World : Type.
Variable boxedSolve : nat → Z → Lcp → Lcp.
Variable mTimeStep : double.
Variable NDEBUG : bool.

Implicit Type group : ConstrainedGroup World.
Implicit Type s : State World.

Local Abbreviation assemble := (Sics.assemble dPAD World mTimeStep NDEBUG).
Local Abbreviation solveConstrainedGroup :=
  (Sics.solveConstrainedGroup dPAD World boxedSolve mTimeStep NDEBUG).
Local Abbreviation assemble_constraint :=
  (Sics.assemble_constraint World mTimeStep).
Local Abbreviation probe := (Sics.probe World).
Local Abbreviation mirror := (Sics.mirror World).
Local Abbreviation call_getVelocityChange := (Sics.call_getVelocityChange World).
Local Abbreviation call_getInformation := (Sics.call_getInformation World mTimeStep).
Local Abbreviation apply_constraint := (Sics.apply_constraint World).
Local Abbreviation probe_trace := (Sics.probe_trace World).
Local Abbreviation constraint_trace := (Sics.constraint_trace World).

(** *** The calls made *)

Lemma fold_left_trace {B : Type} (f : State World → B → State World)
  (g : B → list Event) (l : list B) s :
  (∀ s b, trace (f s b) = trace s ++ g b) →
  trace (fold_left f l s) = trace s ++ flat_map g l.
Proof.
  intros Hf. revert s. induction l as [|b l IH]; intros s; simpl.
  - by rewrite app_nil_r.
  - by rewrite IH, Hf, <-app_assoc.
Qed.

Lemma mirror_keeps group nSkip offset i j s :
  trace (mirror group nSkip offset i j s) = trace s
  ∧ world (mirror group nSkip offset i j s) = world s
  ∧ lcpx (lcp (mirror group nSkip offset i j s)) = lcpx (lcp s).
Proof.
  unfold Sics.mirror.
  apply (fold_left_inv
           (fun s' => trace s' = trace s ∧ world s' = world s
                      ∧ lcpx (lcp s') = lcpx (lcp s))); [done|].
  intros s1 k _ H1.
  apply (fold_left_inv
           (fun s' => trace s' = trace s ∧ world s' = world s
                      ∧ lcpx (lcp s') = lcpx (lcp s))); [done|].
  intros s2 l _ H2. done.
Qed.

Lemma call_getVelocityChange_trace group k index withBias s :
  trace (call_getVelocityChange group k index withBias s)
  = trace s ++ [EvGetVelocityChange k withBias].
Proof. done. Qed.

Lemma map_flat_map_singleton {A B : Type} (f : A → B) (l : list A) :
  flat_map (fun a => [f a]) l = map f l.
Proof. induction l as [|a l IH]; simpl; [done|]. by rewrite IH. Qed.

Lemma probe_trace_eq group nSkip offset i s j :
  trace (probe group nSkip offset i s j) = trace s ++ probe_trace group i j.
Proof.
  unfold Sics.probe, Sics.probe_trace. cbv zeta.
  rewrite (proj1 (mirror_keeps _ _ _ _ _ _)).
  rewrite (fold_left_trace _ (fun k => [EvGetVelocityChange k false]))
    by (intros; apply call_getVelocityChange_trace).
  rewrite call_getVelocityChange_trace, map_flat_map_singleton. simpl.
  rewrite <-!app_assoc. simpl. f_equal. by case_decide.
Qed.

Lemma assemble_constraint_trace group nSkip offset s i :
  trace (assemble_constraint group nSkip offset s i)
  = trace s ++ constraint_trace group i.
Proof.
  unfold Sics.assemble_constraint, Sics.constraint_trace. simpl.
  rewrite (fold_left_trace _ (probe_trace group i))
    by (intros; apply probe_trace_eq).
  simpl. by rewrite <-!app_assoc.
Qed.

Lemma assemble_trace group heap w0 :
  trace (assemble group heap w0)
  = flat_map (constraint_trace group) (seq 0 (getNumConstraints World group)).
Proof.
  unfold Sics.assemble.
  rewrite (fold_left_trace _ (constraint_trace group))
    by (intros; apply assemble_constraint_trace).
  done.
Qed.

Lemma apply_constraint_trace group offset s i :
  trace (apply_constraint group offset s i) = trace s ++ apply_trace i.
Proof. unfold Sics.apply_constraint. simpl. by rewrite <-app_assoc. Qed.

Lemma solveConstrainedGroup_trace group heap w0 :
  (0 < getTotalDimension World group)%nat →
  (solveConstrainedGroup group heap w0).2
  = trace (assemble group heap w0)
    ++ [EvSolve (lcpx (lcp (assemble group heap w0)))]
    ++ flat_map apply_trace (seq 0 (getNumConstraints World group)).
Proof.
  intros Hn. unfold Sics.solveConstrainedGroup.
  rewrite decide_False by lia. simpl.
  rewrite (fold_left_trace _ apply_trace)
    by (intros; apply apply_constraint_trace).
  simpl. by rewrite <-app_assoc.
Qed.

(** *** The calls act on the bodies *)

Lemma replay_app group offset x tr1 tr2 w :
  replay World group offset x (tr1 ++ tr2) w
  = replay World group offset x tr2 (replay World group offset x tr1 w).
Proof. unfold Sics.replay. apply fold_left_app. Qed.

Lemma replay_velocity_changes group offset x (ks : list nat) w :
  replay World group offset x
    (map (fun k => EvGetVelocityChange k false) ks) w = w.
Proof. induction ks as [|k ks IH]; [done|]. exact IH. Qed.

(** A loop whose every round acts on the bodies as its calls do, acts on
    them as all its calls do; [Inv] is what the rounds need and keep. *)
Lemma fold_left_world {B : Type} (Inv : State World → Prop)
  (f : State World → B → State World) (g : B → list Event)
  group offset x (l : list B) s :
  Inv s →
  (∀ s b, Inv s →
          Inv (f s b)
          ∧ world (f s b) = replay World group offset x (g b) (world s)) →
  Inv (fold_left f l s)
  ∧ world (fold_left f l s)
    = replay World group offset x (flat_map g l) (world s).
Proof.
  intros Hs Hf. revert s Hs.
  induction l as [|b l IH]; intros s Hs; simpl; [done|].
  destruct (Hf s b Hs) as [Hs' Hw].
  destruct (IH (f s b) Hs') as [HI Hw'].
  split; [done|]. by rewrite Hw', Hw, replay_app.
Qed.

Lemma probe_world group nSkip offset offset' x i s j :
  world (probe group nSkip offset i s j)
  = replay World group offset' x (probe_trace group i j) (world s).
Proof.
  unfold Sics.probe, Sics.probe_trace. cbv zeta.
  rewrite (proj1 (proj2 (mirror_keeps _ _ _ _ _ _))).
  match goal with
  | |- world (fold_left ?f ?l ?s0) = _ =>
      transitivity (world s0);
      [apply (fold_left_inv (fun s' => world s' = world s0));
       [done | by intros s' k _ <-]|]
  end.
  rewrite replay_app, replay_velocity_changes. simpl. by case_decide.
Qed.

Lemma assemble_constraint_world group nSkip offset offset' x s i :
  world (assemble_constraint group nSkip offset s i)
  = replay World group offset' x (constraint_trace group i) (world s).
Proof.
  unfold Sics.assemble_constraint, Sics.constraint_trace. cbv zeta.
  rewrite !replay_app.
  match goal with
  | |- world (log World _ (set_world World _ (fold_left ?f ?l ?s0))) = _ =>
      destruct (fold_left_world (fun _ => True) f (probe_trace group i)
                  group offset' x l s0 I) as [_ Hw];
      [intros s' j _; split; [done | apply probe_world]|]
  end.
  rewrite Hw. reflexivity.
Qed.

Lemma assemble_world group heap w0 offset' x :
  world (assemble group heap w0)
  = replay World group offset' x (trace (assemble group heap w0)) w0.
Proof.
  rewrite assemble_trace. unfold Sics.assemble. cbv zeta.
  match goal with
  | |- world (fold_left ?f ?l ?s0) = _ =>
      destruct (fold_left_world (fun _ => True) f (constraint_trace group)
                  group offset' x l s0 I) as [_ Hw];
      [intros s' j _; split; [done | apply assemble_constraint_world]|]
  end.
  exact Hw.
Qed.

(** The bodies returned are the bodies given with the calls applied, the
    impulses being read off the [x] the boxed solver returned. *)
Lemma solveConstrainedGroup_world group heap w0 :
  let n := getTotalDimension World group in
  let offset := compute_offset World group n in
  let x := lcpx (boxedSolve n 0%Z (lcp (assemble group heap w0))) in
  (0 < n)%nat →
  (solveConstrainedGroup group heap w0).1
  = replay World group offset x (solveConstrainedGroup group heap w0).2 w0.
Proof.
  intros n offset x Hn.
  rewrite solveConstrainedGroup_trace by done.
  rewrite !replay_app, <-assemble_world.
  unfold Sics.solveConstrainedGroup. rewrite decide_False by lia.
  cbv zeta. fold n offset.
  match goal with
  | |- (world (fold_left ?f ?l ?s0), _).1 = _ =>
      destruct (fold_left_world (fun s' => lcpx (lcp s') = x) f apply_trace
                  group offset x l s0 eq_refl) as [_ Hw]
  end.
  - intros s' i Hx. split; [exact Hx|].
    unfold Sics.apply_constraint, Sics.apply_trace. simpl. by rewrite Hx.
  - simpl. exact Hw.
Qed.

(** Under the reading of excite and unexcite as setting and clearing a
    mark, the mark after the calls have acted on the bodies is the one
    the bookkeeping over the calls gives. *)
Lemma replay_mark group offset x c (mark : World → bool) :
  excitation_mark World group c mark →
  ∀ tr w,
    mark (replay World group offset x tr w) = excited c tr (mark w).
Proof.
  intros (Hon & Hoff & Hother & Hunit & Himp) tr.
  unfold Sics.replay, Sics.excited.
  induction tr as [|e tr IH]; intros w; [done|].
  simpl. rewrite IH. f_equal.
  destruct e as [i|i|i|i j|i b|v|i]; simpl; try done.
  - case_decide as Hi; [subst i; apply Hon | by apply Hother].
  - case_decide as Hi; [subst i; apply Hoff | by apply Hother].
Qed.


(** *** Excitation bookkeeping *)

Lemma filter_flat_map_single (p : Event → bool) (f : nat → list Event)
  (n c : nat) :
  (c < n)%nat → (∀ i, i ≠ c → List.filter p (f i) = []) →
  List.filter p (flat_map f (seq 0 n)) = List.filter p (f c).
Proof.
  intros Hc Hne.
  assert (∀ l, c ∉ l → List.filter p (flat_map f l) = []) as Hnil.
  { induction l as [|a l IH]; intros Hl; simpl; [done|].
    rewrite List.filter_app, Hne, IH; [done| |].
    - intros Hin. apply Hl. by right.
    - intros ->. apply Hl. by left. }
  rewrite (seq_split c n Hc), flat_map_app. simpl.
  rewrite !List.filter_app, !Hnil, app_nil_r; [done| |].
  - intros Hin%elem_of_seq. lia.
  - intros Hin%elem_of_seq. lia.
Qed.

Lemma filter_velocity_changes (p : Event → bool) (wb : bool) (l : list nat) :
  (∀ k, p (EvGetVelocityChange k wb) = false) →
  List.filter p (map (fun k => EvGetVelocityChange k wb) l) = [].
Proof.
  intros Hp. induction l as [|k l IH]; simpl; [done|]. by rewrite Hp.
Qed.

Lemma own_probes group c (l : list nat) :
  List.filter (own c) (flat_map (probe_trace group c) l)
  = map (EvApplyUnitImpulse c) l.
Proof.
  induction l as [|j l IH]; simpl; [done|].
  rewrite bool_decide_eq_true_2 by done.
  rewrite List.filter_app, filter_velocity_changes, IH by done. done.
Qed.

Lemma own_constraint_trace group c :
  List.filter (own c) (constraint_trace group c)
  = [EvExcite c]
    ++ map (EvApplyUnitImpulse c)
           (seq 0 (getDimension (getConstraint World group c)))
    ++ [EvUnexcite c].
Proof.
  unfold Sics.constraint_trace. simpl.
  rewrite bool_decide_eq_true_2 by done.
  rewrite List.filter_app, own_probes. simpl.
  by rewrite bool_decide_eq_true_2 by done.
Qed.

Lemma foreign_probes (p : Event → bool) group i (l : list nat) :
  (∀ j, p (EvApplyUnitImpulse i j) = false) →
  (∀ k wb, p (EvGetVelocityChange k wb) = false) →
  List.filter p (flat_map (probe_trace group i) l) = [].
Proof.
  intros Hu Hv. induction l as [|j l IH]; simpl; [done|].
  rewrite Hu, Hv, List.filter_app, filter_velocity_changes, IH by done. done.
Qed.

Lemma own_other_constraint group c i :
  i ≠ c → List.filter (own c) (constraint_trace group i) = [].
Proof.
  intros Hne. unfold Sics.constraint_trace. simpl.
  rewrite bool_decide_eq_false_2 by done.
  rewrite List.filter_app, foreign_probes; simpl;
    [by rewrite bool_decide_eq_false_2 by done| |done].
  intros j. by rewrite bool_decide_eq_false_2.
Qed.

Lemma excitation_constraint_trace group c i :
  List.filter (excitation c) (constraint_trace group i)
  = if decide (i = c) then [EvExcite c; EvUnexcite c] else [].
Proof.
  unfold Sics.constraint_trace. simpl.
  rewrite List.filter_app, foreign_probes by done. simpl.
  case_decide as Hi.
  - subst. by rewrite !bool_decide_eq_true_2.
  - by rewrite !bool_decide_eq_false_2.
Qed.

Lemma excited_filter c tr b0 :
  excited c tr b0 = excited c (List.filter (excitation c) tr) b0.
Proof.
  unfold Sics.excited. revert b0.
  induction tr as [|e tr IH]; intros b0; simpl; [done|].
  destruct e; simpl; try apply IH.
  - case_bool_decide; simpl; [apply IH|].
    rewrite decide_False by done. apply IH.
  - case_bool_decide; simpl; [apply IH|].
    rewrite decide_False by done. apply IH.
Qed.


(** *** The impulse vector at the call of the boxed solver *)

Lemma compute_offset_prefix group n t :
  (getNumConstraints World group ≤ n)%nat →
  (t < getNumConstraints World group)%nat →
  compute_offset World group n !!! t
  = sum_list (take t (map getDimension group)).
Proof.
  intros Hn Ht. unfold compute_offset.
  set (body := fun (offset : list nat) (i : nat) =>
    <[i := (offset !!! (i - 1)
            + getDimension (getConstraint World group (i - 1)))%nat]> offset).
  set (init := <[0%nat := 0%nat]> (replicate n 0%nat)).
  cut (∀ k, (k < getNumConstraints World group)%nat →
         length (fold_left body (seq 1 k) init) = n
         ∧ ∀ i, (i ≤ k)%nat →
                fold_left body (seq 1 k) init !!! i
                = sum_list (take i (map getDimension group))).
  { intros H.
    destruct (H (getNumConstraints World group - 1)%nat ltac:(lia)) as [_ Hk].
    apply Hk. lia. }
  induction k as [|k IH]; intros Hk.
  - change (fold_left body (seq 1 0) init) with init. subst init.
    rewrite length_insert, length_replicate.
    split; [done|]. intros i Hi. assert (i = 0%nat) as -> by lia.
    rewrite list_lookup_total_insert_eq; [done|].
    rewrite length_replicate. lia.
  - destruct (IH ltac:(lia)) as [Hlen Hpre].
    rewrite seq_S, fold_left_app. change (1 + k)%nat with (S k).
    simpl fold_left.
    set (offset := fold_left body (seq 1 k) init) in *.
    unfold body. replace (S k - 1)%nat with k by lia.
    split; [by rewrite length_insert|].
    intros i Hi. destruct (decide (i = S k)) as [->|Hne].
    + rewrite list_lookup_total_insert_eq by lia.
      rewrite Hpre by lia.
      rewrite (take_S_r _ k (getDimension (getConstraint World group k))).
      * rewrite sum_list_with_app. simpl. lia.
      * rewrite list_lookup_fmap. unfold getConstraint.
        rewrite list_lookup_lookup_total_lt; [done|].
        unfold getNumConstraints in Hk. lia.
    + rewrite list_lookup_total_insert_ne by done. apply Hpre. lia.
Qed.

Lemma probe_keeps_x group nSkip offset i s j :
  lcpx (lcp (probe group nSkip offset i s j)) = lcpx (lcp s).
Proof.
  unfold Sics.probe. cbv zeta.
  rewrite (proj2 (proj2 (mirror_keeps _ _ _ _ _ _))).
  match goal with
  | |- lcpx (lcp (fold_left ?f ?l ?s0)) = _ =>
      transitivity (lcpx (lcp s0));
      [apply (fold_left_inv (fun s' => lcpx (lcp s') = lcpx (lcp s0)));
       [done | by intros s' k _ <-]|]
  end.
  simpl. by case_decide.
Qed.

Lemma assemble_constraint_x group nSkip offset s i :
  let c := getConstraint World group i in
  lcpx (lcp (assemble_constraint group nSkip offset s i))
  = list_inserts (offset !!! i)
      (take (getDimension c)
            (ci_x (getInformation c (world s)
                     (constInfo_at mTimeStep (offset !!! i) (lcp s)))))
      (lcpx (lcp s)).
Proof.
  intros c. unfold Sics.assemble_constraint. cbv zeta. simpl.
  match goal with
  | |- lcpx (lcp (fold_left ?f ?l ?s0)) = _ =>
      transitivity (lcpx (lcp s0));
      [apply (fold_left_inv (fun s' => lcpx (lcp s') = lcpx (lcp s0)));
       [done | intros s' k _ <-; apply probe_keeps_x]|]
  end.
  done.
Qed.

Lemma numConstraints_le_totalDimension group :
  (∀ c, c ∈ group → (0 < getDimension c)%nat) →
  (getNumConstraints World group ≤ getTotalDimension World group)%nat.
Proof.
  unfold getNumConstraints, getTotalDimension.
  induction group as [|c group IH]; intros Hpos; simpl; [done|].
  pose proof (Hpos c ltac:(left)) as Hc.
  pose proof (IH ltac:(intros c' Hc'; apply Hpos; by right)). lia.
Qed.

Lemma prefix_sum_le (dims : list nat) (t : nat) :
  (sum_list (take t dims) ≤ sum_list dims)%nat.
Proof.
  rewrite <-(take_drop t dims) at 2. rewrite sum_list_with_app. lia.
Qed.

(** X16.  When the group has no more constraints than dimensions (in
    particular when every constraint has a positive dimension), the
    offsets cut the buffers of length n into consecutive slices:
    offset[t] is the sum of the dimensions of the constraints before t,
    the slice of constraint t ends where that of constraint t + 1
    begins, and the last slice ends at n. *)
Theorem X16_offsets_cut_the_buffers group (t : nat) :
  let n := getTotalDimension World group in
  let offset := compute_offset World group n in
  let dim i := getDimension (getConstraint World group i) in
  (getNumConstraints World group ≤ n)%nat →
  (t < getNumConstraints World group)%nat →
  offset !!! t = sum_list (map dim (seq 0 t))
  ∧ (offset !!! t + dim t ≤ n)%nat
  ∧ ((S t < getNumConstraints World group)%nat →
     offset !!! (S t) = (offset !!! t + dim t)%nat)
  ∧ (S t = getNumConstraints World group → (offset !!! t + dim t)%nat = n).
Proof.
  intros n offset dim Hn Ht. subst offset.
  assert (∀ i, (i < getNumConstraints World group)%nat →
            sum_list (take (S i) (map getDimension group))
            = (sum_list (take i (map getDimension group)) + dim i)%nat)
    as Hstep.
  { intros i Hi.
    rewrite (take_S_r _ i (dim i)).
    - rewrite sum_list_with_app. simpl. lia.
    - rewrite list_lookup_fmap. subst dim. unfold getConstraint. cbv beta.
      rewrite list_lookup_lookup_total_lt; [done|].
      unfold getNumConstraints in Hi. lia. }
  assert (∀ i, (i ≤ getNumConstraints World group)%nat →
            sum_list (take i (map getDimension group))
            = sum_list (map dim (seq 0 i))) as Hsum.
  { induction i as [|i IH]; intros Hi; [by rewrite take_0|].
    rewrite Hstep by lia. rewrite IH by lia.
    rewrite seq_S, map_app, sum_list_with_app. simpl. lia. }
  rewrite compute_offset_prefix by done.
  pose proof (prefix_sum_le (map getDimension group) (S t)) as Hle.
  rewrite Hstep in Hle by done.
  split; [apply Hsum; lia|]. split; [exact Hle|]. split.
  - intros HS. rewrite compute_offset_prefix by done. by apply Hstep.
  - intros HS. rewrite <-Hstep by done.
    rewrite take_ge; [done|]. rewrite length_map.
    unfold getNumConstraints in HS. lia.
Qed.

(** If every constraint zero-fills its slice of [x], the first
    [t] constraints leave zeros in the entries they own. *)
Lemma assemble_x_prefix group (s0 : State World) (t : nat) :
  let n := getTotalDimension World group in
  let offset := compute_offset World group n in
  let dims := map getDimension group in
  (∀ c, c ∈ group → (0 < getDimension c)%nat) →
  (∀ c, c ∈ group → ∀ w info,
        ci_x (getInformation c w info) = replicate (getDimension c) 0) →
  length (lcpx (lcp s0)) = n →
  (t ≤ getNumConstraints World group)%nat →
  let st := fold_left (assemble_constraint group (dPAD n) offset) (seq 0 t) s0 in
  length (lcpx (lcp st)) = n
  ∧ ∀ j, (j < sum_list (take t dims))%nat → lcpx (lcp st) !!! j = 0.
Proof.
  intros n offset dims Hpos Hzero Hlen.
  induction t as [|t IH]; intros Ht st; subst st.
  - split; [done|]. simpl. intros j Hj. lia.
  - rewrite fold_left_seq_S.
    destruct (IH ltac:(lia)) as [Hl Hz].
    set (st := fold_left (assemble_constraint group (dPAD n) offset) (seq 0 t) s0)
      in *.
    rewrite assemble_constraint_x. cbv zeta.
    assert (getConstraint World group t ∈ group) as Hin.
    { unfold getConstraint. apply list_elem_of_lookup_total_2.
      unfold getNumConstraints in Ht. lia. }
    rewrite Hzero, take_replicate, Nat.min_id by done.
    assert (offset !!! t = sum_list (take t dims)) as ->.
    { subst offset dims. apply compute_offset_prefix; [|lia].
      by apply numConstraints_le_totalDimension. }
    assert (sum_list (take (S t) dims)
            = (sum_list (take t dims)
               + getDimension (getConstraint World group t))%nat) as Hstep.
    { rewrite (take_S_r _ t (getDimension (getConstraint World group t))).
      - rewrite sum_list_with_app. simpl. lia.
      - subst dims. rewrite list_lookup_fmap. unfold getConstraint.
        rewrite list_lookup_lookup_total_lt; [done|].
        unfold getNumConstraints in Ht. lia. }
    pose proof (prefix_sum_le dims (S t)) as Hle.
    change (sum_list dims) with n in Hle.
    split; [by rewrite length_inserts|].
    intros j Hj. rewrite Hstep in Hj, Hle.
    destruct (decide (j < sum_list (take t dims))%nat) as [Hlt|Hge].
    + rewrite list_lookup_total_inserts_lt by done. by apply Hz.
    + rewrite list_lookup_total_inserts
        by (rewrite ?length_replicate; lia).
      apply lookup_total_replicate_2. lia.
Qed.

(** *** The friction indices handed to the boxed solver *)

Lemma insert_lookup_total_id {X} `{Inhabited X} (l : list X) (i : nat) :
  <[i := l !!! i]> l = l.
Proof.
  destruct (decide (i < length l)%nat) as [Hi|Hi].
  - apply list_insert_id. by apply list_lookup_lookup_total_lt.
  - apply list_insert_ge. lia.
Qed.

Lemma mirror_findex group nSkip offset i j s :
  lcpfindex (lcp (mirror group nSkip offset i j s)) = lcpfindex (lcp s).
Proof.
  unfold Sics.mirror.
  apply (fold_left_inv (fun s' => lcpfindex (lcp s') = lcpfindex (lcp s)));
    [done|].
  intros s1 k _ H1.
  apply (fold_left_inv (fun s' => lcpfindex (lcp s') = lcpfindex (lcp s)));
    [done|].
  by intros s2 l _ H2.
Qed.

Lemma probe_findex group nSkip offset i s j :
  lcpfindex (lcp (probe group nSkip offset i s j))
  = <[(offset !!! i + j)%nat :=
        globalise (offset !!! i)
                  (lcpfindex (lcp s) !!! (offset !!! i + j)%nat)]>
      (lcpfindex (lcp s)).
Proof.
  unfold Sics.probe. cbv zeta. rewrite mirror_findex.
  match goal with
  | |- lcpfindex (lcp (fold_left ?f ?l ?s0)) = _ =>
      transitivity (lcpfindex (lcp s0));
      [apply (fold_left_inv
                (fun s' => lcpfindex (lcp s') = lcpfindex (lcp s0)));
       [done | by intros s' k _ <-]|]
  end.
  unfold globalise. simpl. case_decide; simpl; [done|].
  symmetry. apply insert_lookup_total_id.
Qed.

Lemma probes_findex group nSkip offset i s (d : nat) :
  let f := lcpfindex (lcp s) in
  let off := offset !!! i in
  (off + d ≤ length f)%nat →
  let f' := lcpfindex (lcp (fold_left (probe group nSkip offset i) (seq 0 d) s)) in
  length f' = length f
  ∧ ∀ p, f' !!! p
         = if decide (off ≤ p < off + d)%nat then globalise off (f !!! p)
           else f !!! p.
Proof.
  intros f off. induction d as [|d IH]; intros Hd f'; subst f'.
  - split; [done|]. intros p. simpl. by rewrite decide_False by lia.
  - rewrite fold_left_seq_S, probe_findex.
    destruct (IH ltac:(lia)) as [Hlen Hval].
    set (s' := fold_left (probe group nSkip offset i) (seq 0 d) s) in *.
    fold off. split; [by rewrite length_insert|].
    intros p. destruct (decide (p = off + d)%nat) as [->|Hne].
    + rewrite list_lookup_total_insert_eq by lia.
      rewrite Hval, decide_False by lia. by rewrite decide_True by lia.
    + rewrite list_lookup_total_insert_ne by done. rewrite Hval.
      repeat case_decide; try done; lia.
Qed.

Lemma assemble_constraint_findex group nSkip offset s i :
  let c := getConstraint World group i in
  let off := offset !!! i in
  let f := lcpfindex (lcp s) in
  let written :=
    take (getDimension c)
         (ci_findex (getInformation c (world s)
                       (constInfo_at mTimeStep off (lcp s)))) in
  (off + getDimension c ≤ length f)%nat →
  let f' := lcpfindex (lcp (assemble_constraint group nSkip offset s i)) in
  length f' = length f
  ∧ ∀ p, f' !!! p
         = if decide (off ≤ p < off + getDimension c)%nat
           then globalise off (list_inserts off written f !!! p)
           else list_inserts off written f !!! p.
Proof.
  intros c off f written Hfit f'. subst f'.
  unfold Sics.assemble_constraint. cbv zeta. fold c off.
  set (s1 := log World (EvExcite i) _).
  change (lcpfindex (lcp (log World (EvUnexcite i)
            (set_world World
               (unexcite c (world (fold_left (probe group nSkip offset i)
                                     (seq 0 (getDimension c)) s1)))
               (fold_left (probe group nSkip offset i)
                  (seq 0 (getDimension c)) s1)))))
    with (lcpfindex (lcp (fold_left (probe group nSkip offset i)
                            (seq 0 (getDimension c)) s1))).
  assert (lcpfindex (lcp s1) = list_inserts off written f) as Hs1 by done.
  destruct (probes_findex group nSkip offset i s1 (getDimension c))
    as [Hlen Hval].
  { fold off. rewrite Hs1, length_inserts. exact Hfit. }
  fold off in Hval. rewrite Hs1 in Hlen, Hval.
  rewrite length_inserts in Hlen. by split.
Qed.

Lemma prefix_sum_mono (dims : list nat) (a b : nat) :
  (a ≤ b)%nat → (sum_list (take a dims) ≤ sum_list (take b dims))%nat.
Proof.
  intros Hab. replace (take a dims) with (take a (take b dims)).
  - apply prefix_sum_le.
  - rewrite take_take. f_equal. lia.
Qed.

Lemma take_sum_S group (t : nat) :
  (t < getNumConstraints World group)%nat →
  sum_list (take (S t) (map getDimension group))
  = (sum_list (take t (map getDimension group))
     + getDimension (getConstraint World group t))%nat.
Proof.
  intros Ht.
  rewrite (take_S_r _ t (getDimension (getConstraint World group t))).
  - rewrite sum_list_with_app. simpl. lia.
  - rewrite list_lookup_fmap. unfold getConstraint.
    rewrite list_lookup_lookup_total_lt; [done|].
    unfold getNumConstraints in Ht. lia.
Qed.

(** Constraints that write their friction indices in place: an entry is
    either left as it was or set to -1 or to a row of the constraint
    itself. *)
Lemma assemble_findex_prefix group (s0 : State World) (t : nat) :
  let n := getTotalDimension World group in
  let offset := compute_offset World group n in
  let P i := sum_list (take i (map getDimension group)) in
  (getNumConstraints World group ≤ n)%nat →
  (∀ c, c ∈ group → ∀ w info j,
        let r := getInformation c w info in
        (j < getDimension c)%nat → (j < length (ci_findex r))%nat →
        ci_findex r !!! j = ci_findex info !!! j
        ∨ (-1 ≤ ci_findex r !!! j < Z.of_nat (getDimension c))%Z) →
  lcpfindex (lcp s0) = replicate n (-1)%Z →
  (t ≤ getNumConstraints World group)%nat →
  let f :=
    lcpfindex (lcp (fold_left (assemble_constraint group (dPAD n) offset)
                              (seq 0 t) s0)) in
  length f = n
  ∧ (∀ i j, (i < t)%nat →
            (j < getDimension (getConstraint World group i))%nat →
            f !!! (P i + j)%nat = (-1)%Z
            ∨ (Z.of_nat (P i) ≤ f !!! (P i + j)%nat
               < Z.of_nat (P i + getDimension (getConstraint World group i)))%Z)
  ∧ (∀ p, (P t ≤ p)%nat → (p < n)%nat → f !!! p = (-1)%Z)
  ∧ (∀ p, (p < P t)%nat → (-1 ≤ f !!! p < Z.of_nat (P t))%Z).
Proof.
  intros n offset P Hn Hwrite Hinit.
  induction t as [|t IH]; intros Ht f; subst f.
  - simpl fold_left. rewrite Hinit, length_replicate.
    split; [done|]. split; [intros; lia|]. split.
    + intros p _ Hp. by apply lookup_total_replicate_2.
    + intros p Hp. unfold P in Hp. rewrite take_0 in Hp. simpl in Hp. lia.
  - rewrite fold_left_seq_S.
    destruct (IH ltac:(lia)) as (Hlen & Hold & Hfresh & Hrange).
    set (st := fold_left (assemble_constraint group (dPAD n) offset)
                 (seq 0 t) s0) in *.
    set (c := getConstraint World group t).
    assert (c ∈ group) as Hin.
    { subst c. unfold getConstraint. apply list_elem_of_lookup_total_2.
      unfold getNumConstraints in Ht. lia. }
    assert (offset !!! t = P t) as Hoff
      by (subst offset; apply compute_offset_prefix; [done | lia]).
    assert (P (S t) = (P t + getDimension c)%nat) as HP
      by (apply take_sum_S; lia).
    pose proof (prefix_sum_le (map getDimension group) (S t)) as Hle.
    fold (P (S t)) in Hle. change (sum_list (map getDimension group)) with n in Hle.
    rewrite HP in Hle.
    pose proof (fun j => Hwrite c Hin (world st)
                  (constInfo_at mTimeStep (offset !!! t) (lcp st)) j) as Hrval.
    cbv zeta in Hrval.
    set (r := getInformation c (world st)
                (constInfo_at mTimeStep (offset !!! t) (lcp st))) in *.
    destruct (assemble_constraint_findex group (dPAD n) offset st t)
      as [Hlen' Hval]; [fold c; rewrite Hoff, Hlen; lia|].
    fold c r in Hval. rewrite Hoff in Hval.
    set (written := take (getDimension c) (ci_findex r)) in *.
    assert (length written
            = (getDimension c `min` length (ci_findex r))%nat) as Hwlen
      by (subst written; by rewrite length_take).
    assert (∀ j, (j < getDimension c)%nat →
              let v := globalise (P t)
                         (list_inserts (P t) written (lcpfindex (lcp st))
                          !!! (P t + j)%nat) in
              v = (-1)%Z
              ∨ (Z.of_nat (P t) ≤ v < Z.of_nat (P t + getDimension c))%Z)
      as Hslice.
    { intros j Hj. cbv zeta.
      destruct (decide (j < length (ci_findex r))%nat) as [Hjr|Hjr].
      - rewrite list_lookup_total_inserts by lia.
        replace (P t + j - P t)%nat with j by lia.
        subst written. rewrite lookup_total_take_lt by done.
        unfold globalise.
        destruct (Hrval j Hj Hjr) as [Hsame|Hset].
        + rewrite Hsame. simpl. rewrite lookup_total_drop, Hoff.
          rewrite Hfresh by lia. by left.
        + case_decide; [right; lia | left; lia].
      - rewrite list_lookup_total_inserts_ge by lia.
        rewrite Hfresh by lia. by left. }
    rewrite Hlen', Hlen. split; [done|]. split; [|split].
    + intros i j Hi Hj. rewrite Hval.
      destruct (decide (i = t)) as [->|Hne].
      * rewrite decide_True by (fold c in Hj; lia). fold c.
        by apply Hslice.
      * assert (P i + getDimension (getConstraint World group i) ≤ P t)%nat
          as Hbefore.
        { unfold P. rewrite <-(take_sum_S group i) by lia.
          apply prefix_sum_mono. lia. }
        rewrite decide_False by lia.
        rewrite list_lookup_total_inserts_lt by lia.
        apply Hold; [lia | done].
    + intros p Hp Hpn. rewrite HP in Hp. rewrite Hval.
      rewrite decide_False by lia.
      rewrite list_lookup_total_inserts_ge by lia.
      apply Hfresh; lia.
    + intros p Hp. rewrite HP in Hp |- *. rewrite Hval.
      destruct (decide (P t ≤ p < P t + getDimension c)%nat) as [Hs|Hs].
      * replace p with (P t + (p - P t))%nat by lia.
        destruct (Hslice (p - P t)%nat ltac:(lia)) as [->|Hv]; lia.
      * rewrite list_lookup_total_inserts_lt by lia.
        pose proof (Hrange p ltac:(lia)). lia.
Qed.

(** X17.  The friction indices reach the boxed solver in the numbering
    of the whole group.  For a group with no more constraints than
    dimensions whose constraints write their friction indices in place,
    each entry being left alone, set to -1, or set to one of the
    constraint's own rows 0 .. dimension - 1: when the boxed solver is
    called, findex has length n, every entry of constraint i is -1 or a
    row of the slice of constraint i, and so every entry is -1 or a row
    below n. *)
Theorem X17_findex_points_into_own_slice group heap w0 :
  let n := getTotalDimension World group in
  let offset := compute_offset World group n in
  (getNumConstraints World group ≤ n)%nat →
  (∀ c, c ∈ group → ∀ w info j,
        let r := getInformation c w info in
        (j < getDimension c)%nat → (j < length (ci_findex r))%nat →
        ci_findex r !!! j = ci_findex info !!! j
        ∨ (-1 ≤ ci_findex r !!! j < Z.of_nat (getDimension c))%Z) →
  let f := lcpfindex (lcp (assemble group heap w0)) in
  length f = n
  ∧ (∀ i j, (i < getNumConstraints World group)%nat →
            (j < getDimension (getConstraint World group i))%nat →
            f !!! (offset !!! i + j)%nat = (-1)%Z
            ∨ (Z.of_nat (offset !!! i) ≤ f !!! (offset !!! i + j)%nat
               < Z.of_nat (offset !!! i
                           + getDimension (getConstraint World group i)))%Z)
  ∧ (∀ p, (p < n)%nat → (-1 ≤ f !!! p < Z.of_nat n)%Z).
Proof.
  intros n offset Hn Hwrite f. subst f. unfold Sics.assemble. cbv zeta.
  match goal with
  | |- context [fold_left _ _ ?s0] =>
      destruct (assemble_findex_prefix group s0
                  (getNumConstraints World group) Hn Hwrite eq_refl
                  ltac:(done)) as (Hlen & Hslices & _ & Hrange)
  end.
  cbv zeta in Hlen, Hslices, Hrange.
  split; [exact Hlen|]. split.
  - intros i j Hi Hj. subst offset.
    rewrite compute_offset_prefix by done. by apply Hslices.
  - intros p Hp. rewrite take_ge in Hrange by (by rewrite length_map).
    by apply Hrange.
Qed.

(** *** The matrix handed to the boxed solver *)

Lemma pos_row (nSkip r c R q : nat) :
  (c < nSkip)%nat → (q < nSkip)%nat →
  (nSkip * r + c = nSkip * R + q)%nat → r = R.
Proof. intros Hc Hq Heq. nia. Qed.

Lemma fold_left_inv_prefix {St B : Type} (P : list B → St → Prop)
  (f : St → B → St) (l : list B) (a0 : St) :
  P [] a0 →
  (∀ pre x a, x ∈ l → P pre a → P (pre ++ [x]) (f a x)) →
  P l (fold_left f l a0).
Proof.
  intros H0 Hstep.
  cut (∀ l' pre a, (∀ x, x ∈ l' → x ∈ l) → P pre a →
                   P (pre ++ l') (fold_left f l' a)).
  { intros H. by apply (H l [] a0). }
  induction l' as [|x l' IH]; intros pre a Hsub Hpre; simpl.
  - by rewrite app_nil_r.
  - rewrite (cons_middle x pre l'), app_assoc. apply IH.
    + intros y Hy. apply Hsub. by right.
    + apply Hstep; [apply Hsub; by left | done].
Qed.

Lemma rows_kept_refl nSkip n keep A : rows_kept nSkip n keep A A.
Proof. by split. Qed.

Lemma rows_kept_trans nSkip n (keep : nat → Prop) A1 A2 A3 :
  rows_kept nSkip n keep A1 A2 → rows_kept nSkip n keep A2 A3 →
  rows_kept nSkip n keep A1 A3.
Proof.
  intros [Hl1 Hk1] [Hl2 Hk2]. split; [congruence|].
  intros r c Hr Hc. rewrite Hk2, Hk1; done.
Qed.

Lemma rows_kept_weaken nSkip n (keep keep' : nat → Prop) A A' :
  (∀ r, keep' r → keep r) →
  rows_kept nSkip n keep A A' → rows_kept nSkip n keep' A A'.
Proof.
  intros Hw [Hl Hk]. split; [done|]. intros r c Hr Hc. apply Hk; auto.
Qed.

(** One copy of the mirror loop, for the column [q] of an earlier
    constraint. *)
Lemma mirror_write (nSkip n R q : nat) (A0 A : list double) :
  (n ≤ nSkip)%nat → (R < n)%nat → (q < R)%nat →
  length A0 = (n * nSkip)%nat →
  rows_kept nSkip n (fun r => r ≠ R) A0 A →
  let A' := <[(nSkip * R + q)%nat := A !!! (nSkip * q + R)%nat]> A in
  rows_kept nSkip n (fun r => r ≠ R) A0 A'
  ∧ A' !!! (nSkip * R + q)%nat = A0 !!! (nSkip * q + R)%nat
  ∧ ∀ q', A !!! (nSkip * R + q')%nat = A0 !!! (nSkip * q' + R)%nat →
          A' !!! (nSkip * R + q')%nat = A0 !!! (nSkip * q' + R)%nat.
Proof.
  intros Hn HR Hq Hlen [Hl Hk] A'. subst A'.
  assert (A !!! (nSkip * q + R)%nat = A0 !!! (nSkip * q + R)%nat) as Hread
    by (apply Hk; lia).
  split; [|split].
  - split; [by rewrite length_insert|].
    intros r c Hr Hc. rewrite list_lookup_total_insert_ne; [by apply Hk|].
    intros Heq. apply Hr. symmetry.
    apply (pos_row nSkip R q r c); lia.
  - rewrite list_lookup_total_insert_eq; [done|]. rewrite Hl, Hlen. nia.
  - intros q' Hq'. destruct (decide (q' = q)) as [->|Hne].
    + rewrite list_lookup_total_insert_eq; [done|]. rewrite Hl, Hlen. nia.
    + rewrite list_lookup_total_insert_ne by lia. done.
Qed.

Lemma mirror_A group nSkip n offset i j s :
  let dim k := getDimension (getConstraint World group k) in
  let R := (offset !!! i + j)%nat in
  (n ≤ nSkip)%nat → (R < n)%nat →
  (∀ k, (k < i)%nat → (offset !!! k + dim k ≤ offset !!! i)%nat) →
  length (lcpA (lcp s)) = (n * nSkip)%nat →
  let A0 := lcpA (lcp s) in
  let A' := lcpA (lcp (mirror group nSkip offset i j s)) in
  rows_kept nSkip n (fun r => r ≠ R) A0 A'
  ∧ ∀ k l, (k < i)%nat → (l < dim k)%nat →
           A' !!! (nSkip * R + (offset !!! k + l))%nat
           = A0 !!! (nSkip * (offset !!! k + l) + R)%nat.
Proof.
  intros dim R Hn HR Hoff Hlen A0 A'. subst A'. unfold Sics.mirror.
  set (E := fun (s' : State World) (k l : nat) =>
    lcpA (lcp s') !!! (nSkip * R + (offset !!! k + l))%nat
    = A0 !!! (nSkip * (offset !!! k + l) + R)%nat).
  set (F := fun (s' : State World) =>
    rows_kept nSkip n (fun r => r ≠ R) A0 (lcpA (lcp s'))).
  match goal with
  | |- context [fold_left ?f (seq 0 i) s] =>
      pose proof (fold_left_inv_prefix
        (fun kpre s' => F s' ∧ ∀ k l, k ∈ kpre → (l < dim k)%nat → E s' k l)
        f (seq 0 i) s) as Houter
  end.
  cbv beta in Houter. destruct Houter as [HF HE].
  - split; [apply rows_kept_refl|]. intros k l Hk. by apply elem_of_nil in Hk.
  - intros kpre k s1 Hk%elem_of_seq [HF1 HE1].
    match goal with
    | |- context [fold_left ?g (seq 0 ?d) s1] =>
        pose proof (fold_left_inv_prefix
          (fun lpre s' =>
             F s' ∧ (∀ k' l', k' ∈ kpre → (l' < dim k')%nat → E s' k' l')
             ∧ ∀ l', l' ∈ lpre → E s' k l')
          g (seq 0 d) s1) as Hinner
    end.
    cbv beta in Hinner. destruct Hinner as (HF2 & HE2 & HE2').
    + split; [done|]. split; [done|]. intros l' Hl'.
      by apply elem_of_nil in Hl'.
    + intros lpre l s2 Hl%elem_of_seq (HF2 & HE2 & HE2').
      pose proof (Hoff k ltac:(lia)) as Hk'. fold (dim k) in Hl.
      destruct (mirror_write nSkip n R (offset !!! k + l)%nat A0
                  (lcpA (lcp s2)) Hn HR ltac:(lia) Hlen HF2)
        as (HF3 & Hnew & Hold).
      cbv zeta in HF3, Hnew, Hold.
      replace (nSkip * (offset !!! i + j) + offset !!! k + l)%nat
        with (nSkip * R + (offset !!! k + l))%nat by (subst R; lia).
      replace (nSkip * (offset !!! k + l) + offset !!! i + j)%nat
        with (nSkip * (offset !!! k + l) + R)%nat by (subst R; lia).
      split; [exact HF3|]. split.
      * intros k' l' Hk'' Hl'. apply Hold. by apply HE2.
      * intros l' [Hl'| ->%list_elem_of_singleton]%elem_of_app.
        -- apply Hold. by apply HE2'.
        -- exact Hnew.
    + split; [exact HF2|].
      intros k' l' [Hk''| ->%list_elem_of_singleton]%elem_of_app Hl'.
      * by apply HE2.
      * apply HE2'. apply elem_of_seq. fold (dim k). lia.
  - split; [exact HF|]. intros k l Hk Hl. apply HE; [|done].
    apply elem_of_seq. lia.
Qed.

Lemma call_getVelocityChange_A group nSkip n k R off wb s :
  (n ≤ nSkip)%nat →
  (off + getDimension (getConstraint World group k) ≤ n)%nat →
  rows_kept nSkip n (fun r => r ≠ R) (lcpA (lcp s))
    (lcpA (lcp (call_getVelocityChange group k (nSkip * R + off)%nat wb s))).
Proof.
  intros Hn Hfit. unfold Sics.call_getVelocityChange. cbv zeta. simpl.
  set (v := take _ _).
  assert (length v ≤ getDimension (getConstraint World group k))%nat as Hv
    by (subst v; rewrite length_take; lia).
  split; [by rewrite length_inserts|].
  intros r c Hr Hc.
  destruct (decide (nSkip * r + c < nSkip * R + off)%nat) as [Hlt|Hge].
  - by rewrite list_lookup_total_inserts_lt by done.
  - destruct (decide (nSkip * R + off + length v ≤ nSkip * r + c)%nat)
      as [Hle|Hin].
    + by rewrite list_lookup_total_inserts_ge by done.
    + exfalso. apply Hr.
      apply (pos_row nSkip r c R (nSkip * r + c - nSkip * R)%nat); [lia|lia|].
      assert (nSkip * R ≤ nSkip * r + c)%nat by lia. lia.
Qed.

(** One probe writes the row of its own dimension only, and leaves the
    blocks of the earlier constraints in that row equal to their
    transposes. *)
Lemma probe_A group nSkip n offset i j s :
  let dim k := getDimension (getConstraint World group k) in
  let R := (offset !!! i + j)%nat in
  (n ≤ nSkip)%nat → (i < getNumConstraints World group)%nat → (j < dim i)%nat →
  (∀ k, (k < getNumConstraints World group)%nat →
        (offset !!! k + dim k ≤ n)%nat) →
  (∀ k, (k < i)%nat → (offset !!! k + dim k ≤ offset !!! i)%nat) →
  length (lcpA (lcp s)) = (n * nSkip)%nat →
  let A' := lcpA (lcp (probe group nSkip offset i s j)) in
  rows_kept nSkip n (fun r => r ≠ R) (lcpA (lcp s)) A'
  ∧ ∀ k l, (k < i)%nat → (l < dim k)%nat →
           A' !!! (nSkip * R + (offset !!! k + l))%nat
           = A' !!! (nSkip * (offset !!! k + l) + R)%nat.
Proof.
  intros dim R Hn Hi Hj Hfit Hoff Hlen A'. subst A'.
  pose proof (Hfit i Hi) as Hfi.
  unfold Sics.probe. cbv zeta. fold R.
  match goal with
  | |- context [Sics.mirror _ _ _ _ _ _ ?st] => set (s1 := st)
  end.
  assert (rows_kept nSkip n (fun r => r ≠ R) (lcpA (lcp s)) (lcpA (lcp s1)))
    as Hgvc.
  { subst s1.
    match goal with
    | |- context [fold_left ?f ?l (Sics.call_getVelocityChange _ _ _ _ _ ?s0)] =>
        apply (fold_left_inv
                 (fun s' => rows_kept nSkip n (fun r => r ≠ R)
                              (lcpA (lcp s)) (lcpA (lcp s'))) f l);
        [pose proof (call_getVelocityChange_A group nSkip n i R
                       (offset !!! i) true s0 Hn Hfi) as H0;
         replace (lcpA (lcp s0)) with (lcpA (lcp s)) in H0
           by (simpl; by case_decide);
         exact H0|]
    end.
    intros s' k Hk%elem_of_seq Hs'.
    eapply rows_kept_trans; [exact Hs'|].
    apply call_getVelocityChange_A; [done|]. apply Hfit. lia. }
  destruct Hgvc as [Hl1 Hk1].
  destruct (mirror_A group nSkip n offset i j s1 Hn ltac:(subst R; lia) Hoff
              ltac:(by rewrite Hl1)) as [[Hl2 Hk2] Hm].
  fold R in Hl2, Hk2, Hm. split.
  - split; [congruence|]. intros r c Hr Hc. rewrite Hk2, Hk1; done.
  - intros k l Hk Hl. rewrite Hm by done.
    pose proof (Hoff k Hk). symmetry. apply Hk2; [|subst R; lia].
    fold (dim k) in *. subst R. lia.
Qed.

Lemma probes_A group nSkip n offset i s (d : nat) :
  let dim k := getDimension (getConstraint World group k) in
  (n ≤ nSkip)%nat → (i < getNumConstraints World group)%nat → (d ≤ dim i)%nat →
  (∀ k, (k < getNumConstraints World group)%nat →
        (offset !!! k + dim k ≤ n)%nat) →
  (∀ k, (k < i)%nat → (offset !!! k + dim k ≤ offset !!! i)%nat) →
  length (lcpA (lcp s)) = (n * nSkip)%nat →
  let A' :=
    lcpA (lcp (fold_left (probe group nSkip offset i) (seq 0 d) s)) in
  rows_kept nSkip n (fun r => ¬ (offset !!! i ≤ r < offset !!! i + d)%nat)
            (lcpA (lcp s)) A'
  ∧ ∀ j k l, (j < d)%nat → (k < i)%nat → (l < dim k)%nat →
             A' !!! (nSkip * (offset !!! i + j) + (offset !!! k + l))%nat
             = A' !!! (nSkip * (offset !!! k + l) + (offset !!! i + j))%nat.
Proof.
  intros dim. subst dim. cbv beta. intros Hn Hi Hd Hfit Hoff Hlen.
  induction d as [|d IH]; intros A'; subst A'.
  - split; [apply rows_kept_refl|]. intros j k l Hj. lia.
  - rewrite fold_left_seq_S.
    destruct (IH ltac:(lia)) as [[Hl1 Hk1] Hsym].
    set (s' := fold_left (probe group nSkip offset i) (seq 0 d) s) in *.
    destruct (probe_A group nSkip n offset i d s' Hn Hi ltac:(cbv beta; lia)
                Hfit Hoff ltac:(by rewrite Hl1)) as [[Hl2 Hk2] Hnew].
    cbv beta in Hnew.
    pose proof (Hfit i Hi) as Hfi.
    split.
    + split; [congruence|]. intros r c Hr Hc.
      rewrite Hk2 by (done || lia). apply Hk1; [lia | done].
    + intros j k l Hj Hk Hl. pose proof (Hoff k Hk) as Hok.
      destruct (decide (j = d)) as [->|Hne]; [by apply Hnew|].
      rewrite !Hk2 by lia. apply Hsym; [lia | done | done].
Qed.

Lemma assemble_constraint_A group nSkip n offset s i :
  let dim k := getDimension (getConstraint World group k) in
  (n ≤ nSkip)%nat → (i < getNumConstraints World group)%nat →
  (∀ k, (k < getNumConstraints World group)%nat →
        (offset !!! k + dim k ≤ n)%nat) →
  (∀ k, (k < i)%nat → (offset !!! k + dim k ≤ offset !!! i)%nat) →
  length (lcpA (lcp s)) = (n * nSkip)%nat →
  let A' := lcpA (lcp (assemble_constraint group nSkip offset s i)) in
  rows_kept nSkip n (fun r => ¬ (offset !!! i ≤ r < offset !!! i + dim i)%nat)
            (lcpA (lcp s)) A'
  ∧ ∀ j k l, (j < dim i)%nat → (k < i)%nat → (l < dim k)%nat →
             A' !!! (nSkip * (offset !!! i + j) + (offset !!! k + l))%nat
             = A' !!! (nSkip * (offset !!! k + l) + (offset !!! i + j))%nat.
Proof.
  intros dim Hn Hi Hfit Hoff Hlen A'. subst A'.
  unfold Sics.assemble_constraint. cbv zeta.
  set (s1 := log World (EvExcite i) _).
  change (lcpA (lcp (log World (EvUnexcite i)
            (set_world World
               (unexcite (getConstraint World group i)
                  (world (fold_left (probe group nSkip offset i)
                            (seq 0 (dim i)) s1)))
               (fold_left (probe group nSkip offset i) (seq 0 (dim i)) s1)))))
    with (lcpA (lcp (fold_left (probe group nSkip offset i)
                       (seq 0 (dim i)) s1))).
  change (lcpA (lcp s)) with (lcpA (lcp s1)).
  by apply probes_A.
Qed.

Lemma offset_slices group :
  let n := getTotalDimension World group in
  let offset := compute_offset World group n in
  let dim k := getDimension (getConstraint World group k) in
  (getNumConstraints World group ≤ n)%nat →
  (∀ k, (k < getNumConstraints World group)%nat →
        (offset !!! k + dim k ≤ n)%nat)
  ∧ (∀ k i, (k < i)%nat → (i < getNumConstraints World group)%nat →
            (offset !!! k + dim k ≤ offset !!! i)%nat).
Proof.
  intros n offset dim Hn. subst offset. split.
  - intros k Hk. rewrite compute_offset_prefix by done.
    unfold dim. rewrite <-take_sum_S by done. apply prefix_sum_le.
  - intros k i Hki Hi. rewrite !compute_offset_prefix by (done || lia).
    unfold dim. rewrite <-take_sum_S by lia. apply prefix_sum_mono. lia.
Qed.

Lemma assemble_A_prefix group (s0 : State World) (t : nat) :
  let n := getTotalDimension World group in
  let nSkip := dPAD n in
  let offset := compute_offset World group n in
  let dim k := getDimension (getConstraint World group k) in
  (getNumConstraints World group ≤ n)%nat → (n ≤ nSkip)%nat →
  length (lcpA (lcp s0)) = (n * nSkip)%nat →
  (t ≤ getNumConstraints World group)%nat →
  let A :=
    lcpA (lcp (fold_left (assemble_constraint group nSkip offset)
                         (seq 0 t) s0)) in
  length A = (n * nSkip)%nat
  ∧ ∀ i k j l, (k < i)%nat → (i < t)%nat → (j < dim i)%nat → (l < dim k)%nat →
               A !!! (nSkip * (offset !!! i + j) + (offset !!! k + l))%nat
               = A !!! (nSkip * (offset !!! k + l) + (offset !!! i + j))%nat.
Proof.
  intros n nSkip offset dim. subst dim. cbv beta. intros Hnum Hn Hlen.
  destruct (offset_slices group Hnum) as [Hfit Hoff].
  cbv beta zeta in Hfit, Hoff. fold n in Hfit, Hoff. fold offset in Hfit, Hoff.
  induction t as [|t IH]; intros Ht A; subst A.
  - split; [done|]. intros i k j l _ Hi. lia.
  - rewrite fold_left_seq_S.
    destruct (IH ltac:(lia)) as [Hl Hsym].
    set (st := fold_left (assemble_constraint group nSkip offset) (seq 0 t) s0)
      in *.
    destruct (assemble_constraint_A group nSkip n offset st t Hn ltac:(lia)
                Hfit ltac:(intros k Hk; apply Hoff; lia) Hl)
      as [[Hl' Hk'] Hnew].
    cbv beta in Hk', Hnew.
    split; [congruence|].
    intros i k j l Hki Hi Hj Hl0.
    destruct (decide (i = t)) as [->|Hne]; [by apply Hnew|].
    pose proof (Hoff k i Hki ltac:(lia)) as Hok.
    pose proof (Hoff i t ltac:(lia) ltac:(lia)) as Hot.
    pose proof (Hfit t ltac:(lia)) as Hft.
    rewrite !Hk' by lia. apply Hsym; (done || lia).
Qed.

(** X18.  The assembly fills the blocks of A below the diagonal by
    copying: for a group with no more constraints than dimensions and a
    stride nSkip = dPAD(n) >= n, when the boxed solver is called the
    block of A in the rows of constraint i and the columns of an earlier
    constraint k is the transpose of the block in the rows of k and the
    columns of i, entry for entry and whatever getVelocityChange
    returned. *)
Theorem X18_blocks_below_the_diagonal_are_transposes group heap w0 :
  let n := getTotalDimension World group in
  let nSkip := dPAD n in
  let offset := compute_offset World group n in
  let dim k := getDimension (getConstraint World group k) in
  (getNumConstraints World group ≤ n)%nat → (n ≤ nSkip)%nat →
  length (lcpA heap) = (n * nSkip)%nat →
  let A := lcpA (lcp (assemble group heap w0)) in
  length A = (n * nSkip)%nat
  ∧ ∀ i k j l, (k < i)%nat → (i < getNumConstraints World group)%nat →
               (j < dim i)%nat → (l < dim k)%nat →
               A !!! (nSkip * (offset !!! i + j) + (offset !!! k + l))%nat
               = A !!! (nSkip * (offset !!! k + l) + (offset !!! i + j))%nat.
Proof.
  intros n nSkip offset dim Hnum Hn Hlen A. subst A.
  unfold Sics.assemble. cbv zeta.
  match goal with
  | |- context [fold_left _ _ ?s0] =>
      apply (assemble_A_prefix group s0 (getNumConstraints World group) Hnum Hn);
        [|done]
  end.
  simpl. destruct NDEBUG; [exact Hlen | by rewrite length_replicate].
Qed.

Lemma row_in_slice group (t r : nat) :
  (t ≤ getNumConstraints World group)%nat →
  (r < sum_list (take t (map getDimension group)))%nat →
  ∃ i j, (i < t)%nat
         ∧ (j < getDimension (getConstraint World group i))%nat
         ∧ r = (sum_list (take i (map getDimension group)) + j)%nat.
Proof.
  induction t as [|t IH]; intros Ht Hr.
  - rewrite take_0 in Hr. simpl in Hr. lia.
  - rewrite take_sum_S in Hr by lia.
    destruct (decide (r < sum_list (take t (map getDimension group)))%nat)
      as [Hlt|Hge].
    + destruct (IH ltac:(lia) Hlt) as (i & j & Hi & Hj & ->).
      exists i, j. split; [lia | done].
    + exists t, (r - sum_list (take t (map getDimension group)))%nat.
      split; [lia|]. split; lia.
Qed.

(** X19.  The debug assertion isSymmetric(n, A) made before the boxed
    solver is called holds as soon as every constraint's own block of A
    is symmetric within 1e-6: the blocks off the diagonal are exact
    transposes of each other by construction. *)
Theorem X19_isSymmetric_holds_before_solve group heap w0 :
  let n := getTotalDimension World group in
  let nSkip := dPAD n in
  let offset := compute_offset World group n in
  let dim k := getDimension (getConstraint World group k) in
  (getNumConstraints World group ≤ n)%nat → (n ≤ nSkip)%nat →
  length (lcpA heap) = (n * nSkip)%nat →
  let A := lcpA (lcp (assemble group heap w0)) in
  (∀ i j j', (i < getNumConstraints World group)%nat →
             (j < dim i)%nat → (j' < dim i)%nat →
             Qcabs (A !!! (nSkip * (offset !!! i + j) + (offset !!! i + j'))%nat
                    - A !!! (nSkip * (offset !!! i + j') + (offset !!! i + j))%nat)
             ≤ dbl 1 1000000) →
  isSymmetric dPAD n A = true.
Proof.
  intros n nSkip offset dim. subst dim. cbv beta.
  intros Hnum Hn Hlen A Hdiag.
  assert (∀ i k j l, (k < i)%nat → (i < getNumConstraints World group)%nat →
            (j < getDimension (getConstraint World group i))%nat →
            (l < getDimension (getConstraint World group k))%nat →
            A !!! (nSkip * (offset !!! i + j) + (offset !!! k + l))%nat
            = A !!! (nSkip * (offset !!! k + l) + (offset !!! i + j))%nat)
    as Hoff.
  { subst A. unfold Sics.assemble. cbv zeta.
    match goal with
    | |- context [fold_left _ _ ?s0] =>
        apply (assemble_A_prefix group s0 (getNumConstraints World group)
                 Hnum Hn); [|done]
    end.
    simpl. destruct NDEBUG; [exact Hlen | by rewrite length_replicate]. }
  unfold isSymmetric. cbv zeta. fold nSkip. apply forallb_pairs.
  intros r c Hr%elem_of_seq Hc%elem_of_seq. apply symmetric_pair_true.
  assert (sum_list (take (getNumConstraints World group)
                         (map getDimension group)) = n) as Hall
    by (by rewrite take_ge by (by rewrite length_map)).
  destruct (row_in_slice group (getNumConstraints World group) r
              ltac:(done) ltac:(lia)) as (i & j & Hi & Hj & ->).
  destruct (row_in_slice group (getNumConstraints World group) c
              ltac:(done) ltac:(lia)) as (k & l & Hk & Hl & ->).
  rewrite <-!(compute_offset_prefix group n) by done. fold offset.
  assert (∀ u : Qc, Qcabs (u - u) ≤ dbl 1 1000000) as Hzero.
  { intros u. replace (u - u) with (0 : Qc) by ring. by compute. }
  destruct (decide (k < i)%nat) as [Hki|Hki];
    [rewrite Hoff by done; apply Hzero|].
  destruct (decide (i < k)%nat) as [Hik|Hik];
    [rewrite <-Hoff by done; apply Hzero|].
  assert (k = i) as -> by lia. by apply Hdiag.
Qed.

(** C2 (amended).  solveConstrainedGroup leaves the filling of x to the
    constraints: for every group with total dimension n > 0 whose
    constraints have positive dimension, if each constraint's
    getInformation writes zeros to its slice of x, then x is all zeros at
    the moment the boxed LCP solver is invoked. *)
Theorem C2_x_zero_when_getInformation_zero_fills group heap w0 :
  let n := getTotalDimension World group in
  (0 < n)%nat →
  (∀ c, c ∈ group → (0 < getDimension c)%nat) →
  (∀ c, c ∈ group → ∀ w info,
        ci_x (getInformation c w info) = replicate (getDimension c) 0) →
  length (lcpx heap) = n →
  lcpx (lcp (assemble group heap w0)) = replicate n 0
  ∧ EvSolve (replicate n 0) ∈ (solveConstrainedGroup group heap w0).2.
Proof.
  intros n Hn Hpos Hzero Hlen.
  assert (lcpx (lcp (assemble group heap w0)) = replicate n 0) as Hx.
  { unfold Sics.assemble. cbv zeta.
    match goal with
    | |- lcpx (lcp (fold_left _ _ ?s0)) = _ =>
        destruct (assemble_x_prefix group s0
                    (getNumConstraints World group) Hpos Hzero Hlen
                    ltac:(done)) as [Hl Hz]
    end.
    cbv zeta in Hl, Hz.
    rewrite take_ge in Hz by (rewrite length_map; done).
    change (sum_list (map getDimension group)) with n in Hz.
    symmetry. apply replicate_as_Forall_2; [exact Hl|].
    apply Forall_lookup. intros j v Hv.
    pose proof (lookup_lt_Some _ _ _ Hv) as Hj.
    apply list_lookup_total_correct in Hv. rewrite <-Hv.
    symmetry. apply Hz. rewrite Hl in Hj. exact Hj. }
  split; [done|].
  rewrite solveConstrainedGroup_trace by done. rewrite Hx.
  apply elem_of_app. right. by left.
Qed.

End SicsFacts.

(** ** Assembly on concrete groups *)

(** The impulse vector is not zero at the call of the solver when a
    constraint writes a non-zero initial guess: nothing resets x between
    getInformation and the solve. *)
Lemma C2_x_keeps_what_getInformation_wrote :
  let group := [guess_constraint 1] in
  (0 < Sics.getTotalDimension unit group)%nat
  ∧ Sics.lcpx (Sics.lcp (sics_assemble group)) = [1]
  ∧ Sics.EvSolve [1] ∈ (sics_solve group).2
  ∧ Sics.lcpx (Sics.lcp (sics_assemble group)) !!! 0%nat ≠ 0.
Proof. repeat split; compute_done. Qed.

Lemma C2_x_zero_when_getInformation_zero_fills_witness :
  let group := [guess_constraint 0; guess_constraint 0] in
  Sics.lcpx (Sics.lcp (sics_assemble group)) = replicate 2 0
  ∧ Sics.EvSolve (replicate 2 0) ∈ (sics_solve group).2.
Proof.
  intros group. unfold sics_assemble, sics_solve.
  apply (C2_x_zero_when_getInformation_zero_fills dPAD4 unit idle_solver
           (dbl 1 1000) false group (fresh_heap 2) tt).
  - vm_compute. lia.
  - intros c Hc. repeat (apply elem_of_cons in Hc as [->|Hc]); try (vm_compute; lia).
    by apply elem_of_nil in Hc.
  - intros c Hc w info.
    repeat (apply elem_of_cons in Hc as [->|Hc]); simpl; try done.
    by apply elem_of_nil in Hc.
  - reflexivity.
Defined.

Lemma marked_group_mark :
  Sics.excitation_mark Marks marked_group 1 (fun w => w 1%nat).
Proof.
  unfold Sics.excitation_mark.
  split; [reflexivity|]. split; [reflexivity|]. split; [|split].
  - intros c' w Hc'.
    destruct c' as [|[|c']]; [by split | done | by split].
  - intros c' w j. destruct c' as [|[|c']]; reflexivity.
  - intros c' w v. destruct c' as [|[|c']]; reflexivity.
Qed.


(** ** The further properties on concrete instances *)

Lemma X1_solve_writes_x_below_n_witness :
  length (bufx (pgs_solve default_option 2 0 S5)) = length (bufx S5)
  ∧ ((2 ≤ 2)%nat →
     bufx (pgs_solve default_option 2 0 S5) !!! 2%nat = bufx S5 !!! 2%nat).
Proof.
  unfold pgs_solve.
  apply (X1_solve_writes_x_below_n dPAD4 OdeModel.dFactorLDLT
           OdeModel.dSolveLDLT Z OdeModel.dRandInt default_option
           OdeModel_dRandInt_range 2%nat 0%Z S5 2%nat).
Defined.

Lemma X2_sweep_order_rearranges_regular_rows_witness :
  mCacheOrder (pgs_solve default_option 2 0 (S6 5)) ≡ₚ [1%nat]
  ∧ NoDup (mCacheOrder (pgs_solve default_option 2 0 (S6 5))).
Proof.
  unfold pgs_solve.
  pose proof (X2_sweep_order_rearranges_regular_rows dPAD4
                OdeModel.dFactorLDLT OdeModel.dSolveLDLT Z OdeModel.dRandInt
                default_option OdeModel_dRandInt_range 2%nat 0%Z (S6 5)
                ltac:(simpl; lia)) as (Hperm & Hnodup & _).
  split; [|exact Hnodup].
  etransitivity; [exact Hperm|]. by vm_compute.
Defined.

Lemma X3_friction_rows_ignore_lo_witness :
  pgs_solve default_option 3 0 (Pgs.with_lo Z [0; dbl 7 1; dbl 7 1] S5)
  = Pgs.with_lo Z [0; dbl 7 1; dbl 7 1] (pgs_solve default_option 3 0 S5).
Proof.
  unfold pgs_solve.
  apply (X3_friction_rows_ignore_lo dPAD4 OdeModel.dFactorLDLT
           OdeModel.dSolveLDLT Z OdeModel.dRandInt default_option
           [0; dbl 7 1; dbl 7 1] 3%nat 0%Z S5).
  intros i Hi.
  destruct i as [|[|[|i]]];
    [compute_done | exfalso; cbv in Hi; discriminate ..].
Defined.

Lemma X4_normalised_rows_give_the_same_update_witness :
  let m := S3_ordered in
  let m' := Pgs.normalize Z 2 4 m in
  let x := [1; 1] in
  (∀ index, index ∈ mCacheOrder m →
     Pgs.offdiag 2 4 index (bufA m') x (bufb m' !!! index)
     = Pgs.offdiag 2 4 index (bufA m) x (bufb m !!! index)
       / bufA m !!! (4 * index + index)%nat
     ∧ bufA m' !!! (4 * index + index)%nat = 1)
  ∧ (∀ r j, (r < 2)%nat → (j < 2)%nat → r ∉ mCacheOrder m →
            bufA m' !!! (4 * r + j)%nat = bufA m !!! (4 * r + j)%nat
            ∧ bufb m' !!! r = bufb m !!! r).
Proof.
  apply (X4_normalised_rows_give_the_same_update Z 2%nat 4%nat S3_ordered
           [1; 1]).
  - lia.
  - apply NoDup_cons. split; [|apply NoDup_singleton].
    intros Hin%list_elem_of_singleton. done.
  - intros i Hi.
    repeat (apply elem_of_cons in Hi as [->|Hi]);
      [split; [lia | by compute_done] ..|by apply elem_of_nil in Hi].
  - simpl. lia.
  - simpl. lia.
Defined.

Lemma X5_singleIteration_is_one_sweep_witness :
  Pgs.singleIterationForNormalizedA Z default_option 4 [0; 1]%nat 2 2
    S3_ordered true
  = fold_left (Pgs.sweep_body Z default_option 2 4) (take 2 [0; 1]%nat)
              (S3_ordered, true).
Proof.
  refine (proj1 (X5_singleIteration_is_one_sweep Z default_option 4%nat
                   [0; 1]%nat 2%nat 2%nat S3_ordered true _)).
  simpl. lia.
Defined.

Lemma S3_matrix_diagonal (i : nat) :
  (i < 2)%nat → PgsMatrix.coeff S3_matrix i i ≠ 0.
Proof. intros Hi. destruct i as [|[|i]]; [compute_done | compute_done | lia]. Qed.

Lemma X6_sweepForward_solves_witness :
  let x_new := PgsMatrix.sweepForward S3_matrix [0; 0] [1; 2] in
  length x_new = 2%nat
  ∧ ∀ i, (i < 2)%nat →
         PgsMatrix.sum_over (seq 0 i)
           (fun j => PgsMatrix.coeff S3_matrix i j * x_new !!! j)
         + PgsMatrix.coeff S3_matrix i i * x_new !!! i
         = - PgsMatrix.strictlyUpper_times S3_matrix [0; 0] 2 i
           - [1; 2] !!! i.
Proof.
  apply (X6_sweepForward_solves S3_matrix [0; 0] [1; 2]).
  exact S3_matrix_diagonal.
Defined.

Lemma X8_sweepBackward_solves_witness :
  let x_new := PgsMatrix.sweepBackward S3_matrix [0; 0] [1; 2] in
  length x_new = 2%nat
  ∧ ∀ i, (i < 2)%nat →
         PgsMatrix.coeff S3_matrix i i * x_new !!! i
         + PgsMatrix.sum_over (seq (i + 1) (2 - (i + 1)))
             (fun j => PgsMatrix.coeff S3_matrix i j * x_new !!! j)
         = - PgsMatrix.strictlyLower_times S3_matrix [0; 0] i
           - [1; 2] !!! i.
Proof.
  apply (X8_sweepBackward_solves S3_matrix [0; 0] [1; 2]).
  exact S3_matrix_diagonal.
Defined.

Lemma X9_normalisation_keeps_the_result_witness :
  PgsMatrix.solve ldlt_idle default_option S3_matrix [0; 0] [1; 2] 0
    [- wide; - wide] [wide; wide]
  = PgsMatrix.sweeps default_option
      (fun x => PgsMatrix.sweepForward S3_matrix x [1; 2])
      [- wide; - wide] [wide; wide]
      (Z.to_nat (mMaxIteration default_option)) [0; 0].
Proof.
  apply (X9_normalisation_keeps_the_result ldlt_idle default_option
           S3_matrix [0; 0] [1; 2] 0%Z [- wide; - wide] [wide; wide]).
  - simpl. lia.
  - exact S3_matrix_diagonal.
Defined.

Lemma X10_matrix_solve_stays_in_the_box_witness :
  let x' :=
    PgsMatrix.solve ldlt_idle default_option S3_matrix [0; 0] [1; 2] 0
      [0; 0] [1; 1] in
  ((0 < mMaxIteration default_option)%Z →
   length x' = 2%nat
   ∧ ∀ i, (i < 2)%nat →
          x' !!! i ≤ [1; 1] !!! i
          ∧ ([0; 0] !!! i ≤ [1; 1] !!! i → [0; 0] !!! i ≤ x' !!! i))
  ∧ ((mMaxIteration default_option ≤ 0)%Z → x' = [0; 0]).
Proof.
  apply (X10_matrix_solve_stays_in_the_box ldlt_idle default_option
           S3_matrix [0; 0] [1; 2] 0%Z [0; 0] [1; 1]).
  - simpl. lia.
  - exact S3_matrix_diagonal.
Defined.

Lemma X11_one_pinned_entry_stops_the_iteration_witness :
  PgsMatrix.solve ldlt_idle default_option S3_matrix [0; 0] [1; 2] 0
    [0; - wide] [0; wide]
  = PgsMatrix.cwiseMin
      (PgsMatrix.cwiseMax (PgsMatrix.sweepForward S3_matrix [0; 0] [1; 2])
                          [0; - wide])
      [0; wide].
Proof.
  apply (X11_one_pinned_entry_stops_the_iteration ldlt_idle default_option
           S3_matrix [0; 0] [1; 2] 0%Z [0; - wide] [0; wide] 0%nat).
  - simpl. lia.
  - exact S3_matrix_diagonal.
  - simpl. lia.
  - by compute.
  - simpl. lia.
  - reflexivity.
  - reflexivity.
Defined.

Lemma X13_canSolve_implies_isSymmetric_witness :
  isSymmetric dPAD4 2 (bufA S3) = true
  ∧ ∀ begin_ end_, (end_ < 2)%nat →
                   isSymmetric_range dPAD4 2 (bufA S3) begin_ end_ = true.
Proof.
  apply (X13_canSolve_implies_isSymmetric dPAD4 2%nat (bufA S3)).
  by vm_compute.
Defined.

Lemma marked_group_positive (c : Sics.ConstraintBase Marks) :
  c ∈ marked_group → (0 < Sics.getDimension c)%nat.
Proof.
  intros Hc. unfold marked_group in Hc.
  repeat (apply elem_of_cons in Hc as [->|Hc]);
    [simpl; lia .. | by apply elem_of_nil in Hc].
Qed.


Lemma X16_offsets_cut_the_buffers_witness :
  let offset := Sics.compute_offset unit mixed_group 4 in
  offset !!! 1%nat = 1%nat ∧ (offset !!! 1%nat + 3 ≤ 4)%nat.
Proof.
  pose proof (X16_offsets_cut_the_buffers unit mixed_group 1%nat
                ltac:(vm_compute; lia) ltac:(vm_compute; lia))
    as (H1 & H2 & _).
  split; [exact H1 | exact H2].
Defined.

Lemma mixed_group_findex (c : Sics.ConstraintBase unit) :
  c ∈ mixed_group →
  ∀ (w : unit) (info : Sics.ConstraintInfo) (j : nat),
    let r := Sics.getInformation c w info in
    (j < Sics.getDimension c)%nat → (j < length (Sics.ci_findex r))%nat →
    Sics.ci_findex r !!! j = Sics.ci_findex info !!! j
    ∨ (-1 ≤ Sics.ci_findex r !!! j < Z.of_nat (Sics.getDimension c))%Z.
Proof.
  intros Hc w info j r Hj _. subst r. right.
  unfold mixed_group in Hc.
  repeat (apply elem_of_cons in Hc as [->|Hc]);
    [..|by apply elem_of_nil in Hc]; simpl in Hj |- *.
  - destruct j as [|j]; [simpl; lia | lia].
  - destruct j as [|[|[|j]]]; simpl; lia.
Qed.

Lemma X17_findex_points_into_own_slice_witness :
  let f := Sics.lcpfindex (Sics.lcp (sics_assemble mixed_group)) in
  length f = 4%nat ∧ ∀ p, (p < 4)%nat → (-1 ≤ f !!! p < 4)%Z.
Proof.
  unfold sics_assemble.
  pose proof (X17_findex_points_into_own_slice dPAD4 unit (dbl 1 1000) false
                mixed_group (fresh_heap 4) tt ltac:(vm_compute; lia)
                mixed_group_findex) as (H1 & _ & H3).
  split; [exact H1 | exact H3].
Defined.

Lemma X18_blocks_below_the_diagonal_are_transposes_witness :
  let A := Sics.lcpA (Sics.lcp (sics_assemble mixed_group)) in
  let offset := Sics.compute_offset unit mixed_group 4 in
  length A = 16%nat
  ∧ ∀ j l, (j < 3)%nat → (l < 1)%nat →
           A !!! (4 * (offset !!! 1%nat + j) + (offset !!! 0%nat + l))%nat
           = A !!! (4 * (offset !!! 0%nat + l) + (offset !!! 1%nat + j))%nat.
Proof.
  unfold sics_assemble.
  pose proof (X18_blocks_below_the_diagonal_are_transposes dPAD4 unit
                (dbl 1 1000) false mixed_group (fresh_heap 4) tt
                ltac:(vm_compute; lia) ltac:(vm_compute; lia)
                ltac:(reflexivity)) as (H1 & H2).
  split; [exact H1|].
  intros j l Hj Hl. apply (H2 1%nat 0%nat j l); [lia | vm_compute; lia |..];
    assumption.
Defined.

Lemma X19_isSymmetric_holds_before_solve_witness :
  isSymmetric dPAD4 4 (Sics.lcpA (Sics.lcp (sics_assemble mixed_group))) = true.
Proof.
  unfold sics_assemble.
  apply (X19_isSymmetric_holds_before_solve dPAD4 unit (dbl 1 1000) false
           mixed_group (fresh_heap 4) tt).
  - vm_compute. lia.
  - vm_compute. lia.
  - reflexivity.
  - intros i j j' Hi Hj Hj'.
    destruct i as [|[|i]]; [| |vm_compute in Hi; lia].
    + destruct j as [|j]; [|vm_compute in Hj; lia].
      destruct j' as [|j']; [|vm_compute in Hj'; lia].
      by vm_compute.
    + destruct j as [|[|[|j]]]; [| | |vm_compute in Hj; lia];
        (destruct j' as [|[|[|j']]]; [| | |vm_compute in Hj'; lia]);
        by vm_compute.
Defined.

Lemma X20_solve_scales_regular_rows_in_place_witness :
  let m' := pgs_solve default_option 2 0 S3 in
  bufb m' !!! 0%nat = bufb S3 !!! 0%nat / bufA S3 !!! (dPAD4 2 * 0 + 0)%nat
  ∧ ∀ j, (j < 2)%nat →
         bufA m' !!! (dPAD4 2 * 0 + j)%nat
         = bufA S3 !!! (dPAD4 2 * 0 + j)%nat
           / bufA S3 !!! (dPAD4 2 * 0 + 0)%nat.
Proof.
  unfold pgs_solve.
  pose proof (X20_solve_scales_regular_rows_in_place dPAD4
                OdeModel.dFactorLDLT OdeModel.dSolveLDLT Z OdeModel.dRandInt
                default_option 2%nat 0%Z S3
                ltac:(simpl; lia) ltac:(vm_compute; lia)
                ltac:(vm_compute; lia) ltac:(simpl; lia)
                ltac:(by compute)) as [_ Hscaled].
  apply (Hscaled ltac:(by vm_compute) 0%nat ltac:(lia)).
  unfold Pgs.degenerate. by compute.
Defined.
